(** * lv_anim.c: the animation scheduler of LVGL, embedded in Rocq

    The development follows [src/misc/lv_anim.c] function by function.
    Fixed-width C integers are integers of [Z] with the wrap-around written
    out at every operation; the registry [_lv_anim_ll] is a list of heap
    nodes, head first; callbacks are function pointers (integers, [NULL] is
    [0]) whose invocations are recorded in a trace.  A ready callback may
    call [lv_anim_start], [lv_anim_del] and [lv_anim_del_all] while the frame
    loop runs; in [Scheduler] the other callbacks are recorded and leave the
    registry alone, in [Reentrant] they call into the registry too.
    lv_anim.h, lv_math.c, lv_ll.c, lv_hal_tick.c and lv_timer.c are not part
    of the sources at hand: what lv_anim.c uses of them is modelled, and
    marked so. *)

From Stdlib Require Import ZArith List Bool Lia Arith.
Import ListNotations.
Local Open Scope Z_scope.

(* ================================================================== *)
(** ** Fixed-width integers *)
(* ================================================================== *)

(** Conversion to [int32_t]: two's complement wrap-around. *)
Definition int32_t (z : Z) : Z := (z + 2147483648) mod 4294967296 - 2147483648.

(** Conversion to [uint32_t]. *)
Definition uint32_t (z : Z) : Z := z mod 4294967296.

(** Conversion to [uint16_t]. *)
Definition uint16_t (z : Z) : Z := z mod 65536.

Definition is_int32 (z : Z) : Prop := -2147483648 <= z < 2147483648.
Definition is_uint32 (z : Z) : Prop := 0 <= z < 4294967296.
Definition is_uint16 (z : Z) : Prop := 0 <= z < 65536.

(** Pointers and function pointers are compared, never dereferenced. *)
Definition ptr := Z.
Definition fnptr := Z.
Definition NULL : Z := 0.

(** [#define LV_ANIM_RESOLUTION 1024] and [#define LV_ANIM_RES_SHIFT 10]. *)
Definition LV_ANIM_RESOLUTION : Z := 1024.
Definition LV_ANIM_RES_SHIFT : Z := 10.

(** Modelled from the spec: [LV_ANIM_REPEAT_INFINITE] is declared in
    lv_anim.h, which is not part of the sources at hand; the spec calls it
    the sentinel of [repeat_count] that marks "infinite".  It is the largest
    value of the 16-bit counter. *)
Definition LV_ANIM_REPEAT_INFINITE : Z := 65535.

(** Modelled from the spec: [LV_ABS] is a macro of lv_math.h, which is not
    part of the sources at hand: the absolute value of its argument, computed
    in the argument's type ([int32_t] at its only use). *)
Definition LV_ABS (x : Z) : Z := if x >? 0 then x else int32_t (- x).

(* ================================================================== *)
(** ** The animation record *)
(* ================================================================== *)

(** The value of [path.cb]: [NULL], one of the built-in path functions of
    this file, or the address of a function of the user. *)
Inductive lv_anim_path_cb_t : Type :=
| path_NULL
| path_linear
| path_ease_in
| path_ease_out
| path_ease_in_out
| path_overshoot
| path_bounce
| path_step
| path_user (f : fnptr).

(** Modelled from the spec: [lv_anim_t] is declared in lv_anim.h, which is
    not part of the sources at hand.  The fields are the ones lv_anim.c reads
    and writes, with the types of the Animation Record of the spec:
    signed 32-bit values and times, unsigned 32-bit delays, a 16-bit repeat
    counter and one-bit flags. *)
Record lv_anim_t : Type := mk_anim {
  var : ptr;
  exec_cb : fnptr;
  start_cb : fnptr;
  ready_cb : fnptr;
  get_value_cb : fnptr;
  path_cb : lv_anim_path_cb_t;
  start_value : Z;
  current_value : Z;
  end_value : Z;
  time : Z;
  act_time : Z;
  playback_delay : Z;
  playback_time : Z;
  repeat_delay : Z;
  repeat_cnt : Z;
  early_apply : bool;
  playback_now : bool;
  run_round : bool;
  time_orig : Z
}.

(** Every field holds a value of its C type. *)
Definition anim_typed (a : lv_anim_t) : Prop :=
  is_int32 (start_value a) /\ is_int32 (current_value a) /\
  is_int32 (end_value a) /\ is_int32 (time a) /\ is_int32 (act_time a) /\
  is_uint32 (playback_delay a) /\ is_uint32 (playback_time a) /\
  is_uint32 (repeat_delay a) /\ is_uint16 (repeat_cnt a) /\
  is_uint32 (time_orig a).

Definition set_start_value (v : Z) (a : lv_anim_t) : lv_anim_t :=
  mk_anim (var a) (exec_cb a) (start_cb a) (ready_cb a) (get_value_cb a)
    (path_cb a) v (current_value a) (end_value a) (time a) (act_time a)
    (playback_delay a) (playback_time a) (repeat_delay a) (repeat_cnt a)
    (early_apply a) (playback_now a) (run_round a) (time_orig a).

Definition set_current_value (v : Z) (a : lv_anim_t) : lv_anim_t :=
  mk_anim (var a) (exec_cb a) (start_cb a) (ready_cb a) (get_value_cb a)
    (path_cb a) (start_value a) v (end_value a) (time a) (act_time a)
    (playback_delay a) (playback_time a) (repeat_delay a) (repeat_cnt a)
    (early_apply a) (playback_now a) (run_round a) (time_orig a).

Definition set_end_value (v : Z) (a : lv_anim_t) : lv_anim_t :=
  mk_anim (var a) (exec_cb a) (start_cb a) (ready_cb a) (get_value_cb a)
    (path_cb a) (start_value a) (current_value a) v (time a) (act_time a)
    (playback_delay a) (playback_time a) (repeat_delay a) (repeat_cnt a)
    (early_apply a) (playback_now a) (run_round a) (time_orig a).

Definition set_time (v : Z) (a : lv_anim_t) : lv_anim_t :=
  mk_anim (var a) (exec_cb a) (start_cb a) (ready_cb a) (get_value_cb a)
    (path_cb a) (start_value a) (current_value a) (end_value a) v (act_time a)
    (playback_delay a) (playback_time a) (repeat_delay a) (repeat_cnt a)
    (early_apply a) (playback_now a) (run_round a) (time_orig a).

Definition set_act_time (v : Z) (a : lv_anim_t) : lv_anim_t :=
  mk_anim (var a) (exec_cb a) (start_cb a) (ready_cb a) (get_value_cb a)
    (path_cb a) (start_value a) (current_value a) (end_value a) (time a) v
    (playback_delay a) (playback_time a) (repeat_delay a) (repeat_cnt a)
    (early_apply a) (playback_now a) (run_round a) (time_orig a).

Definition set_repeat_cnt (v : Z) (a : lv_anim_t) : lv_anim_t :=
  mk_anim (var a) (exec_cb a) (start_cb a) (ready_cb a) (get_value_cb a)
    (path_cb a) (start_value a) (current_value a) (end_value a) (time a)
    (act_time a) (playback_delay a) (playback_time a) (repeat_delay a) v
    (early_apply a) (playback_now a) (run_round a) (time_orig a).

Definition set_playback_now (v : bool) (a : lv_anim_t) : lv_anim_t :=
  mk_anim (var a) (exec_cb a) (start_cb a) (ready_cb a) (get_value_cb a)
    (path_cb a) (start_value a) (current_value a) (end_value a) (time a)
    (act_time a) (playback_delay a) (playback_time a) (repeat_delay a)
    (repeat_cnt a) (early_apply a) v (run_round a) (time_orig a).

Definition set_run_round (v : bool) (a : lv_anim_t) : lv_anim_t :=
  mk_anim (var a) (exec_cb a) (start_cb a) (ready_cb a) (get_value_cb a)
    (path_cb a) (start_value a) (current_value a) (end_value a) (time a)
    (act_time a) (playback_delay a) (playback_time a) (repeat_delay a)
    (repeat_cnt a) (early_apply a) (playback_now a) v (time_orig a).

Definition set_time_orig (v : Z) (a : lv_anim_t) : lv_anim_t :=
  mk_anim (var a) (exec_cb a) (start_cb a) (ready_cb a) (get_value_cb a)
    (path_cb a) (start_value a) (current_value a) (end_value a) (time a)
    (act_time a) (playback_delay a) (playback_time a) (repeat_delay a)
    (repeat_cnt a) (early_apply a) (playback_now a) (run_round a) v.

(** [lv_anim_init]: the record is zeroed, then the defaults are written. *)
Definition lv_anim_init : lv_anim_t :=
  {| var := NULL; exec_cb := NULL; start_cb := NULL; ready_cb := NULL;
     get_value_cb := NULL; path_cb := path_linear;
     start_value := 0; current_value := 0; end_value := 100;
     time := 500; act_time := 0;
     playback_delay := 0; playback_time := 0; repeat_delay := 0;
     repeat_cnt := 1; early_apply := true;
     playback_now := false; run_round := false; time_orig := 0 |}.

(* ================================================================== *)
(** ** Path (easing) functions *)
(* ================================================================== *)

(** Modelled from the spec: [lv_map] is a function of lv_math.c, which is
    not part of the sources at hand.  The spec has the elapsed time "mapped
    onto a normalized resolution" 0..1024 and clamped to the time window:
    a value at or beyond the upper input bound maps to the upper output
    bound, one at or below the lower input bound to the lower output bound,
    and the values between them proportionally, in 32-bit arithmetic with
    C's truncating division. *)
Definition lv_map (x min_in max_in min_out max_out : Z) : Z :=
  if x >=? max_in then max_out
  else if x <=? min_in then min_out
  else
    let delta_in := int32_t (max_in - min_in) in
    let delta_out := int32_t (max_out - min_out) in
    int32_t (int32_t (Z.quot (int32_t (int32_t (x - min_in) * delta_out)) delta_in)
             + min_out).

(** Modelled from the spec: the divisor with which [lv_map] (lv_math.c)
    divides, when it reaches its division: [None] when it returns one of the
    bounds before dividing. *)
Definition lv_map_divisor (x min_in max_in : Z) : option Z :=
  if x >=? max_in then None
  else if x <=? min_in then None
  else Some (int32_t (max_in - min_in)).

(** Modelled from the spec: [lv_bezier3] is a function of lv_math.c, which
    is not part of the sources at hand: the cubic Bezier curve of the control
    points [u0 .. u3] evaluated at [t] of 0..1024, in unsigned 32-bit
    fixed-point arithmetic with 10 fractional bits. *)
Definition lv_bezier3 (t u0 u1 u2 u3 : Z) : Z :=
  let t_rem := uint32_t (1024 - t) in
  let t_rem2 := Z.shiftr (uint32_t (t_rem * t_rem)) 10 in
  let t_rem3 := Z.shiftr (uint32_t (t_rem2 * t_rem)) 10 in
  let t2 := Z.shiftr (uint32_t (t * t)) 10 in
  let t3 := Z.shiftr (uint32_t (t2 * t)) 10 in
  let v1 := Z.shiftr (uint32_t (t_rem3 * u0)) 10 in
  let v2 := Z.shiftr (uint32_t (3 * t_rem2 * t * u1)) 20 in
  let v3 := Z.shiftr (uint32_t (3 * t_rem * t2 * u2)) 20 in
  let v4 := Z.shiftr (uint32_t (t3 * u3)) 10 in
  uint32_t (v1 + v2 + v3 + v4).

(** The last three statements of the path functions: scale the range by
    [step], shift the fixed-point fraction away, add the start value. *)
Definition path_scale (step : Z) (a : lv_anim_t) : Z :=
  let new_value := int32_t (step * int32_t (end_value a - start_value a)) in
  let new_value := Z.shiftr new_value LV_ANIM_RES_SHIFT in
  int32_t (new_value + start_value a).

Definition lv_anim_path_linear (a : lv_anim_t) : Z :=
  let step := lv_map (act_time a) 0 (time a) 0 LV_ANIM_RESOLUTION in
  path_scale step a.

Definition lv_anim_path_ease_in (a : lv_anim_t) : Z :=
  let t := uint32_t (lv_map (act_time a) 0 (time a) 0 1024) in
  let step := int32_t (lv_bezier3 t 0 50 100 1024) in
  path_scale step a.

Definition lv_anim_path_ease_out (a : lv_anim_t) : Z :=
  let t := uint32_t (lv_map (act_time a) 0 (time a) 0 1024) in
  let step := int32_t (lv_bezier3 t 0 900 950 1024) in
  path_scale step a.

Definition lv_anim_path_ease_in_out (a : lv_anim_t) : Z :=
  let t := uint32_t (lv_map (act_time a) 0 (time a) 0 1024) in
  let step := int32_t (lv_bezier3 t 0 50 952 1024) in
  path_scale step a.

Definition lv_anim_path_overshoot (a : lv_anim_t) : Z :=
  let t := uint32_t (lv_map (act_time a) 0 (time a) 0 1024) in
  let step := int32_t (lv_bezier3 t 0 1000 1300 1024) in
  path_scale step a.

(** The five parts of the bounce: the rescaled [t] and the amplitude. *)
Definition bounce_part (t diff : Z) : Z * Z :=
  if t <? 408 then
    (Z.shiftr (uint32_t (t * 2500)) 10, diff)
  else if (t >=? 408) && (t <? 614) then
    let t := uint32_t (t - 408) in
    let t := uint32_t (t * 5) in
    let t := uint32_t (1024 - t) in
    (t, Z.quot diff 20)
  else if (t >=? 614) && (t <? 819) then
    let t := uint32_t (t - 614) in
    let t := uint32_t (t * 5) in
    (t, Z.quot diff 20)
  else if (t >=? 819) && (t <? 921) then
    let t := uint32_t (t - 819) in
    let t := uint32_t (t * 10) in
    let t := uint32_t (1024 - t) in
    (t, Z.quot diff 40)
  else if (t >=? 921) && (t <=? 1024) then
    let t := uint32_t (t - 921) in
    let t := uint32_t (t * 10) in
    (t, Z.quot diff 40)
  else (t, diff).

Definition lv_anim_path_bounce (a : lv_anim_t) : Z :=
  let t := uint32_t (lv_map (act_time a) 0 (time a) 0 1024) in
  let diff := int32_t (end_value a - start_value a) in
  let '(t, diff) := bounce_part t diff in
  let t := if t >? 1024 then 1024 else t in
  let step := int32_t (lv_bezier3 t 1024 800 500 0) in
  let new_value := int32_t (step * diff) in
  let new_value := Z.shiftr new_value 10 in
  int32_t (end_value a - new_value).

Definition lv_anim_path_step (a : lv_anim_t) : Z :=
  if act_time a >=? time a then end_value a else start_value a.

(* ================================================================== *)
(** ** [lv_anim_speed_to_time] *)
(* ================================================================== *)

(** The division traps on a zero [speed]: no result then. *)
Definition lv_anim_speed_to_time (speed start end_ : Z) : option Z :=
  let d := uint32_t (LV_ABS (int32_t (start - end_))) in
  if speed =? 0 then None
  else
    let time := uint32_t (d * 1000) / speed in
    Some (if time =? 0 then uint32_t (time + 1) else time).

(* ================================================================== *)
(** ** The scheduler state *)
(* ================================================================== *)

(** A call of the public API made by user code from inside a callback. *)
Inductive api_call : Type :=
| call_start (a : lv_anim_t)
| call_del (v : ptr) (cb : fnptr)
| call_del_all.

(** What the scheduler does to the outside: every call through a function
    pointer, in order.  [ev_round] is bookkeeping: it records the node whose
    [run_round] the frame loop has just set, the point after which the
    node's time is advanced. *)
Inductive event : Type :=
| ev_get_value (cb : fnptr) (v : ptr)
| ev_exec (cb : fnptr) (v : ptr) (value : Z)
| ev_start (cb : fnptr) (a : lv_anim_t)
| ev_ready (cb : fnptr) (a_tmp : lv_anim_t)
| ev_round (p : nat).

(** The code behind the function pointers.  [exec_cb] and [start_cb] write
    to the target and are recorded only ([reentry] below has the API calls
    they make besides); [get_value_cb] returns the target's
    value, which may depend on what has been written so far; a path function
    of the user computes from the record; [ready_cb], the callback the source
    names as the one that starts and deletes animations while the frame loop
    runs, is a sequence of API calls chosen from the snapshot it is given. *)
Record callbacks : Type := mk_callbacks {
  get_value_body : fnptr -> ptr -> list event -> Z;
  user_path_body : fnptr -> lv_anim_t -> Z;
  ready_body : fnptr -> lv_anim_t -> list api_call
}.

(** A node of the linked list: its heap address and the record it holds. *)
Record node : Type := mk_node { addr : nat; anim : lv_anim_t }.

(** The static variables of lv_anim.c, the registry [_lv_anim_ll] (head
    first), and the collaborators: the tick clock, the allocator (the next
    fresh address and the outcomes of the coming allocations, [false] for a
    failed one; an exhausted plan allocates) and the trace. *)
Record anim_state : Type := mk_state {
  _lv_anim_ll : list node;
  last_timer_run : Z;
  anim_list_changed : bool;
  anim_run_round : bool;
  tmr_paused : bool;
  tick : Z;
  heap_next : nat;
  heap_plan : list bool;
  trace : list event
}.

Definition set_ll (l : list node) (st : anim_state) : anim_state :=
  mk_state l (last_timer_run st) (anim_list_changed st) (anim_run_round st)
    (tmr_paused st) (tick st) (heap_next st) (heap_plan st) (trace st).

Definition set_last_timer_run (v : Z) (st : anim_state) : anim_state :=
  mk_state (_lv_anim_ll st) v (anim_list_changed st) (anim_run_round st)
    (tmr_paused st) (tick st) (heap_next st) (heap_plan st) (trace st).

Definition set_anim_list_changed (v : bool) (st : anim_state) : anim_state :=
  mk_state (_lv_anim_ll st) (last_timer_run st) v (anim_run_round st)
    (tmr_paused st) (tick st) (heap_next st) (heap_plan st) (trace st).

Definition set_anim_run_round (v : bool) (st : anim_state) : anim_state :=
  mk_state (_lv_anim_ll st) (last_timer_run st) (anim_list_changed st) v
    (tmr_paused st) (tick st) (heap_next st) (heap_plan st) (trace st).

Definition set_tmr_paused (v : bool) (st : anim_state) : anim_state :=
  mk_state (_lv_anim_ll st) (last_timer_run st) (anim_list_changed st)
    (anim_run_round st) v (tick st) (heap_next st) (heap_plan st) (trace st).

Definition set_heap (n : nat) (plan : list bool) (st : anim_state) : anim_state :=
  mk_state (_lv_anim_ll st) (last_timer_run st) (anim_list_changed st)
    (anim_run_round st) (tmr_paused st) (tick st) n plan (trace st).

(** A call through a function pointer is appended to the trace. *)
Definition emit (e : event) (st : anim_state) : anim_state :=
  mk_state (_lv_anim_ll st) (last_timer_run st) (anim_list_changed st)
    (anim_run_round st) (tmr_paused st) (tick st) (heap_next st) (heap_plan st)
    (trace st ++ [e]).

(** Modelled from the spec: [lv_tick_get] belongs to lv_hal_tick.c, which is
    not part of the sources at hand: [now()] of the tick clock collaborator,
    a 32-bit counter. *)
Definition lv_tick_get (st : anim_state) : Z := tick st.

(** Modelled from the spec: [lv_tick_elaps] (lv_hal_tick.c):
    [elapsed(since)] of the tick clock, the ticks from [prev_tick] to now on
    the 32-bit counter. *)
Definition lv_tick_elaps (prev_tick : Z) (st : anim_state) : Z :=
  uint32_t (tick st - prev_tick).

(* ------------------------------------------------------------------ *)
(** *** The linked list *)

(** The [_lv_ll_*] functions belong to lv_ll.c, which is not part of the
    sources at hand.  They are the operations of the Registry of the spec,
    an ordered collection, and are modelled on the list of nodes as their
    names in the calls of lv_anim.c say. *)

(** Modelled from the spec: [_lv_ll_get_head] (lv_ll.c) gives the first
    node of the collection, [NULL] when it is empty. *)
Definition _lv_ll_get_head (l : list node) : option nat :=
  match l with
  | [] => None
  | n :: _ => Some (addr n)
  end.

(** Modelled from the spec: [_lv_ll_get_next] (lv_ll.c) gives the node
    linked after the node at [p], [NULL] after the last one. *)
Fixpoint _lv_ll_get_next (l : list node) (p : nat) : option nat :=
  match l with
  | [] => None
  | n :: rest =>
      if Nat.eqb (addr n) p then _lv_ll_get_head rest else _lv_ll_get_next rest p
  end.

(** Modelled from the spec: [_lv_ll_is_empty] (lv_ll.c) tells whether the
    collection has no node. *)
Definition _lv_ll_is_empty (l : list node) : bool :=
  match l with
  | [] => true
  | _ => false
  end.

(** Modelled from the spec: [_lv_ll_remove] (lv_ll.c) unlinks the node at
    [p]; the Registry's remove. *)
Definition _lv_ll_remove (l : list node) (p : nat) : list node :=
  filter (fun n => negb (Nat.eqb (addr n) p)) l.

(** Modelled from the spec: [_lv_ll_clear] (lv_ll.c) unlinks and frees all
    nodes; the Registry's clear. *)
Definition _lv_ll_clear (l : list node) : list node := [].

(** Modelled from the spec: [_lv_ll_ins_head] (lv_ll.c) is the Registry's
    insert: it allocates a node and links it in as the new head, or returns
    [NULL] when the allocation fails.  The new node holds [content], the
    bytes the caller copies into it right after the allocation; its address
    is one the allocator has not handed out before. *)
Definition _lv_ll_ins_head (content : lv_anim_t) (st : anim_state)
  : option nat * anim_state :=
  match heap_plan st with
  | false :: plan => (None, set_heap (heap_next st) plan st)
  | plan =>
      let p := heap_next st in
      (Some p,
       set_heap (S p) (tl plan) (set_ll (mk_node p content :: _lv_anim_ll st) st))
  end.

(** Dereferencing a node pointer: [None] when no node lives at [p]. *)
Fixpoint ll_deref (l : list node) (p : nat) : option lv_anim_t :=
  match l with
  | [] => None
  | n :: rest => if Nat.eqb (addr n) p then Some (anim n) else ll_deref rest p
  end.

(** Writing through a node pointer. *)
Fixpoint ll_store (l : list node) (p : nat) (a : lv_anim_t) : list node :=
  match l with
  | [] => []
  | n :: rest =>
      if Nat.eqb (addr n) p then mk_node p a :: rest
      else n :: ll_store rest p a
  end.

(* ------------------------------------------------------------------ *)
(** *** The public API *)

(** Modelled from the spec: [lv_timer_pause] belongs to lv_timer.c, which is
    not part of the sources at hand; it sets the paused flag of the timer
    that calls [anim_timer], the "membership changed" signal of the spec. *)
Definition lv_timer_pause (pause : bool) (st : anim_state) : anim_state :=
  set_tmr_paused pause st.

Definition anim_mark_list_change (st : anim_state) : anim_state :=
  let st := set_anim_list_changed true st in
  match _lv_ll_get_head (_lv_anim_ll st) with
  | None => lv_timer_pause true st
  | Some _ => lv_timer_pause false st
  end.

(** [_lv_anim_core_init], with the statics zeroed as C does: an empty
    registry and the timer paused by [anim_mark_list_change].  [now] and
    [plan] set up the tick clock and the allocator. *)
Definition _lv_anim_core_init (now : Z) (plan : list bool) : anim_state :=
  let st := mk_state [] 0 false false false now 0%nat plan [] in
  set_anim_list_changed false (anim_mark_list_change st).

(** [a->var == var && (a->exec_cb == exec_cb || exec_cb == NULL)] *)
Definition del_match (v : ptr) (cb : fnptr) (a : lv_anim_t) : bool :=
  (var a =? v) && ((exec_cb a =? cb) || (cb =? NULL)).

(** The loop of [lv_anim_del].  [a_next] is read before [a] is removed, so
    the loop walks the nodes that were linked when it started. *)
Fixpoint lv_anim_del_loop (todo : list node) (v : ptr) (cb : fnptr)
    (del : bool) (st : anim_state) : bool * anim_state :=
  match todo with
  | [] => (del, st)
  | n :: a_next =>
      if del_match v cb (anim n) then
        let st := set_ll (_lv_ll_remove (_lv_anim_ll st) (addr n)) st in
        let st := anim_mark_list_change st in
        lv_anim_del_loop a_next v cb true st
      else lv_anim_del_loop a_next v cb del st
  end.

Definition lv_anim_del (v : ptr) (cb : fnptr) (st : anim_state)
  : bool * anim_state :=
  lv_anim_del_loop (_lv_anim_ll st) v cb false st.

Definition lv_anim_del_all (st : anim_state) : anim_state :=
  anim_mark_list_change (set_ll (_lv_ll_clear (_lv_anim_ll st)) st).

(** [_LV_LL_READ] walks from the head along [_lv_ll_get_next]. *)
Fixpoint lv_anim_get_loop (l : list node) (v : ptr) (cb : fnptr) : option node :=
  match l with
  | [] => None
  | n :: rest =>
      if (var (anim n) =? v) && (exec_cb (anim n) =? cb) then Some n
      else lv_anim_get_loop rest v cb
  end.

Definition lv_anim_get (v : ptr) (cb : fnptr) (st : anim_state) : option node :=
  lv_anim_get_loop (_lv_anim_ll st) v cb.

Fixpoint lv_anim_count_loop (l : list node) (cnt : Z) : Z :=
  match l with
  | [] => cnt
  | _ :: rest => lv_anim_count_loop rest (uint16_t (cnt + 1))
  end.

Definition lv_anim_count_running (st : anim_state) : Z :=
  lv_anim_count_loop (_lv_anim_ll st) 0.

(** The order in which [_LV_LL_READ] and the loop of [anim_timer] meet the
    nodes: from [_lv_ll_get_head] along [_lv_ll_get_next]. *)
Fixpoint ll_walk (fuel : nat) (l : list node) (p : option nat) : list nat :=
  match fuel, p with
  | S fuel, Some q => q :: ll_walk fuel l (_lv_ll_get_next l q)
  | _, _ => []
  end.

Definition ll_iterate (st : anim_state) : list nat :=
  ll_walk (length (_lv_anim_ll st)) (_lv_anim_ll st)
    (_lv_ll_get_head (_lv_anim_ll st)).

(** How a run of the frame loop ends: it returns, it follows a pointer to a
    node that is no longer linked, or the bound on the loop's iterations that
    the embedding needs is used up. *)
Inductive outcome : Type :=
| Done (st : anim_state)
| Dangling
| OutOfFuel.

Section Scheduler.

Variable cbs : callbacks.

(** The relative-mode offset: both ends of the range are moved by what
    [get_value_cb] returned. *)
Definition offset_record (a : lv_anim_t) (tr : list event) : lv_anim_t :=
  let v_ofs := int32_t (get_value_body cbs (get_value_cb a) (var a) tr) in
  let a := set_start_value (int32_t (start_value a + v_ofs)) a in
  set_end_value (int32_t (end_value a + v_ofs)) a.

(** The call of [get_value_cb] and the two additions that follow it. *)
Definition apply_value_offset (a : lv_anim_t) (st : anim_state)
  : lv_anim_t * anim_state :=
  (offset_record a (trace st),
   emit (ev_get_value (get_value_cb a) (var a)) st).

(** The head of [lv_anim_start]: the animations of the same pair are
    deleted unless [exec_cb] is [NULL], and an empty list restarts the
    timer's measure. *)
Definition start_cleared (a : lv_anim_t) (st : anim_state) : anim_state :=
  let st := if exec_cb a =? NULL then st
            else snd (lv_anim_del (var a) (exec_cb a) st) in
  if _lv_ll_is_empty (_lv_anim_ll st)
  then set_last_timer_run (lv_tick_get st) st else st.

(** The tail of [lv_anim_start], "Set the start value", on the record of the
    new node. *)
Definition start_early_apply (new_anim : lv_anim_t) (st : anim_state)
  : lv_anim_t * anim_state :=
  if early_apply new_anim then
    let '(new_anim, st) :=
      if get_value_cb new_anim =? NULL then (new_anim, st)
      else apply_value_offset new_anim st in
    (new_anim,
     if negb (exec_cb new_anim =? NULL) && negb (var new_anim =? NULL)
     then emit (ev_exec (exec_cb new_anim) (var new_anim)
                        (start_value new_anim)) st
     else st)
  else (new_anim, st).

(** [lv_anim_start].  [LV_ASSERT_MALLOC] is compiled out unless the build
    enables it. *)
Definition lv_anim_start (a : lv_anim_t) (st : anim_state) : anim_state :=
  let st := start_cleared a st in
  let a := set_run_round (anim_run_round st)
             (set_time_orig (uint32_t (time a)) a) in
  match _lv_ll_ins_head a st with
  | (None, st) => st
  | (Some p, st) =>
      let '(new_anim, st) := start_early_apply a st in
      anim_mark_list_change (set_ll (ll_store (_lv_anim_ll st) p new_anim) st)
  end.

(** The API calls a callback makes, one after the other. *)
Fixpoint run_api (calls : list api_call) (st : anim_state) : anim_state :=
  match calls with
  | [] => st
  | call_start a :: rest => run_api rest (lv_anim_start a st)
  | call_del v cb :: rest => run_api rest (snd (lv_anim_del v cb st))
  | call_del_all :: rest => run_api rest (lv_anim_del_all st)
  end.

(** [a_tmp.ready_cb(&a_tmp)] *)
Definition call_ready_cb (a_tmp : lv_anim_t) (st : anim_state) : anim_state :=
  run_api (ready_body cbs (ready_cb a_tmp) a_tmp)
          (emit (ev_ready (ready_cb a_tmp) a_tmp) st).

(** The first statement of [anim_ready_handler]. *)
Definition ready_decrement (a : lv_anim_t) : lv_anim_t :=
  if negb (playback_now a) && (repeat_cnt a >? 0)
     && negb (repeat_cnt a =? LV_ANIM_REPEAT_INFINITE)
  then set_repeat_cnt (uint16_t (repeat_cnt a - 1)) a
  else a.

(** The condition of the delete branch. *)
Definition ready_terminal (a : lv_anim_t) : bool :=
  (repeat_cnt a =? 0)
  && ((playback_time a =? 0)
      || (negb (playback_time a =? 0) && playback_now a)).

(** The else branch of [anim_ready_handler]: the restart. *)
Definition ready_restart (a : lv_anim_t) : lv_anim_t :=
  let a := set_act_time (int32_t (- int32_t (repeat_delay a))) a in
  if playback_time a =? 0 then a
  else
    let a := if negb (playback_now a)
             then set_act_time (int32_t (- int32_t (playback_delay a))) a
             else a in
    let a := set_playback_now (negb (playback_now a)) a in
    let tmp := start_value a in
    let a := set_start_value (end_value a) a in
    let a := set_end_value tmp a in
    set_time (if negb (playback_now a) then int32_t (time_orig a)
              else int32_t (playback_time a)) a.

(** [anim_ready_handler], given the pointer [p] to the node. *)
Definition anim_ready_handler (p : nat) (st : anim_state) : option anim_state :=
  match ll_deref (_lv_anim_ll st) p with
  | None => None
  | Some a =>
      let a := ready_decrement a in
      if ready_terminal a then
        let a_tmp := a in
        let st := set_ll (_lv_ll_remove (_lv_anim_ll st) p) st in
        let st := anim_mark_list_change st in
        Some (if ready_cb a_tmp =? NULL then st else call_ready_cb a_tmp st)
      else
        Some (set_ll (ll_store (_lv_anim_ll st) p (ready_restart a)) st)
  end.

(** [a->path.cb(&a->path, a)], and [lv_anim_path_linear] without a [cb]. *)
Definition path_call (a : lv_anim_t) : Z :=
  match path_cb a with
  | path_NULL => lv_anim_path_linear a
  | path_linear => lv_anim_path_linear a
  | path_ease_in => lv_anim_path_ease_in a
  | path_ease_out => lv_anim_path_ease_out a
  | path_ease_in_out => lv_anim_path_ease_in_out a
  | path_overshoot => lv_anim_path_overshoot a
  | path_bounce => lv_anim_path_bounce a
  | path_step => lv_anim_path_step a
  | path_user f => int32_t (user_path_body cbs f a)
  end.

(** The first real tick: the offset of a record without early apply, then
    [start_cb]. *)
Definition round_first_tick (elaps : Z) (a : lv_anim_t) (st : anim_state)
  : lv_anim_t * anim_state :=
  let new_act_time := int32_t (uint32_t (act_time a + elaps)) in
  if (act_time a <=? 0) && (new_act_time >=? 0) then
    let '(a, st) :=
      if negb (early_apply a) && negb (get_value_cb a =? NULL)
      then apply_value_offset a st else (a, st) in
    (a, if start_cb a =? NULL then st else emit (ev_start (start_cb a) a) st)
  else (a, st).

(** The value of the path function is applied when it differs from
    [current_value]. *)
Definition round_apply (a : lv_anim_t) (st : anim_state)
  : lv_anim_t * anim_state :=
  let new_value := path_call a in
  if negb (new_value =? current_value a) then
    (set_current_value new_value a,
     if exec_cb a =? NULL then st
     else emit (ev_exec (exec_cb a) (var a) new_value) st)
  else (a, st).

(** The head of the body of [if(a->run_round != anim_run_round)] in
    [anim_timer], on the record [a] of the node at [p]: the mark, the first
    real tick, and [a->act_time += elaps]. *)
Definition round_tick (elaps : Z) (p : nat) (a : lv_anim_t)
    (st : anim_state) : lv_anim_t * anim_state :=
  let a := set_run_round (anim_run_round st) a in
  let st := emit (ev_round p) st in
  let '(a, st) := round_first_tick elaps a st in
  (set_act_time (int32_t (uint32_t (act_time a + elaps))) a, st).

(** [if(a->act_time > a->time) a->act_time = a->time;] *)
Definition round_clamp (a : lv_anim_t) : lv_anim_t :=
  if act_time a >? time a then set_act_time (time a) a else a.

(** The body up to the test for the ready handler: the record it leaves,
    the state with the calls it made, and whether the time has elapsed
    ([a->act_time >= a->time], reached only with a non-negative
    [act_time]). *)
Definition round_advance (elaps : Z) (p : nat) (a : lv_anim_t)
    (st : anim_state) : lv_anim_t * anim_state * bool :=
  let '(a, st) := round_tick elaps p a st in
  if act_time a >=? 0 then
    let '(a, st) := round_apply (round_clamp a) st in
    (a, st, act_time a >=? time a)
  else (a, st, false).

(** The whole body: the record is written to its node, then the ready
    handler takes the pointer when the time has elapsed. *)
Definition anim_timer_round (elaps : Z) (p : nat) (a : lv_anim_t)
    (st : anim_state) : option anim_state :=
  let '(a, st, ready) := round_advance elaps p a st in
  let st := set_ll (ll_store (_lv_anim_ll st) p a) st in
  if ready then anim_ready_handler p st else Some st.

(** The [while(a != NULL)] loop of [anim_timer]; [fuel] bounds the number of
    iterations. *)
Fixpoint anim_timer_loop (elaps : Z) (fuel : nat) (a : option nat)
    (st : anim_state) : outcome :=
  match a with
  | None => Done st
  | Some p =>
      match fuel with
      | O => OutOfFuel
      | S fuel =>
          match ll_deref (_lv_anim_ll st) p with
          | None => Dangling
          | Some r =>
              let st := set_anim_list_changed false st in
              let res :=
                if xorb (run_round r) (anim_run_round st)
                then anim_timer_round elaps p r st
                else Some st in
              match res with
              | None => Dangling
              | Some st =>
                  if anim_list_changed st then
                    anim_timer_loop elaps fuel
                      (_lv_ll_get_head (_lv_anim_ll st)) st
                  else
                    match ll_deref (_lv_anim_ll st) p with
                    | None => Dangling
                    | Some _ =>
                        anim_timer_loop elaps fuel
                          (_lv_ll_get_next (_lv_anim_ll st) p) st
                    end
              end
          end
      end
  end.

(** [anim_timer]: one frame. *)
Definition anim_timer (fuel : nat) (st : anim_state) : outcome :=
  let elaps := lv_tick_elaps (last_timer_run st) st in
  let st := set_anim_run_round (negb (anim_run_round st)) st in
  match anim_timer_loop elaps fuel (_lv_ll_get_head (_lv_anim_ll st)) st with
  | Done st => Done (set_last_timer_run (lv_tick_get st) st)
  | o => o
  end.

(** [lv_anim_refr_now] *)
Definition lv_anim_refr_now (fuel : nat) (st : anim_state) : outcome :=
  anim_timer fuel st.

End Scheduler.

(* ================================================================== *)
(** ** Callbacks that call back into the registry *)
(* ================================================================== *)

(** [anim_timer] calls [get_value_cb], [start_cb], the path function and
    [exec_cb] while it holds the pointer [a] to the node, and goes on to
    read and write [*a] after each of them.  What such a callback does to
    the registry is the list of API calls it makes. *)
Record reentry : Type := mk_reentry {
  get_value_calls : fnptr -> ptr -> list api_call;
  start_calls : fnptr -> lv_anim_t -> list api_call;
  path_calls : fnptr -> lv_anim_t -> list api_call;
  exec_calls : fnptr -> ptr -> Z -> list api_call
}.

(** Callbacks that leave the registry alone. *)
Definition quiet_reentry : reentry :=
  mk_reentry (fun _ _ => []) (fun _ _ => []) (fun _ _ => []) (fun _ _ _ => []).

(** A node lives at [p]. *)
Definition linked (p : nat) (st : anim_state) : bool :=
  match ll_deref (_lv_anim_ll st) p with
  | Some _ => true
  | None => false
  end.

(** The frame loop of [Scheduler] once more, with the API calls of the
    four callbacks carried out where the callbacks are called.  The record
    of the node is held in hand during the round and written to the node at
    its end, as in [Scheduler]; where the C code uses [a] after a callback,
    the node has to be linked still, and there is no result when it is
    not.  The API calls run as in [Scheduler]: a callback called from within
    them is recorded. *)
Module Reentrant.

Section Scheduler.

Variable cbs : callbacks.
Variable rc : reentry.

(** The callback has returned and the loop uses [a] again. *)
Definition called (calls : list api_call) (p : nat) (st : anim_state)
  : option anim_state :=
  let st := run_api cbs calls st in
  if linked p st then Some st else None.

(** [if(a->act_time <= 0 && new_act_time >= 0)] and its body. *)
Definition round_first_tick (elaps : Z) (p : nat) (a : lv_anim_t)
    (st : anim_state) : option (lv_anim_t * anim_state) :=
  let new_act_time := int32_t (uint32_t (act_time a + elaps)) in
  if (act_time a <=? 0) && (new_act_time >=? 0) then
    let offset :=
      if negb (early_apply a) && negb (get_value_cb a =? NULL) then
        let '(a1, st) := apply_value_offset cbs a st in
        match called (get_value_calls rc (get_value_cb a) (var a)) p st with
        | None => None
        | Some st => Some (a1, st)
        end
      else Some (a, st) in
    match offset with
    | None => None
    | Some (a, st) =>
        if start_cb a =? NULL then Some (a, st)
        else
          match called (start_calls rc (start_cb a) a) p
                  (emit (ev_start (start_cb a) a) st) with
          | None => None
          | Some st => Some (a, st)
          end
    end
  else Some (a, st).

(** The path function, then [if(new_value != a->current_value)] and its
    body.  Only a path function of the user can make calls. *)
Definition round_apply (p : nat) (a : lv_anim_t) (st : anim_state)
  : option (lv_anim_t * anim_state) :=
  let new_value := path_call cbs a in
  let after_path :=
    match path_cb a with
    | path_user f => called (path_calls rc f a) p st
    | _ => Some st
    end in
  match after_path with
  | None => None
  | Some st =>
      if negb (new_value =? current_value a) then
        let a := set_current_value new_value a in
        if exec_cb a =? NULL then Some (a, st)
        else
          match called (exec_calls rc (exec_cb a) (var a) new_value) p
                  (emit (ev_exec (exec_cb a) (var a) new_value) st) with
          | None => None
          | Some st => Some (a, st)
          end
      else Some (a, st)
  end.

Definition round_tick (elaps : Z) (p : nat) (a : lv_anim_t)
    (st : anim_state) : option (lv_anim_t * anim_state) :=
  let a := set_run_round (anim_run_round st) a in
  let st := emit (ev_round p) st in
  match round_first_tick elaps p a st with
  | None => None
  | Some (a, st) =>
      Some (set_act_time (int32_t (uint32_t (act_time a + elaps))) a, st)
  end.

Definition round_advance (elaps : Z) (p : nat) (a : lv_anim_t)
    (st : anim_state) : option (lv_anim_t * anim_state * bool) :=
  match round_tick elaps p a st with
  | None => None
  | Some (a, st) =>
      if act_time a >=? 0 then
        match round_apply p (round_clamp a) st with
        | None => None
        | Some (a, st) => Some (a, st, act_time a >=? time a)
        end
      else Some (a, st, false)
  end.

Definition anim_timer_round (elaps : Z) (p : nat) (a : lv_anim_t)
    (st : anim_state) : option anim_state :=
  match round_advance elaps p a st with
  | None => None
  | Some (a, st, ready) =>
      let st := set_ll (ll_store (_lv_anim_ll st) p a) st in
      if ready then anim_ready_handler cbs p st else Some st
  end.

Fixpoint anim_timer_loop (elaps : Z) (fuel : nat) (a : option nat)
    (st : anim_state) : outcome :=
  match a with
  | None => Done st
  | Some p =>
      match fuel with
      | O => OutOfFuel
      | S fuel =>
          match ll_deref (_lv_anim_ll st) p with
          | None => Dangling
          | Some r =>
              let st := set_anim_list_changed false st in
              let res :=
                if xorb (run_round r) (anim_run_round st)
                then anim_timer_round elaps p r st
                else Some st in
              match res with
              | None => Dangling
              | Some st =>
                  if anim_list_changed st then
                    anim_timer_loop elaps fuel
                      (_lv_ll_get_head (_lv_anim_ll st)) st
                  else
                    match ll_deref (_lv_anim_ll st) p with
                    | None => Dangling
                    | Some _ =>
                        anim_timer_loop elaps fuel
                          (_lv_ll_get_next (_lv_anim_ll st) p) st
                    end
              end
          end
      end
  end.

Definition anim_timer (fuel : nat) (st : anim_state) : outcome :=
  let elaps := lv_tick_elaps (last_timer_run st) st in
  let st := set_anim_run_round (negb (anim_run_round st)) st in
  match anim_timer_loop elaps fuel (_lv_ll_get_head (_lv_anim_ll st)) st with
  | Done st => Done (set_last_timer_run (lv_tick_get st) st)
  | o => o
  end.

End Scheduler.

End Reentrant.

(* ================================================================== *)
(** ** Vocabulary of the statements *)
(* ================================================================== *)

(** The range [end_value - start_value] times the resolution 1024 fits
    [int32_t]. *)
Definition range_fits (a : lv_anim_t) : Prop :=
  -2097152 <= end_value a - start_value a < 2097152.

(** Two records with the same time window and the same range. *)
Definition same_window (a b : lv_anim_t) : Prop :=
  act_time a = act_time b /\ time a = time b /\
  start_value a = start_value b /\ end_value a = end_value b.

(** The time the speed asks for, in unbounded integers. *)
Definition speed_to_time_spec (speed start end_ : Z) : Z :=
  let t := (Z.abs (start - end_) * 1000) / speed in
  if t =? 0 then 1 else t.

(** The nodes of the registry live at different addresses, all of them
    below the next address the allocator hands out. *)
Definition heap_ok (st : anim_state) : Prop :=
  NoDup (map addr (_lv_anim_ll st)) /\
  forall n, In n (_lv_anim_ll st) -> (addr n < heap_next st)%nat.

(** A node is dropped by the loop of [lv_anim_del] when a node of [todo]
    with its address matches. *)
Definition del_hits (todo : list node) (v : ptr) (cb : fnptr) (n : node) : bool :=
  existsb (fun m => Nat.eqb (addr n) (addr m) && del_match v cb (anim m)) todo.

(** [b] has the [(var, exec_cb)] pair of [a]. *)
Definition same_pair (a b : lv_anim_t) : bool :=
  (var b =? var a) && (exec_cb b =? exec_cb a).

(** The live records of the pair [(v, cb)]. *)
Definition live_for (v : ptr) (cb : fnptr) (st : anim_state) : list node :=
  filter (fun n => (var (anim n) =? v) && (exec_cb (anim n) =? cb))
         (_lv_anim_ll st).

(** The coming allocation does not fail. *)
Definition next_alloc_ok (st : anim_state) : bool :=
  match heap_plan st with
  | false :: _ => false
  | _ => true
  end.

(** The nodes [lv_anim_start] leaves in place before it links the new one:
    all of them for a [NULL] [exec_cb], the ones of other pairs otherwise. *)
Definition start_keeps (a : lv_anim_t) (st : anim_state) : list node :=
  if exec_cb a =? NULL then _lv_anim_ll st
  else filter (fun n => negb (same_pair a (anim n))) (_lv_anim_ll st).

(** The record [lv_anim_start] copies into the new node, and the record the
    node holds when the early apply is over. *)
Definition start_copy (a : lv_anim_t) (st : anim_state) : lv_anim_t :=
  set_run_round (anim_run_round st) (set_time_orig (uint32_t (time a)) a).

Definition start_stored (cbs : callbacks) (a : lv_anim_t) (st : anim_state)
  : lv_anim_t :=
  let a' := start_copy a st in
  if early_apply a' && negb (get_value_cb a' =? NULL)
  then offset_record cbs a' (trace st) else a'.

(** The calls through function pointers [lv_anim_start] makes. *)
Definition start_events (cbs : callbacks) (a : lv_anim_t) (st : anim_state)
  : list event :=
  let na := start_stored cbs a st in
  if early_apply a then
    (if get_value_cb a =? NULL then []
     else [ev_get_value (get_value_cb a) (var a)])
    ++ (if negb (exec_cb a =? NULL) && negb (var a =? NULL)
        then [ev_exec (exec_cb a) (var a) (start_value na)] else [])
  else [].

(** The nodes the frame loop has marked, in the order of the marking. *)
Definition rounds (tr : list event) : list nat :=
  flat_map (fun e => match e with ev_round p => [p] | _ => [] end) tr.

(** The calls of ready callbacks in a trace. *)
Definition readies (tr : list event) : list (fnptr * lv_anim_t) :=
  flat_map (fun e => match e with ev_ready cb a => [(cb, a)] | _ => [] end) tr.

(** The node has not run in the round of [st]. *)
Definition unprocessed (st : anim_state) (n : node) : bool :=
  xorb (run_round (anim n)) (anim_run_round st).

(** The addresses of the nodes that have not run in the round of [st]. *)
Definition pending (st : anim_state) : list nat :=
  map addr (filter (unprocessed st) (_lv_anim_ll st)).

(** The registry between two frames: a well-formed heap, and every record
    carries the parity of the last round. *)
Definition registry_ok (st : anim_state) : Prop :=
  heap_ok st /\ forall n, In n (_lv_anim_ll st) -> unprocessed st n = false.

(** The events a frame added to the trace [tr0] it started from. *)
Definition frame_events (tr0 : list event) (st : anim_state) : list event :=
  skipn (length tr0) (trace st).

(** The delays and durations of the record are values of [int32_t] too,
    so that the casts of the ready handler keep them (a delay of exactly 2^31
    negates to itself). *)
Definition timing_fits (a : lv_anim_t) : Prop :=
  repeat_delay a <= 2147483648 /\ playback_delay a <= 2147483648 /\
  playback_time a < 2147483648 /\ time_orig a < 2147483648.

(** What a sequence of API calls may do to the state [st]: it appends calls
    of [exec_cb] and [get_value_cb] to the trace, keeps the parity of the
    round and a raised [anim_list_changed], and leaves a well-formed heap in
    which every node is an old node or a new node, at a fresh address, that
    carries the parity of the round. *)
Definition api_step (st st' : anim_state) : Prop :=
  heap_ok st ->
  heap_ok st' /\
  anim_run_round st' = anim_run_round st /\
  (heap_next st <= heap_next st')%nat /\
  (exists evs, trace st' = trace st ++ evs /\
               rounds evs = [] /\ readies evs = []) /\
  (anim_list_changed st = true -> anim_list_changed st' = true) /\
  (forall n, In n (_lv_anim_ll st') ->
     In n (_lv_anim_ll st) \/
     ((heap_next st <= addr n)%nat /\ unprocessed st' n = false)).

(** Several calls through function pointers, appended to the trace. *)
Definition emit_all (evs : list event) (st : anim_state) : anim_state :=
  mk_state (_lv_anim_ll st) (last_timer_run st) (anim_list_changed st)
    (anim_run_round st) (tmr_paused st) (tick st) (heap_next st) (heap_plan st)
    (trace st ++ evs).

(** The calls of [exec_cb] in a trace. *)
Definition execs (tr : list event) : list (fnptr * ptr * Z) :=
  flat_map (fun e => match e with ev_exec cb v x => [(cb, v, x)] | _ => [] end)
           tr.

(** [b] is [a] up to the fields a round of the frame loop writes: the range,
    the current value, the elapsed time and the parity. *)
Definition same_schedule (a b : lv_anim_t) : Prop :=
  var b = var a /\ exec_cb b = exec_cb a /\ start_cb b = start_cb a /\
  ready_cb b = ready_cb a /\ get_value_cb b = get_value_cb a /\
  path_cb b = path_cb a /\ time b = time a /\
  playback_delay b = playback_delay a /\ playback_time b = playback_time a /\
  repeat_delay b = repeat_delay a /\ repeat_cnt b = repeat_cnt a /\
  early_apply b = early_apply a /\ playback_now b = playback_now a /\
  time_orig b = time_orig a.

(** The elapsed time of the record after [a->act_time += elaps]. *)
Definition advanced_time (elaps : Z) (a : lv_anim_t) : Z :=
  int32_t (uint32_t (act_time a + elaps)).

(** The two predicates on the registry, as tests. *)
Fixpoint distinct (l : list nat) : bool :=
  match l with
  | [] => true
  | x :: rest => negb (existsb (Nat.eqb x) rest) && distinct rest
  end.

Definition heap_okb (st : anim_state) : bool :=
  distinct (map addr (_lv_anim_ll st))
  && forallb (fun n => Nat.ltb (addr n) (heap_next st)) (_lv_anim_ll st).

Definition registry_okb (st : anim_state) : bool :=
  heap_okb st && forallb (fun n => negb (unprocessed st n)) (_lv_anim_ll st).

(** [path.cb] is [NULL] or one of the path functions of lv_anim.c. *)
Definition builtin_path (a : lv_anim_t) : Prop :=
  forall f, path_cb a <> path_user f.

(** The call of [get_value_cb] the early apply makes. *)
Definition early_events (c : lv_anim_t) : list event :=
  if early_apply c then
    (if get_value_cb c =? NULL then []
     else [ev_get_value (get_value_cb c) (var c)])
  else [].

(** What a round, or the ready handler in it, leaves of the registry it
    found: the node [p], now with the parity of the round; other nodes as
    they were; new nodes, at fresh addresses, with the parity of the
    round. *)
Definition round_nodes (p : nat) (st st' : anim_state) : Prop :=
  forall n, In n (_lv_anim_ll st') ->
    (addr n = p /\ unprocessed st' n = false) \/
    (In n (_lv_anim_ll st) /\ addr n <> p) \/
    ((heap_next st <= addr n)%nat /\ unprocessed st' n = false).

(** The invariant of the loop of [anim_timer], at the test of the loop with
    the cursor on the first node of [suf]: the nodes of [pre], before the
    cursor, have run; the frame started from the trace [tr0] and the next
    address [h0]; a node that was marked in this frame is not pending; an old
    node that has run was marked; a pending node is an old node. *)
Definition loop_inv (tr0 : list event) (h0 : nat) (rr : bool)
    (st : anim_state) (pre suf : list node) : Prop :=
  heap_ok st /\ anim_run_round st = rr /\ (h0 <= heap_next st)%nat /\
  _lv_anim_ll st = pre ++ suf /\
  (forall n, In n pre -> unprocessed st n = false) /\
  (forall n, In n (_lv_anim_ll st) -> unprocessed st n = true ->
             (addr n < h0)%nat) /\
  exists evs,
    trace st = tr0 ++ evs /\ NoDup (rounds evs) /\
    (forall q, In q (rounds evs) -> (q < h0)%nat /\ ~ In q (pending st)) /\
    (forall n, In n (_lv_anim_ll st) -> (addr n < h0)%nat ->
               unprocessed st n = false -> In (addr n) (rounds evs)).

(** What the loop has established when it ends. *)
Definition loop_post (tr0 : list event) (h0 : nat) (rr : bool)
    (st : anim_state) : Prop :=
  heap_ok st /\ anim_run_round st = rr /\ (h0 <= heap_next st)%nat /\
  (forall n, In n (_lv_anim_ll st) -> unprocessed st n = false) /\
  exists evs,
    trace st = tr0 ++ evs /\ NoDup (rounds evs) /\
    (forall q, In q (rounds evs) -> (q < h0)%nat) /\
    (forall n, In n (_lv_anim_ll st) -> (addr n < h0)%nat ->
               In (addr n) (rounds evs)).

(** The tick clock moves on to [now]. *)
Definition set_tick (now : Z) (st : anim_state) : anim_state :=
  mk_state (_lv_anim_ll st) (last_timer_run st) (anim_list_changed st)
    (anim_run_round st) (tmr_paused st) now (heap_next st) (heap_plan st)
    (trace st).

(** The states the scheduler is in between two frames: after the
    initialisation, after API calls, after the clock or the allocator moved
    on, and after a frame that returned. *)
Inductive reachable (cbs : callbacks) : anim_state -> Prop :=
| reach_init : forall now plan, reachable cbs (_lv_anim_core_init now plan)
| reach_api : forall st calls,
    reachable cbs st -> reachable cbs (run_api cbs calls st)
| reach_tick : forall st now,
    reachable cbs st -> reachable cbs (set_tick now st)
| reach_heap : forall st plan,
    reachable cbs st -> reachable cbs (set_heap (heap_next st) plan st)
| reach_frame : forall st fuel st',
    reachable cbs st -> anim_timer cbs fuel st = Done st' -> reachable cbs st'.

(* ================================================================== *)
(** ** Inputs used by the examples *)
(* ================================================================== *)

(** Callbacks that do nothing: no offset, no user path, no API call. *)
Definition quiet_callbacks : callbacks :=
  mk_callbacks (fun _ _ _ => 0) (fun _ _ => 0) (fun _ _ => []).

(** The default descriptor at the end of its time window. *)
Definition anim_at_end : lv_anim_t := set_act_time 500 lv_anim_init.

(** A descriptor whose range is 2^21, at the end of its time window. *)
Definition anim_wide : lv_anim_t :=
  set_act_time 500 (set_end_value 2097152 lv_anim_init).

(** A descriptor for the target [v] and the apply function [cb]. *)
Definition anim_for (v : ptr) (cb : fnptr) : lv_anim_t :=
  mk_anim v cb NULL NULL NULL path_linear 0 0 100 500 0 0 0 0 1
          true false false 0.

(** The state a finished frame returned, the given state otherwise. *)
Definition frame_result (o : outcome) (otherwise : anim_state) : anim_state :=
  match o with
  | Done st => st
  | _ => otherwise
  end.

(** The registry after one animation of the pair (1, 7) was started. *)
Definition st_one : anim_state :=
  lv_anim_start quiet_callbacks (anim_for 1 7) (_lv_anim_core_init 0 []).

(** The same, with an allocator whose second allocation fails. *)
Definition st_one_full : anim_state :=
  lv_anim_start quiet_callbacks (anim_for 1 7)
    (_lv_anim_core_init 0 [true; false]).

(** Two animations started one after the other: (1, 7), then (2, 7). *)
Definition st_two : anim_state :=
  lv_anim_start quiet_callbacks (anim_for 2 7) st_one.

(** A descriptor with a reverse leg of 300 after a pause of 20, two
    repetitions 10 apart, started on an empty registry. *)
Definition anim_playback : lv_anim_t :=
  mk_anim 1 7 NULL NULL NULL path_linear 0 0 100 500 0 20 300 10 2
          true false false 0.

Definition st_playback : anim_state :=
  lv_anim_start quiet_callbacks anim_playback (_lv_anim_core_init 0 []).

(** A record with playback whose repeat count is 0 at the end of its
    forward leg. *)
Definition anim_no_repeat : lv_anim_t :=
  mk_anim 1 7 NULL NULL NULL path_linear 0 100 100 500 500 20 300 10 0
          true false false 500.

(** The ready callback 101 cancels the animations of the target 2, 102
    cancels those of the target 3 and starts one for the target 9, 103
    cancels those of the target 1. *)
Definition stress_callbacks : callbacks :=
  mk_callbacks (fun _ _ _ => 0) (fun _ _ => 0)
    (fun cb _ =>
       if cb =? 101 then [call_del 2 7]
       else if cb =? 102 then [call_del 3 7; call_start (anim_for 9 7)]
       else if cb =? 103 then [call_del 1 7]
       else []).

(** A descriptor for the target [v] with the ready callback [rcb] and a
    start delay [delay]. *)
Definition anim_ready_for (v : ptr) (rcb : fnptr) (delay : Z) : lv_anim_t :=
  mk_anim v 7 NULL rcb NULL path_linear 0 0 100 500 (- delay) 0 0 0 1
          true false false 0.

(** Four animations started at tick 0: the targets 1, 2 and 3 end within
    600 ticks, the target 4 waits for 1000 ticks first.  The clock is then
    at 600. *)
Definition st_stress : anim_state :=
  set_tick 600
    (lv_anim_start stress_callbacks (anim_ready_for 3 103 0)
       (lv_anim_start stress_callbacks (anim_ready_for 4 NULL 1000)
          (lv_anim_start stress_callbacks (anim_ready_for 2 102 0)
             (lv_anim_start stress_callbacks (anim_ready_for 1 101 0)
                (_lv_anim_core_init 0 []))))).

(** A descriptor of duration zero from 100 down to 0, started on an empty
    registry; and one from 0 up to 100. *)
Definition anim_zero_down : lv_anim_t :=
  mk_anim 1 7 NULL NULL NULL path_linear 100 0 0 0 0 0 0 0 1
          true false false 0.

Definition anim_zero_up : lv_anim_t :=
  mk_anim 1 7 NULL NULL NULL path_linear 0 0 100 0 0 0 0 0 1
          true false false 0.

Definition st_zero_down : anim_state :=
  lv_anim_start quiet_callbacks anim_zero_down (_lv_anim_core_init 0 []).

Definition st_zero_up : anim_state :=
  lv_anim_start quiet_callbacks anim_zero_up (_lv_anim_core_init 0 []).

(** A descriptor from 30 to 100, started on an empty registry. *)
Definition anim_from_30 : lv_anim_t :=
  mk_anim 1 7 NULL NULL NULL path_linear 30 0 100 500 0 0 0 0 1
          true false false 0.

Definition st_from_30 : anim_state :=
  lv_anim_start quiet_callbacks anim_from_30 (_lv_anim_core_init 0 []).

(** One animation with the ready callback 101. *)
Definition st_single : anim_state :=
  lv_anim_start stress_callbacks (anim_ready_for 1 101 0)
    (_lv_anim_core_init 0 []).

(** Frames at the given readings of the tick clock, one after the other. *)
Fixpoint run_frames (cbs : callbacks) (ticks : list Z) (st : anim_state)
  : anim_state :=
  match ticks with
  | [] => st
  | now :: rest =>
      run_frames cbs rest (frame_result (anim_timer cbs 20 (set_tick now st)) st)
  end.


(* ================================================================== *)
(** ** Vocabulary of the further properties *)
(* ================================================================== *)

(** The [(var, exec_cb)] pair of a node. *)
Definition pair_of (n : node) : ptr * fnptr := (var (anim n), exec_cb (anim n)).

(** The pairs of the live records whose [exec_cb] is not [NULL], in the
    order of the registry. *)
Definition named_pairs (st : anim_state) : list (ptr * fnptr) :=
  filter (fun pr => negb (snd pr =? NULL)) (map pair_of (_lv_anim_ll st)).

(** No two live records share a pair with an [exec_cb]. *)
Definition unique_pairs (st : anim_state) : Prop := NoDup (named_pairs st).

(** The timer that calls [anim_timer] is paused exactly when the registry
    is empty. *)
Definition timer_follows (st : anim_state) : Prop :=
  tmr_paused st = _lv_ll_is_empty (_lv_anim_ll st).

(** The calls of start callbacks in a trace. *)
Definition starts (tr : list event) : list (fnptr * lv_anim_t) :=
  flat_map (fun e => match e with ev_start cb a => [(cb, a)] | _ => [] end) tr.

(** What the ready handler leaves of a record it keeps. *)
Definition ready_kept (a : lv_anim_t) : lv_anim_t :=
  ready_restart (ready_decrement a).

(** A record that repeats for ever, at the end of its window. *)
Definition anim_forever : lv_anim_t :=
  mk_anim 1 7 NULL 101 NULL path_linear 0 100 100 500 500 0 0 10
          LV_ANIM_REPEAT_INFINITE true false false 500.

Definition st_forever : anim_state :=
  set_heap 1 [] (set_ll [mk_node 0 anim_forever] (_lv_anim_core_init 0 [])).

(** A record with a reverse leg and one repetition, at the end of its
    forward leg; and one with three repetitions. *)
Definition anim_back_once : lv_anim_t :=
  mk_anim 1 7 NULL 101 NULL path_linear 0 100 100 500 500 20 300 10 1
          true false false 500.

Definition anim_back_thrice : lv_anim_t :=
  mk_anim 1 7 NULL 101 NULL path_linear 0 100 100 500 500 20 300 10 3
          true false false 500.

Definition st_back_once : anim_state :=
  set_heap 1 [] (set_ll [mk_node 0 anim_back_once] (_lv_anim_core_init 0 [])).

Definition st_back_thrice : anim_state :=
  set_heap 1 [] (set_ll [mk_node 0 anim_back_thrice] (_lv_anim_core_init 0 [])).

(** A record that waits 1000 ticks before it starts, with a start
    callback. *)
Definition anim_waiting : lv_anim_t :=
  mk_anim 1 7 55 NULL NULL path_linear 0 0 100 500 (-1000) 0 0 0 1
          true false false 500.

Definition st_waiting : anim_state :=
  set_heap 1 [] (set_ll [mk_node 0 anim_waiting] (_lv_anim_core_init 0 [])).

(** The default record in the middle of its window. *)
Definition anim_half_way : lv_anim_t := set_act_time 250 lv_anim_init.

(** What holds of the registry whenever control is outside [lv_anim.c] and
    at every test of the frame loop: a well-formed heap, one record at most
    for a pair with an [exec_cb], and the timer paused exactly when no
    record is live. *)
Definition sched_inv (st : anim_state) : Prop :=
  heap_ok st /\ unique_pairs st /\ timer_follows st.

(* ================================================================== *)
(** ** Vocabulary of the frame loop with callbacks that call back *)
(* ================================================================== *)

(** No callback that the loop calls with the pointer to a node in hand
    unlinks that node: the ready callback apart, which gets a copy of a
    record that is unlinked already.  [r] is the record as the node holds
    it, [a] the record as the round has it in hand. *)
Definition spares (cbs : callbacks) (rc : reentry) : Prop :=
  forall st p r a,
    heap_ok st -> ll_deref (_lv_anim_ll st) p = Some r -> same_schedule r a ->
    linked p (run_api cbs (get_value_calls rc (get_value_cb a) (var a)) st)
      = true /\
    linked p (run_api cbs (start_calls rc (start_cb a) a) st) = true /\
    (forall f, path_cb a = path_user f ->
       linked p (run_api cbs (path_calls rc f a) st) = true) /\
    (forall x,
       linked p (run_api cbs (exec_calls rc (exec_cb a) (var a) x) st) = true).

(** The calls leave the animations of the target [v] alone. *)
Definition avoids (v : ptr) (calls : list api_call) : bool :=
  forallb (fun c => match c with
                    | call_start a => negb (var a =? v)
                    | call_del v' _ => negb (v' =? v)
                    | call_del_all => false
                    end) calls.

(** The state in the middle of the round of the node [p] that began in
    [st0]: the heap is well-formed, the parity is the one of the round, the
    node holds what it held, the trace has the mark of the round and calls
    after it, a node is an old node or a new one with the parity of the
    round, and the list is the old list as long as [anim_list_changed] is
    down. *)
Definition round_mid (p : nat) (st0 st : anim_state) : Prop :=
  heap_ok st /\ anim_run_round st = anim_run_round st0 /\
  (heap_next st0 <= heap_next st)%nat /\
  ll_deref (_lv_anim_ll st) p = ll_deref (_lv_anim_ll st0) p /\
  (exists evs, trace st = trace st0 ++ ev_round p :: evs /\ rounds evs = []) /\
  (forall n, In n (_lv_anim_ll st) ->
     In n (_lv_anim_ll st0) \/
     ((heap_next st0 <= addr n)%nat /\ unprocessed st n = false)) /\
  (anim_list_changed st0 = false -> anim_list_changed st = false ->
   _lv_anim_ll st = _lv_anim_ll st0).

(** Callbacks that call back for other targets: the apply function of the
    target 1 starts an animation of the target 8 and the one of the target
    2 cancels the animations of the target 4; a start callback cancels the
    animations of the next target. *)
Definition busy_reentry : reentry :=
  mk_reentry (fun _ _ => [])
    (fun _ a => [call_del (var a + 1) NULL])
    (fun _ _ => [])
    (fun _ v _ => if v =? 1 then [call_start (anim_for 8 7)]
                  else if v =? 2 then [call_del 4 NULL] else []).

(** An apply function that cancels the animation it is called for. *)
Definition self_cancel_reentry : reentry :=
  mk_reentry (fun _ _ => []) (fun _ _ => []) (fun _ _ => [])
    (fun cb v _ => [call_del v cb]).

(** The registry of one animation of the pair (1, 7), 250 ticks after its
    start. *)
Definition st_one_running : anim_state := set_tick 250 st_one.

(* ================================================================== *)
(** ** Integer lemmas *)
(* ================================================================== *)

Lemma int32_t_id : forall z, is_int32 z -> int32_t z = z.
Proof.
  unfold is_int32, int32_t. intros z H.
  rewrite Z.mod_small by lia. lia.
Qed.

Lemma uint32_t_id : forall z, is_uint32 z -> uint32_t z = z.
Proof.
  unfold is_uint32, uint32_t. intros z H. apply Z.mod_small. lia.
Qed.

Lemma shiftr_10_mul : forall d, Z.shiftr (1024 * d) 10 = d.
Proof.
  intros d. rewrite Z.shiftr_div_pow2 by lia.
  change (2 ^ 10) with 1024. rewrite Z.mul_comm. apply Z.div_mul. lia.
Qed.

(** Scaling by the full step 1024 gives the end value when the range fits
    the fixed-point product. *)
Lemma path_scale_full : forall a,
  is_int32 (end_value a) ->
  -2097152 <= end_value a - start_value a < 2097152 ->
  path_scale 1024 a = end_value a.
Proof.
  intros a He Hr. unfold path_scale, LV_ANIM_RES_SHIFT.
  rewrite (int32_t_id (end_value a - start_value a)) by (unfold is_int32; lia).
  rewrite (int32_t_id (1024 * (end_value a - start_value a)))
    by (unfold is_int32; lia).
  rewrite shiftr_10_mul.
  replace (end_value a - start_value a + start_value a) with (end_value a) by lia.
  now apply int32_t_id.
Qed.

Lemma path_scale_zero : forall a,
  is_int32 (start_value a) -> path_scale 0 a = start_value a.
Proof.
  intros a Hs. unfold path_scale. rewrite Z.mul_0_l.
  change (int32_t 0) with 0. rewrite Z.shiftr_0_l. now apply int32_t_id.
Qed.

Lemma lv_map_upper : forall x hi out_hi,
  hi <= x -> lv_map x 0 hi 0 out_hi = out_hi.
Proof.
  intros x hi o H. unfold lv_map.
  destruct (x >=? hi) eqn:E; [reflexivity | lia].
Qed.

Lemma lv_map_lower : forall x hi out_hi,
  x <= 0 -> 0 < hi -> lv_map x 0 hi 0 out_hi = 0.
Proof.
  intros x hi o H Hh. unfold lv_map.
  destruct (x >=? hi) eqn:E; [lia |].
  destruct (x <=? 0) eqn:E2; [reflexivity | lia].
Qed.

Lemma lv_anim_path_bounce_end : forall a,
  is_int32 (end_value a) -> time a <= act_time a ->
  lv_anim_path_bounce a = end_value a.
Proof.
  intros a He Ht. unfold lv_anim_path_bounce.
  rewrite lv_map_upper by assumption.
  change (uint32_t 1024) with 1024.
  change (bounce_part 1024 (int32_t (end_value a - start_value a)))
    with (1030, Z.quot (int32_t (end_value a - start_value a)) 40).
  cbv iota beta.
  change (if 1030 >? 1024 then 1024 else 1030) with 1024.
  change (int32_t (lv_bezier3 1024 1024 800 500 0)) with 0.
  rewrite Z.mul_0_l. change (int32_t 0) with 0. rewrite Z.shiftr_0_l.
  rewrite Z.sub_0_r. now apply int32_t_id.
Qed.

(** Closed range facts, by evaluation. *)
Ltac by_evaluation :=
  repeat split; cbv; first [reflexivity | discriminate | intro; discriminate].

(* ================================================================== *)
(** ** The path functions and [lv_anim_speed_to_time] *)
(* ================================================================== *)

(** At the end of the time window the five scaled paths give the end value
    when the range fits. *)
Lemma builtin_paths_at_end : forall a,
  is_int32 (end_value a) -> time a <= act_time a -> range_fits a ->
  lv_anim_path_linear a = end_value a /\
  lv_anim_path_ease_in a = end_value a /\
  lv_anim_path_ease_out a = end_value a /\
  lv_anim_path_ease_in_out a = end_value a /\
  lv_anim_path_overshoot a = end_value a.
Proof.
  intros a He Hend Hr.
  unfold lv_anim_path_linear, lv_anim_path_ease_in, lv_anim_path_ease_out,
    lv_anim_path_ease_in_out, lv_anim_path_overshoot, LV_ANIM_RESOLUTION.
  rewrite !lv_map_upper by assumption.
  change (uint32_t 1024) with 1024.
  change (int32_t (lv_bezier3 1024 0 50 100 1024)) with 1024.
  change (int32_t (lv_bezier3 1024 0 900 950 1024)) with 1024.
  change (int32_t (lv_bezier3 1024 0 50 952 1024)) with 1024.
  change (int32_t (lv_bezier3 1024 0 1000 1300 1024)) with 1024.
  rewrite path_scale_full by assumption. repeat split; reflexivity.
Qed.

Lemma lv_anim_path_step_end : forall a,
  time a <= act_time a -> lv_anim_path_step a = end_value a.
Proof.
  intros a H. unfold lv_anim_path_step.
  destruct (act_time a >=? time a) eqn:E; [reflexivity | lia].
Qed.

(** C6, as amended.  Every built-in path function is a function of the
    record's elapsed time, duration, start value and end value alone.  On a
    record with [time > 0], evaluated at [act_time >= time], bounce and step
    return exactly [end_value]; linear, ease-in, ease-out, ease-in-out and
    overshoot do so when the range times 1024 fits 32 bits.  Evaluated at
    [act_time <= 0], linear and step return exactly [start_value]. *)
Theorem C6_path_boundary_values : forall a,
  anim_typed a -> 0 < time a ->
  (forall b, same_window a b ->
     lv_anim_path_linear a = lv_anim_path_linear b /\
     lv_anim_path_ease_in a = lv_anim_path_ease_in b /\
     lv_anim_path_ease_out a = lv_anim_path_ease_out b /\
     lv_anim_path_ease_in_out a = lv_anim_path_ease_in_out b /\
     lv_anim_path_overshoot a = lv_anim_path_overshoot b /\
     lv_anim_path_bounce a = lv_anim_path_bounce b /\
     lv_anim_path_step a = lv_anim_path_step b) /\
  (time a <= act_time a ->
     lv_anim_path_bounce a = end_value a /\
     lv_anim_path_step a = end_value a /\
     (range_fits a ->
        lv_anim_path_linear a = end_value a /\
        lv_anim_path_ease_in a = end_value a /\
        lv_anim_path_ease_out a = end_value a /\
        lv_anim_path_ease_in_out a = end_value a /\
        lv_anim_path_overshoot a = end_value a)) /\
  (act_time a <= 0 ->
     lv_anim_path_linear a = start_value a /\
     lv_anim_path_step a = start_value a).
Proof.
  intros a Ht Hpos.
  destruct Ht as (Hs & _ & He & _).
  split; [| split].
  - intros b (E1 & E2 & E3 & E4).
    unfold lv_anim_path_linear, lv_anim_path_ease_in, lv_anim_path_ease_out,
      lv_anim_path_ease_in_out, lv_anim_path_overshoot, lv_anim_path_bounce,
      lv_anim_path_step, path_scale.
    rewrite E1, E2, E3, E4. repeat split; reflexivity.
  - intros Hend. split; [| split].
    + now apply lv_anim_path_bounce_end.
    + unfold lv_anim_path_step.
      destruct (act_time a >=? time a) eqn:E; [reflexivity | lia].
    + intros Hr. now apply builtin_paths_at_end.
  - intros Hle. split.
    + unfold lv_anim_path_linear. rewrite lv_map_lower by assumption.
      now apply path_scale_zero.
    + unfold lv_anim_path_step.
      destruct (act_time a >=? time a) eqn:E; [lia | reflexivity].
Qed.

Lemma anim_at_end_typed : anim_typed anim_at_end.
Proof. unfold anim_typed, is_int32, is_uint32, is_uint16. simpl. lia. Qed.

(** The default record at the end of its window: all path functions give
    100 there. *)
Lemma C6_path_boundary_values_witness :
  anim_typed anim_at_end /\ 0 < time anim_at_end /\
  lv_anim_path_bounce anim_at_end = end_value anim_at_end /\
  lv_anim_path_overshoot anim_at_end = end_value anim_at_end.
Proof.
  split; [exact anim_at_end_typed |].
  split; [simpl; lia |].
  destruct (C6_path_boundary_values anim_at_end anim_at_end_typed)
    as (_ & Hend & _); [simpl; lia |].
  destruct Hend as (Hb & _ & Hrest); [simpl; lia |].
  split; [exact Hb |].
  destruct Hrest as (_ & _ & _ & _ & Ho);
    [unfold range_fits; simpl; lia | exact Ho].
Defined.

(** C6 as stated fails: a well-typed record with [time > 0] at
    [act_time >= time] on which the linear path does not return
    [end_value].  The range is 2^21: the product with the step 1024 wraps. *)
Lemma C6_counterexample_wide_range :
  anim_typed anim_wide /\ 0 < time anim_wide /\
  time anim_wide <= act_time anim_wide /\
  lv_anim_path_linear anim_wide = -2097152 /\
  lv_anim_path_linear anim_wide <> end_value anim_wide.
Proof.
  split.
  { unfold anim_typed, is_int32, is_uint32, is_uint16. simpl. lia. }
  split; [simpl; lia |]. split; [simpl; lia |].
  split; [reflexivity | discriminate].
Qed.

(** C9, as amended.  For every speed > 0 and all start and end values whose
    distance times 1000 fits 32 bits, [lv_anim_speed_to_time] returns
    (|start - end| * 1000) / speed, a result of 0 rounded up to 1; for speed
    50, start 0 and end 100 it returns 2000. *)
Theorem C9_speed_to_time : forall speed start end_,
  0 < speed -> is_uint32 speed -> is_int32 start -> is_int32 end_ ->
  Z.abs (start - end_) * 1000 < 4294967296 ->
  lv_anim_speed_to_time speed start end_
    = Some (speed_to_time_spec speed start end_)
  /\ lv_anim_speed_to_time 50 0 100 = Some 2000.
Proof.
  intros speed s e Hpos Hsp Hs He Hd.
  split; [| reflexivity].
  unfold lv_anim_speed_to_time, speed_to_time_spec.
  destruct (speed =? 0) eqn:E; [lia |].
  assert (Habs : uint32_t (LV_ABS (int32_t (s - e))) = Z.abs (s - e)).
  { rewrite (int32_t_id (s - e)) by (unfold is_int32; lia).
    unfold LV_ABS. destruct (s - e >? 0) eqn:E2.
    - rewrite uint32_t_id by (unfold is_uint32; lia). lia.
    - rewrite int32_t_id by (unfold is_int32; lia).
      rewrite uint32_t_id by (unfold is_uint32; lia). lia. }
  rewrite Habs.
  rewrite (uint32_t_id (Z.abs (s - e) * 1000)) by (unfold is_uint32; lia).
  destruct (Z.abs (s - e) * 1000 / speed =? 0) eqn:E3; [| reflexivity].
  apply Z.eqb_eq in E3. rewrite E3. reflexivity.
Qed.

Lemma C9_speed_to_time_witness :
  lv_anim_speed_to_time 7 (-30) 12 = Some 6000
  /\ lv_anim_speed_to_time 50 0 100 = Some 2000.
Proof.
  apply (C9_speed_to_time 7 (-30) 12);
    unfold is_uint32, is_int32; simpl; lia.
Defined.

(** C9 as stated fails: speed 1000 over the distance 5,000,000 asks for
    5,000,000 time units, and the function returns 705,032: the product
    d * 1000 wraps at 32 bits. *)
Lemma C9_counterexample_wrap :
  0 < 1000 /\ is_uint32 1000 /\ is_int32 0 /\ is_int32 5000000 /\
  speed_to_time_spec 1000 0 5000000 = 5000000 /\
  lv_anim_speed_to_time 1000 0 5000000 = Some 705032 /\
  lv_anim_speed_to_time 1000 0 5000000
    <> Some (speed_to_time_spec 1000 0 5000000).
Proof.
  unfold is_uint32, is_int32.
  repeat split; try lia; try reflexivity. discriminate.
Qed.

(* ================================================================== *)
(** ** The registry: [lv_anim_del] and [lv_anim_start] *)
(* ================================================================== *)

Lemma filter_twice : forall (A : Type) (f g : A -> bool) (l : list A),
  filter f (filter g l) = filter (fun x => g x && f x) l.
Proof.
  intros A f g l. induction l as [| x l IH]; simpl; [reflexivity |].
  destruct (g x); simpl; [destruct (f x) |]; now rewrite IH.
Qed.

Lemma filter_all : forall (A : Type) (l : list A),
  filter (fun _ => true) l = l.
Proof.
  intros A l. induction l as [| x l IH]; simpl; [reflexivity | now rewrite IH].
Qed.

Lemma addr_inj : forall l m n,
  NoDup (map addr l) -> In m l -> In n l -> addr m = addr n -> m = n.
Proof.
  induction l as [| x l IH]; simpl; intros m n Hnd Hm Hn E; [contradiction |].
  inversion Hnd as [| ? ? Hx Hl]; subst.
  destruct Hm as [-> | Hm], Hn as [-> | Hn]; auto.
  - exfalso. apply Hx. rewrite E. now apply in_map.
  - exfalso. apply Hx. rewrite <- E. now apply in_map.
Qed.

Lemma ll_remove_in : forall l p n,
  In n (_lv_ll_remove l p) <-> In n l /\ addr n <> p.
Proof.
  intros l p n. unfold _lv_ll_remove. rewrite filter_In.
  rewrite negb_true_iff, Nat.eqb_neq. tauto.
Qed.

Lemma mark_ll : forall st,
  _lv_anim_ll (anim_mark_list_change st) = _lv_anim_ll st.
Proof.
  intros st. unfold anim_mark_list_change.
  destruct (_lv_ll_get_head _); reflexivity.
Qed.

Lemma mark_changed : forall st,
  anim_list_changed (anim_mark_list_change st) = true.
Proof.
  intros st. unfold anim_mark_list_change.
  destruct (_lv_ll_get_head _); reflexivity.
Qed.

(** What [anim_mark_list_change] leaves alone. *)
Lemma mark_frame : forall st,
  let st' := anim_mark_list_change st in
  last_timer_run st' = last_timer_run st /\
  anim_run_round st' = anim_run_round st /\
  tick st' = tick st /\ heap_next st' = heap_next st /\
  heap_plan st' = heap_plan st /\ trace st' = trace st.
Proof.
  intros st. unfold anim_mark_list_change.
  destruct (_lv_ll_get_head _); simpl; repeat split; reflexivity.
Qed.

Lemma lv_anim_del_loop_spec : forall todo v cb del st,
  let r := lv_anim_del_loop todo v cb del st in
  _lv_anim_ll (snd r)
    = filter (fun n => negb (del_hits todo v cb n)) (_lv_anim_ll st) /\
  fst r = del || existsb (fun m => del_match v cb (anim m)) todo /\
  anim_list_changed (snd r)
    = anim_list_changed st || existsb (fun m => del_match v cb (anim m)) todo /\
  last_timer_run (snd r) = last_timer_run st /\
  anim_run_round (snd r) = anim_run_round st /\
  tick (snd r) = tick st /\ heap_next (snd r) = heap_next st /\
  heap_plan (snd r) = heap_plan st /\ trace (snd r) = trace st.
Proof.
  induction todo as [| n todo IH]; intros v cb del st; simpl.
  - rewrite !orb_false_r.
    unfold del_hits. simpl. rewrite filter_all. repeat split; reflexivity.
  - destruct (del_match v cb (anim n)) eqn:M.
    + specialize (IH v cb true
        (anim_mark_list_change
           (set_ll (_lv_ll_remove (_lv_anim_ll st) (addr n)) st))).
      cbv zeta in IH.
      destruct IH as (Hl & Hf & Hc & H1 & H2 & H3 & H4 & H5 & H6).
      pose proof (mark_frame
        (set_ll (_lv_ll_remove (_lv_anim_ll st) (addr n)) st))
        as (F1 & F2 & F3 & F4 & F5 & F6).
      rewrite mark_ll in Hl. rewrite mark_changed in Hc.
      simpl in Hl, F1, F2, F3, F4, F5, F6.
      rewrite Hl, Hf, Hc, H1, H2, H3, H4, H5, H6.
      rewrite !orb_true_r.
      repeat split; try assumption; try reflexivity.
      unfold _lv_ll_remove. rewrite filter_twice.
      apply filter_ext. intros x. unfold del_hits. simpl.
      rewrite ?M, ?andb_true_r, negb_orb. reflexivity.
    + specialize (IH v cb del st). cbv zeta in IH.
      destruct IH as (Hl & Hf & Hc & H1 & H2 & H3 & H4 & H5 & H6).
      rewrite Hl, Hf, Hc. repeat split; try assumption.
      apply filter_ext. intros x. unfold del_hits. simpl.
      rewrite ?M, ?andb_false_r. reflexivity.
Qed.

(** [lv_anim_del] keeps the nodes that do not match, in their order. *)
Lemma lv_anim_del_ll : forall v cb st,
  NoDup (map addr (_lv_anim_ll st)) ->
  _lv_anim_ll (snd (lv_anim_del v cb st))
    = filter (fun n => negb (del_match v cb (anim n))) (_lv_anim_ll st).
Proof.
  intros v cb st Hnd. unfold lv_anim_del.
  destruct (lv_anim_del_loop_spec (_lv_anim_ll st) v cb false st) as (Hl & _).
  rewrite Hl. apply filter_ext_in. intros n Hn. f_equal.
  unfold del_hits.
  destruct (del_match v cb (anim n)) eqn:M.
  - apply existsb_exists. exists n. split; [assumption |].
    now rewrite Nat.eqb_refl, M.
  - destruct (existsb _ _) eqn:E; [| reflexivity].
    apply existsb_exists in E. destruct E as (m & Hm & Hb).
    apply andb_true_iff in Hb. destruct Hb as (Ha & Hmm).
    apply Nat.eqb_eq in Ha.
    assert (m = n) by (eapply addr_inj; eauto). subst m. congruence.
Qed.

Lemma lv_anim_del_frame : forall v cb st,
  let st' := snd (lv_anim_del v cb st) in
  last_timer_run st' = last_timer_run st /\
  anim_run_round st' = anim_run_round st /\
  tick st' = tick st /\ heap_next st' = heap_next st /\
  heap_plan st' = heap_plan st /\ trace st' = trace st.
Proof.
  intros v cb st. unfold lv_anim_del.
  destruct (lv_anim_del_loop_spec (_lv_anim_ll st) v cb false st)
    as (_ & _ & _ & H). exact H.
Qed.

Lemma del_match_same_pair : forall a b,
  exec_cb a <> NULL ->
  del_match (var a) (exec_cb a) b = same_pair a b.
Proof.
  intros a b H. unfold del_match, same_pair.
  replace (exec_cb a =? NULL) with false
    by (symmetry; now apply Z.eqb_neq).
  now rewrite orb_false_r.
Qed.

Lemma start_cleared_spec : forall a st,
  NoDup (map addr (_lv_anim_ll st)) ->
  let st1 := start_cleared a st in
  _lv_anim_ll st1 = start_keeps a st /\
  anim_run_round st1 = anim_run_round st /\
  heap_next st1 = heap_next st /\ heap_plan st1 = heap_plan st /\
  trace st1 = trace st /\ tick st1 = tick st.
Proof.
  intros a st Hnd. unfold start_cleared, start_keeps.
  destruct (exec_cb a =? NULL) eqn:E.
  - destruct (_lv_ll_is_empty _); simpl; repeat split; reflexivity.
  - apply Z.eqb_neq in E.
    pose proof (lv_anim_del_ll (var a) (exec_cb a) st Hnd) as Hl.
    pose proof (lv_anim_del_frame (var a) (exec_cb a) st)
      as (_ & F2 & F3 & F4 & F5 & F6).
    assert (Hk : filter (fun n => negb (del_match (var a) (exec_cb a) (anim n)))
                   (_lv_anim_ll st)
                 = filter (fun n => negb (same_pair a (anim n)))
                     (_lv_anim_ll st)).
    { apply filter_ext. intros n. now rewrite del_match_same_pair. }
    rewrite Hk in Hl.
    destruct (_lv_ll_is_empty _); simpl; repeat split; assumption.
Qed.

(** [lv_anim_start] when the allocation fails: the function returns after
    the duplicates were deleted. *)
Lemma lv_anim_start_fail : forall cbs a st plan,
  heap_plan (start_cleared a st) = false :: plan ->
  lv_anim_start cbs a st
    = set_heap (heap_next (start_cleared a st)) plan (start_cleared a st).
Proof.
  intros cbs a st plan H. unfold lv_anim_start.
  fold (start_cleared a st). unfold _lv_ll_ins_head. rewrite H. reflexivity.
Qed.

Lemma ll_store_head : forall p a l b,
  ll_store (mk_node p a :: l) p b = mk_node p b :: l.
Proof. intros. simpl. now rewrite Nat.eqb_refl. Qed.

Lemma _lv_ll_ins_head_ok : forall c st,
  next_alloc_ok st = true ->
  _lv_ll_ins_head c st
    = (Some (heap_next st),
       set_heap (S (heap_next st)) (tl (heap_plan st))
         (set_ll (mk_node (heap_next st) c :: _lv_anim_ll st) st)).
Proof.
  intros c st H. unfold _lv_ll_ins_head, next_alloc_ok in *.
  destruct (heap_plan st) as [| [|] plan]; try reflexivity; discriminate.
Qed.

Lemma start_early_apply_spec : forall cbs c st,
  let r := start_early_apply cbs c st in
  let na := if early_apply c && negb (get_value_cb c =? NULL)
            then offset_record cbs c (trace st) else c in
  fst r = na /\
  trace (snd r)
    = trace st ++ early_events c
      ++ (if early_apply c && negb (exec_cb c =? NULL) && negb (var c =? NULL)
          then [ev_exec (exec_cb c) (var c) (start_value na)] else []) /\
  _lv_anim_ll (snd r) = _lv_anim_ll st /\
  anim_run_round (snd r) = anim_run_round st /\
  anim_list_changed (snd r) = anim_list_changed st /\
  heap_next (snd r) = heap_next st /\ heap_plan (snd r) = heap_plan st /\
  tick (snd r) = tick st /\ last_timer_run (snd r) = last_timer_run st.
Proof.
  intros cbs c st. unfold start_early_apply, early_events, apply_value_offset.
  destruct (early_apply c); cbn [andb].
  - destruct (get_value_cb c =? NULL); cbn [negb]; cbv iota beta.
    + destruct (negb (exec_cb c =? NULL) && negb (var c =? NULL));
        simpl; rewrite ?app_nil_r; repeat split; reflexivity.
    + assert (E1 : exec_cb (offset_record cbs c (trace st)) = exec_cb c)
        by reflexivity.
      assert (E2 : var (offset_record cbs c (trace st)) = var c)
        by reflexivity.
      rewrite E1, E2.
      destruct (negb (exec_cb c =? NULL) && negb (var c =? NULL));
        simpl; rewrite <- ?app_assoc, ?app_nil_r; repeat split; reflexivity.
  - simpl. rewrite app_nil_r. repeat split; reflexivity.
Qed.

(** [lv_anim_start] when the allocation succeeds. *)
Lemma lv_anim_start_ok : forall cbs a st,
  NoDup (map addr (_lv_anim_ll st)) ->
  next_alloc_ok st = true ->
  let st' := lv_anim_start cbs a st in
  _lv_anim_ll st'
    = mk_node (heap_next st) (start_stored cbs a st) :: start_keeps a st /\
  trace st' = trace st ++ start_events cbs a st /\
  heap_next st' = S (heap_next st) /\
  heap_plan st' = tl (heap_plan st) /\
  anim_run_round st' = anim_run_round st /\
  anim_list_changed st' = true /\
  tick st' = tick st.
Proof.
  intros cbs a st Hnd Hok.
  destruct (start_cleared_spec a st Hnd) as (Hl & Hr & Hn & Hp & Ht & Hk).
  unfold lv_anim_start.
  assert (Hok1 : next_alloc_ok (start_cleared a st) = true)
    by (unfold next_alloc_ok in *; now rewrite Hp).
  rewrite _lv_ll_ins_head_ok by exact Hok1.
  rewrite Hr, Hn, Hp, Hl. fold (start_copy a st).
  set (st2 := set_heap _ _ _).
  pose proof (start_early_apply_spec cbs (start_copy a st) st2) as S.
  cbv zeta in S.
  destruct (start_early_apply cbs (start_copy a st) st2) as [na st3].
  cbn [fst snd] in S.
  destruct S as (S1 & S2 & S3 & S4 & S5 & S6 & S7 & S8 & S9).
  subst st2. simpl in S1, S2, S3, S4, S6, S7, S8.
  rewrite Ht in S1, S2. rewrite Hr in S4. rewrite Hk in S8.
  rewrite mark_ll, mark_changed.
  pose proof (mark_frame
    (set_ll (ll_store (_lv_anim_ll st3) (heap_next st) na) st3))
    as (_ & F2 & F3 & F4 & F5 & F6).
  cbv zeta in F2, F3, F4, F5, F6. rewrite F2, F3, F4, F5, F6.
  simpl. rewrite S3, S2, S4, S6, S7, S8, ll_store_head.
  unfold start_events, early_events in *. cbv zeta.
  unfold start_stored.
  change (early_apply (start_copy a st)) with (early_apply a) in *.
  change (get_value_cb (start_copy a st)) with (get_value_cb a) in *.
  change (exec_cb (start_copy a st)) with (exec_cb a) in *.
  change (var (start_copy a st)) with (var a) in *.
  destruct (early_apply a); cbn [andb] in *;
    rewrite <- S1; repeat split; reflexivity.
Qed.

Lemma distinct_NoDup : forall l, distinct l = true -> NoDup l.
Proof.
  induction l as [| x l IH]; simpl; intros H; [constructor |].
  apply andb_true_iff in H. destruct H as (Hx & Hl).
  constructor; [| now apply IH].
  intros Hin. apply negb_true_iff in Hx.
  assert (Hex : existsb (Nat.eqb x) l = true).
  { apply existsb_exists. exists x. split; [assumption | apply Nat.eqb_refl]. }
  congruence.
Qed.

Lemma heap_okb_sound : forall st, heap_okb st = true -> heap_ok st.
Proof.
  intros st H. unfold heap_okb in H. apply andb_true_iff in H.
  destruct H as (Hd & Hb). split; [now apply distinct_NoDup |].
  intros n Hn. rewrite forallb_forall in Hb. apply Hb in Hn.
  now apply Nat.ltb_lt.
Qed.

Lemma registry_okb_sound : forall st, registry_okb st = true -> registry_ok st.
Proof.
  intros st H. unfold registry_okb in H. apply andb_true_iff in H.
  destruct H as (Hh & Hp). split; [now apply heap_okb_sound |].
  intros n Hn. rewrite forallb_forall in Hp. apply Hp in Hn.
  now apply negb_true_iff.
Qed.

(* ------------------------------------------------------------------ *)
(** *** The order of iteration *)

Lemma get_next_app : forall pre n suf,
  ~ In (addr n) (map addr pre) ->
  _lv_ll_get_next (pre ++ n :: suf) (addr n) = _lv_ll_get_head suf.
Proof.
  induction pre as [| x pre IH]; intros n suf Hn; simpl.
  - now rewrite Nat.eqb_refl.
  - simpl in Hn. destruct (Nat.eqb (addr x) (addr n)) eqn:E.
    + apply Nat.eqb_eq in E. exfalso. apply Hn. now left.
    + apply IH. intros H. apply Hn. now right.
Qed.

Lemma ll_walk_suffix : forall suf pre,
  NoDup (map addr (pre ++ suf)) ->
  ll_walk (length suf) (pre ++ suf) (_lv_ll_get_head suf) = map addr suf.
Proof.
  induction suf as [| n suf IH]; intros pre Hnd; [reflexivity |].
  simpl. f_equal.
  rewrite get_next_app.
  - replace (pre ++ n :: suf) with ((pre ++ [n]) ++ suf)
      by (now rewrite <- app_assoc).
    apply IH. now rewrite <- app_assoc.
  - rewrite map_app in Hnd. simpl in Hnd.
    apply NoDup_remove_2 in Hnd. intros H. apply Hnd.
    apply in_or_app. now left.
Qed.

(** Walking from the head along [_lv_ll_get_next] meets the nodes in the
    order of the list. *)
Lemma ll_iterate_map : forall st,
  NoDup (map addr (_lv_anim_ll st)) ->
  ll_iterate st = map addr (_lv_anim_ll st).
Proof.
  intros st Hnd. unfold ll_iterate.
  exact (ll_walk_suffix (_lv_anim_ll st) [] Hnd).
Qed.

Lemma start_keeps_incl : forall a st n,
  In n (start_keeps a st) -> In n (_lv_anim_ll st).
Proof.
  intros a st n. unfold start_keeps.
  destruct (exec_cb a =? NULL); [tauto |].
  rewrite filter_In. tauto.
Qed.

Lemma NoDup_map_filter : forall (f : node -> bool) l,
  NoDup (map addr l) -> NoDup (map addr (filter f l)).
Proof.
  intros f l. induction l as [| x l IH]; simpl; intros H; [constructor |].
  inversion H as [| ? ? Hx Hl]; subst.
  destruct (f x); simpl; [constructor |]; auto.
  intros Hin. apply Hx. apply in_map_iff in Hin.
  destruct Hin as (y & E & Hy). apply filter_In in Hy.
  apply in_map_iff. exists y. tauto.
Qed.

Lemma start_keeps_NoDup : forall a st,
  NoDup (map addr (_lv_anim_ll st)) -> NoDup (map addr (start_keeps a st)).
Proof.
  intros a st H. unfold start_keeps.
  destruct (exec_cb a =? NULL); [assumption |].
  now apply NoDup_map_filter.
Qed.

(** [lv_anim_start] keeps the heap well formed. *)
Lemma lv_anim_start_heap_ok : forall cbs a st,
  heap_ok st -> next_alloc_ok st = true -> heap_ok (lv_anim_start cbs a st).
Proof.
  intros cbs a st (Hnd & Hlt) Hok.
  destruct (lv_anim_start_ok cbs a st Hnd Hok) as (Hl & _ & Hn & _).
  unfold heap_ok. rewrite Hl, Hn. split.
  - simpl. constructor.
    + intros Hin. apply in_map_iff in Hin. destruct Hin as (y & E & Hy).
      apply start_keeps_incl in Hy. apply Hlt in Hy. lia.
    + now apply start_keeps_NoDup.
  - intros n [<- | Hin]; simpl; [lia |].
    apply start_keeps_incl in Hin. apply Hlt in Hin. lia.
Qed.

Lemma start_stored_pair : forall cbs a st,
  var (start_stored cbs a st) = var a /\
  exec_cb (start_stored cbs a st) = exec_cb a /\
  current_value (start_stored cbs a st) = current_value a /\
  run_round (start_stored cbs a st) = anim_run_round st.
Proof.
  intros cbs a st. unfold start_stored.
  destruct (_ && _); repeat split; reflexivity.
Qed.

Lemma filter_none : forall (A : Type) (f : A -> bool) (l : list A),
  filter f (filter (fun x => negb (f x)) l) = [].
Proof.
  intros A f l. induction l as [| x l IH]; simpl; [reflexivity |].
  destruct (f x) eqn:E; simpl; [assumption | now rewrite E].
Qed.

(** C1, as amended.  A call of [lv_anim_start] whose allocation succeeds
    links a new node holding the submitted pair at the head.  When [exec_cb]
    is not [NULL], every record of the same [(var, exec_cb)] pair is removed
    first and the records of other pairs stay, so that afterwards exactly one
    live record exists for the pair, whatever was submitted before.  When
    [exec_cb] is [NULL], nothing is removed. *)
Theorem C1_start_duplicate_suppression : forall cbs a st,
  heap_ok st -> next_alloc_ok st = true ->
  let st' := lv_anim_start cbs a st in
  let new_node := mk_node (heap_next st) (start_stored cbs a st) in
  var (anim new_node) = var a /\ exec_cb (anim new_node) = exec_cb a /\
  (exec_cb a <> NULL ->
     _lv_anim_ll st'
       = new_node
         :: filter (fun n => negb (same_pair a (anim n))) (_lv_anim_ll st) /\
     live_for (var a) (exec_cb a) st' = [new_node]) /\
  (exec_cb a = NULL -> _lv_anim_ll st' = new_node :: _lv_anim_ll st).
Proof.
  intros cbs a st (Hnd & Hlt) Hok. cbv zeta.
  destruct (lv_anim_start_ok cbs a st Hnd Hok) as (Hl & _).
  destruct (start_stored_pair cbs a st) as (Ev & Ee & _).
  cbn [anim]. split; [exact Ev |]. split; [exact Ee |]. split.
  - intros Hne. unfold start_keeps in Hl.
    replace (exec_cb a =? NULL) with false in Hl
      by (symmetry; now apply Z.eqb_neq).
    split; [exact Hl |].
    unfold live_for. rewrite Hl. simpl. rewrite Ev, Ee, !Z.eqb_refl. simpl.
    f_equal.
    exact (filter_none node (fun n => same_pair a (anim n)) (_lv_anim_ll st)).
  - intros He. unfold start_keeps in Hl. rewrite He in Hl. exact Hl.
Qed.

Lemma st_one_heap_ok : heap_ok st_one.
Proof. apply heap_okb_sound. vm_compute. reflexivity. Qed.

(** On the registry holding the pair (1, 7), another start of (1, 7) leaves
    one record of the pair: the new one, at address 1. *)
Lemma C1_start_duplicate_suppression_witness :
  heap_ok st_one /\ next_alloc_ok st_one = true /\
  live_for 1 7 (lv_anim_start quiet_callbacks (anim_for 1 7) st_one)
    = [mk_node 1 (start_stored quiet_callbacks (anim_for 1 7) st_one)].
Proof.
  split; [exact st_one_heap_ok |]. split; [reflexivity |].
  destruct (C1_start_duplicate_suppression quiet_callbacks (anim_for 1 7)
              st_one st_one_heap_ok eq_refl) as (_ & _ & H & _).
  destruct H as (_ & H); [discriminate | exact H].
Defined.

(** C1 as stated fails on the wildcard: with the pair (1, 7) live, a start
    for the target 1 with a [NULL] [exec_cb] removes nothing, and a second
    such start leaves two live records of the pair (1, NULL). *)
Lemma C1_counterexample_wildcard :
  map (fun n => (var (anim n), exec_cb (anim n))) (_lv_anim_ll st_one)
    = [(1, 7)] /\
  map (fun n => (var (anim n), exec_cb (anim n)))
      (_lv_anim_ll (lv_anim_start quiet_callbacks (anim_for 1 NULL) st_one))
    = [(1, NULL); (1, 7)] /\
  length (live_for 1 NULL
            (lv_anim_start quiet_callbacks (anim_for 1 NULL)
               (lv_anim_start quiet_callbacks (anim_for 1 NULL) st_one)))
    = 2%nat.
Proof. repeat split; vm_compute; reflexivity. Qed.

(** C5, as amended.  When the allocation of the new node fails,
    [lv_anim_start] returns without linking a node and without calling
    through any function pointer; the records of other pairs, and for a
    [NULL] [exec_cb] all records, are still linked in their order; the
    records of the submitted [(var, exec_cb)] pair have been removed before
    the allocation was tried. *)
Theorem C5_start_allocation_failure : forall cbs a st,
  heap_ok st -> next_alloc_ok st = false ->
  let st' := lv_anim_start cbs a st in
  _lv_anim_ll st' = start_keeps a st /\
  (forall n, In n (_lv_anim_ll st') -> In n (_lv_anim_ll st)) /\
  (forall n, In n (_lv_anim_ll st) -> same_pair a (anim n) = false ->
             In n (_lv_anim_ll st')) /\
  (exec_cb a = NULL -> _lv_anim_ll st' = _lv_anim_ll st) /\
  trace st' = trace st /\ heap_next st' = heap_next st.
Proof.
  intros cbs a st (Hnd & Hlt) Hfail. cbv zeta.
  destruct (start_cleared_spec a st Hnd) as (Hl & Hr & Hn & Hp & Ht & Hk).
  assert (Hplan : exists plan, heap_plan st = false :: plan).
  { unfold next_alloc_ok in Hfail.
    destruct (heap_plan st) as [| [|] plan]; try discriminate. eauto. }
  destruct Hplan as (plan & Hplan).
  rewrite (lv_anim_start_fail cbs a st plan) by (now rewrite Hp).
  cbn [_lv_anim_ll trace heap_next set_heap]. rewrite Hl, Ht, Hn.
  split; [reflexivity |]. split; [apply start_keeps_incl |].
  split; [| split; [| split; reflexivity]].
  - intros n Hin Hpair. unfold start_keeps.
    destruct (exec_cb a =? NULL); [assumption |].
    apply filter_In. split; [assumption | now rewrite Hpair].
  - intros He. unfold start_keeps. now rewrite He.
Qed.

Lemma st_one_full_heap_ok : heap_ok st_one_full.
Proof. apply heap_okb_sound. vm_compute. reflexivity. Qed.

(** With the next allocation failing, a start for another pair leaves the
    registry as it was. *)
Lemma C5_start_allocation_failure_witness :
  heap_ok st_one_full /\ next_alloc_ok st_one_full = false /\
  _lv_anim_ll (lv_anim_start quiet_callbacks (anim_for 2 7) st_one_full)
    = start_keeps (anim_for 2 7) st_one_full.
Proof.
  split; [exact st_one_full_heap_ok |]. split; [reflexivity |].
  exact (proj1 (C5_start_allocation_failure quiet_callbacks (anim_for 2 7)
                  st_one_full st_one_full_heap_ok eq_refl)).
Defined.

(** C5 as stated fails: the registry holds the pair (1, 7), the allocation
    for a second start of (1, 7) fails, and the registry is empty
    afterwards. *)
Lemma C5_counterexample_record_lost :
  next_alloc_ok st_one_full = false /\
  length (_lv_anim_ll st_one_full) = 1%nat /\
  _lv_anim_ll (lv_anim_start quiet_callbacks (anim_for 1 7) st_one_full) = [] /\
  lv_anim_count_running
    (lv_anim_start quiet_callbacks (anim_for 1 7) st_one_full) = 0.
Proof. repeat split; vm_compute; reflexivity. Qed.

(** C7, as amended.  The registry is iterated from its head along
    [_lv_ll_get_next], and [lv_anim_start] links the new node at the head:
    the walk meets the most recently started record first, then the older
    records that were kept, in the order they had; the lookup of the
    submitted pair finds the new node. *)
Theorem C7_iteration_newest_first : forall cbs a st,
  heap_ok st -> next_alloc_ok st = true ->
  let st' := lv_anim_start cbs a st in
  ll_iterate st = map addr (_lv_anim_ll st) /\
  ll_iterate st' = heap_next st :: map addr (start_keeps a st) /\
  _lv_ll_get_head (_lv_anim_ll st') = Some (heap_next st) /\
  lv_anim_get (var a) (exec_cb a) st'
    = Some (mk_node (heap_next st) (start_stored cbs a st)).
Proof.
  intros cbs a st Hok Halloc. cbv zeta.
  pose proof (lv_anim_start_heap_ok cbs a st Hok Halloc) as (Hnd' & _).
  destruct Hok as (Hnd & Hlt).
  destruct (lv_anim_start_ok cbs a st Hnd Halloc) as (Hl & _).
  destruct (start_stored_pair cbs a st) as (Ev & Ee & _).
  split; [now apply ll_iterate_map |].
  split; [rewrite ll_iterate_map by assumption; now rewrite Hl |].
  unfold lv_anim_get. rewrite Hl. simpl.
  rewrite Ev, Ee, !Z.eqb_refl. split; reflexivity.
Qed.

Lemma C7_iteration_newest_first_witness :
  heap_ok st_one /\ next_alloc_ok st_one = true /\
  ll_iterate (lv_anim_start quiet_callbacks (anim_for 2 7) st_one)
    = heap_next st_one :: map addr (start_keeps (anim_for 2 7) st_one).
Proof.
  split; [exact st_one_heap_ok |]. split; [reflexivity |].
  destruct (C7_iteration_newest_first quiet_callbacks (anim_for 2 7) st_one
              st_one_heap_ok eq_refl) as (_ & H & _).
  exact H.
Defined.

(** C7 as stated fails: (1, 7) was started first, at address 0, and (2, 7)
    second, at address 1.  The walk of the registry, and the frame loop,
    meet the node 1 first and the earliest-started node 0 last. *)
Lemma C7_counterexample_newest_first :
  map (fun n => (addr n, var (anim n))) (_lv_anim_ll st_two)
    = [(1%nat, 2); (0%nat, 1)] /\
  ll_iterate st_two = [1%nat; 0%nat] /\
  rounds (trace (frame_result
                   (anim_timer quiet_callbacks 10 (set_tick 30 st_two))
                   st_two))
    = [1%nat; 0%nat].
Proof. repeat split; vm_compute; reflexivity. Qed.

(* ================================================================== *)
(** ** The ready handler *)
(* ================================================================== *)

Lemma neg_cast : forall x,
  0 <= x <= 2147483648 -> int32_t (- int32_t x) = - x.
Proof.
  intros x H. unfold int32_t.
  destruct (Z.eq_dec x 2147483648) as [-> | Hne]; [reflexivity |].
  rewrite (Z.mod_small (x + 2147483648)) by lia.
  replace (x + 2147483648 - 2147483648) with x by lia.
  rewrite Z.mod_small by lia. lia.
Qed.

(** C4, as amended.  The ready handler decrements [repeat_cnt] when the
    record is not in its playback leg and the count is positive and not the
    infinite sentinel; a count of 0, the sentinel, and any count during the
    playback leg are left as they are.  In the branch that keeps the record,
    the elapsed time is reset to [-repeat_delay], or to [-playback_delay]
    when the reverse leg is entered; with playback configured the
    playback flag is toggled, the start and end values are swapped, and the
    duration becomes [playback_time] when the reverse leg is entered and
    [time_orig] when it is left. *)
Theorem C4_ready_handler_restart : forall cbs p st a,
  ll_deref (_lv_anim_ll st) p = Some a ->
  anim_typed a -> timing_fits a ->
  let a1 := ready_decrement a in
  (playback_now a = false -> 0 < repeat_cnt a ->
   repeat_cnt a <> LV_ANIM_REPEAT_INFINITE ->
   a1 = set_repeat_cnt (repeat_cnt a - 1) a) /\
  (playback_now a = true \/ repeat_cnt a = 0 \/
   repeat_cnt a = LV_ANIM_REPEAT_INFINITE -> a1 = a) /\
  (ready_terminal a1 = false ->
   exists a2,
     anim_ready_handler cbs p st
       = Some (set_ll (ll_store (_lv_anim_ll st) p a2) st) /\
     repeat_cnt a2 = repeat_cnt a1 /\
     (playback_time a = 0 ->
        act_time a2 = - repeat_delay a /\
        playback_now a2 = playback_now a /\
        start_value a2 = start_value a /\ end_value a2 = end_value a /\
        time a2 = time a) /\
     (playback_time a <> 0 ->
        playback_now a2 = negb (playback_now a) /\
        start_value a2 = end_value a /\ end_value a2 = start_value a /\
        (playback_now a = false ->
           act_time a2 = - playback_delay a /\ time a2 = playback_time a) /\
        (playback_now a = true ->
           act_time a2 = - repeat_delay a /\ time a2 = time_orig a))).
Proof.
  intros cbs p st a Hd Ht Hf. cbv zeta.
  destruct Ht as (_ & _ & _ & _ & _ & Hpd & Hpt & Hrd & Hrc & Hto).
  destruct Hf as (Frd & Fpd & Fpt & Fto).
  unfold is_uint32, is_uint16 in *.
  split; [| split].
  - intros Hpn Hpos Hinf. unfold ready_decrement. rewrite Hpn. simpl.
    replace (repeat_cnt a >? 0) with true by (symmetry; lia).
    replace (repeat_cnt a =? LV_ANIM_REPEAT_INFINITE) with false
      by (symmetry; now apply Z.eqb_neq).
    simpl. unfold uint16_t. rewrite Z.mod_small by lia. reflexivity.
  - intros H. unfold ready_decrement.
    destruct H as [H | [H | H]]; rewrite H; simpl;
      rewrite ?andb_false_r; reflexivity.
  - intros Hnt. exists (ready_restart (ready_decrement a)).
    unfold anim_ready_handler. rewrite Hd. rewrite Hnt.
    split; [reflexivity |].
    set (a1 := ready_decrement a).
    assert (E : playback_time a1 = playback_time a /\
                playback_now a1 = playback_now a /\
                repeat_delay a1 = repeat_delay a /\
                playback_delay a1 = playback_delay a /\
                start_value a1 = start_value a /\
                end_value a1 = end_value a /\
                time a1 = time a /\ time_orig a1 = time_orig a).
    { unfold a1, ready_decrement. destruct (_ && _); repeat split. }
    destruct E as (E1 & E2 & E3 & E4 & E5 & E6 & E7 & E8).
    unfold ready_restart. cbn [playback_time set_act_time].
    rewrite E1.
    destruct (playback_time a =? 0) eqn:Ept.
    + apply Z.eqb_eq in Ept. cbn. rewrite E2, E3, E5, E6, E7.
      split; [reflexivity |]. split.
      * intros _. rewrite neg_cast by lia. repeat split; reflexivity.
      * intros Hne. contradiction.
    + apply Z.eqb_neq in Ept.
      destruct (playback_now a) eqn:Epn; cbn; rewrite E2; cbn;
        rewrite ?E2; cbn; rewrite ?E1, ?E3, ?E4, ?E5, ?E6, ?E8;
        rewrite ?neg_cast by lia.
      * split; [reflexivity |]. split; [intros H0; contradiction |].
        intros _. do 3 (split; [reflexivity |]).
        split; intros H; [discriminate |].
        split; [reflexivity | apply int32_t_id; unfold is_int32; lia].
      * split; [reflexivity |]. split; [intros H0; contradiction |].
        intros _. do 3 (split; [reflexivity |]).
        split; intros H; [| discriminate].
        split; [reflexivity | apply int32_t_id; unfold is_int32; lia].
Qed.

(** The record of [st_playback] at the end of a forward leg: the count goes
    from 2 to 1, and the record enters its reverse leg: the elapsed time is
    minus the playback delay 20, the duration the playback time 300, and the
    range is swapped. *)
Lemma C4_ready_handler_restart_witness :
  ll_deref (_lv_anim_ll st_playback) 0
    = Some (start_stored quiet_callbacks anim_playback
              (_lv_anim_core_init 0 [])) /\
  ready_decrement (start_stored quiet_callbacks anim_playback
                     (_lv_anim_core_init 0 []))
    = set_repeat_cnt 1 (start_stored quiet_callbacks anim_playback
                          (_lv_anim_core_init 0 [])) /\
  exists a2,
    anim_ready_handler quiet_callbacks 0 st_playback
      = Some (set_ll (ll_store (_lv_anim_ll st_playback) 0 a2) st_playback) /\
    repeat_cnt a2 = 1 /\ playback_now a2 = true /\
    start_value a2 = 100 /\ end_value a2 = 0 /\
    act_time a2 = -20 /\ time a2 = 300.
Proof.
  split; [reflexivity |].
  assert (Ht : anim_typed (start_stored quiet_callbacks anim_playback
                             (_lv_anim_core_init 0 []))).
  { by_evaluation. }
  assert (Hf : timing_fits (start_stored quiet_callbacks anim_playback
                              (_lv_anim_core_init 0 []))).
  { by_evaluation. }
  destruct (C4_ready_handler_restart quiet_callbacks 0%nat st_playback
              (start_stored quiet_callbacks anim_playback
                 (_lv_anim_core_init 0 []))
              eq_refl Ht Hf) as (H1 & _ & H3).
  split; [apply H1; [reflexivity | reflexivity | discriminate] |].
  destruct (H3 eq_refl) as (a2 & Hh & Hrc & _ & Hpb).
  destruct Hpb as (Hpn & Hsv & Hev & Hin & _); [discriminate |].
  destruct (Hin eq_refl) as (Hat & Htm).
  exists a2. split; [exact Hh |]. split; [exact Hrc |].
  split; [exact Hpn |]. split; [exact Hsv |]. split; [exact Hev |].
  split; [exact Hat | exact Htm].
Defined.

(** C4 as stated fails: the record is not in its playback leg, its count is
    0 and not the sentinel, and the handler does not decrement it (a
    decrement would leave -1, or 65535 in 16 bits): the record enters its
    reverse leg with the count still 0. *)
Lemma C4_counterexample_zero_count :
  playback_now anim_no_repeat = false /\
  repeat_cnt anim_no_repeat = 0 /\
  LV_ANIM_REPEAT_INFINITE = 65535 /\
  act_time anim_no_repeat = time anim_no_repeat /\
  repeat_cnt (ready_decrement anim_no_repeat) = 0 /\
  option_map (fun st => map (fun n => (repeat_cnt (anim n), playback_now (anim n)))
                            (_lv_anim_ll st))
    (anim_ready_handler quiet_callbacks 0
       (set_ll [mk_node 0 anim_no_repeat] (_lv_anim_core_init 0 [])))
    = Some [(0, true)].
Proof. repeat split; vm_compute; reflexivity. Qed.

(* ================================================================== *)
(** ** The frame loop *)
(* ================================================================== *)

(* ------------------------------------------------------------------ *)
(** *** Nodes and pointers *)

Lemma ll_deref_in : forall l p r,
  ll_deref l p = Some r -> In (mk_node p r) l.
Proof.
  induction l as [| n l IH]; simpl; intros p r H; [discriminate |].
  destruct (Nat.eqb (addr n) p) eqn:E.
  - apply Nat.eqb_eq in E. injection H as <-. left.
    destruct n; simpl in *; now subst.
  - right. now apply IH.
Qed.

Lemma ll_deref_addr : forall l p r,
  ll_deref l p = Some r -> In p (map addr l).
Proof.
  intros l p r H. apply ll_deref_in in H.
  apply in_map_iff. now exists (mk_node p r).
Qed.

Lemma ll_store_addrs : forall l p a,
  map addr (ll_store l p a) = map addr l.
Proof.
  induction l as [| n l IH]; simpl; intros p a; [reflexivity |].
  destruct (Nat.eqb (addr n) p) eqn:E; simpl.
  - apply Nat.eqb_eq in E. now rewrite E.
  - now rewrite IH.
Qed.

Lemma ll_store_deref : forall l p a,
  In p (map addr l) -> ll_deref (ll_store l p a) p = Some a.
Proof.
  induction l as [| n l IH]; simpl; intros p a H; [contradiction |].
  destruct (Nat.eqb (addr n) p) eqn:E; simpl.
  - now rewrite Nat.eqb_refl.
  - rewrite E. apply IH. apply Nat.eqb_neq in E.
    destruct H; [contradiction | assumption].
Qed.

Lemma ll_store_twice : forall l p a b,
  ll_store (ll_store l p a) p b = ll_store l p b.
Proof.
  induction l as [| n l IH]; simpl; intros p a b; [reflexivity |].
  destruct (Nat.eqb (addr n) p) eqn:E; simpl.
  - now rewrite Nat.eqb_refl.
  - now rewrite E, IH.
Qed.

Lemma ll_store_in : forall l p a n,
  NoDup (map addr l) -> In n (ll_store l p a) ->
  n = mk_node p a \/ (In n l /\ addr n <> p).
Proof.
  induction l as [| x l IH]; simpl; intros p a n Hnd H; [contradiction |].
  inversion Hnd as [| ? ? Hx Hl]; subst.
  destruct (Nat.eqb (addr x) p) eqn:E.
  - apply Nat.eqb_eq in E. destruct H as [<- | H]; [now left |].
    right. split; [now right |]. intros En. apply Hx. rewrite E, <- En.
    now apply in_map.
  - apply Nat.eqb_neq in E. destruct H as [<- | H]; [right; tauto |].
    destruct (IH p a n Hl H) as [-> | (Hin & Hne)]; [now left |].
    right. tauto.
Qed.

Lemma ll_store_split : forall pre n suf a,
  ~ In (addr n) (map addr pre) ->
  ll_store (pre ++ n :: suf) (addr n) a = pre ++ mk_node (addr n) a :: suf.
Proof.
  induction pre as [| x pre IH]; simpl; intros n suf a H.
  - now rewrite Nat.eqb_refl.
  - destruct (Nat.eqb (addr x) (addr n)) eqn:E.
    + apply Nat.eqb_eq in E. exfalso. apply H. now left.
    + f_equal. apply IH. intros Hin. apply H. now right.
Qed.

Lemma heap_ok_remove : forall st p,
  heap_ok st -> heap_ok (set_ll (_lv_ll_remove (_lv_anim_ll st) p) st).
Proof.
  intros st p (Hnd & Hlt). split; simpl.
  - unfold _lv_ll_remove. now apply NoDup_map_filter.
  - intros n Hin. apply ll_remove_in in Hin. apply Hlt. tauto.
Qed.

Lemma heap_ok_store : forall st p a,
  heap_ok st -> heap_ok (set_ll (ll_store (_lv_anim_ll st) p a) st).
Proof.
  intros st p a (Hnd & Hlt). split; simpl.
  - now rewrite ll_store_addrs.
  - intros n Hin. destruct (ll_store_in _ _ _ _ Hnd Hin) as [-> | (H & _)].
    + simpl.
      assert (Hp : In p (map addr (ll_store (_lv_anim_ll st) p a))).
      { apply in_map_iff. now exists (mk_node p a). }
      rewrite ll_store_addrs in Hp. apply in_map_iff in Hp.
      destruct Hp as (m & <- & Hm). now apply Hlt.
    + now apply Hlt.
Qed.

Lemma heap_ok_mark : forall st,
  heap_ok st -> heap_ok (anim_mark_list_change st).
Proof.
  intros st (Hnd & Hlt). destruct (mark_frame st) as (_ & _ & _ & Hn & _).
  unfold heap_ok. rewrite mark_ll. cbv zeta in Hn. rewrite Hn. now split.
Qed.

(* ------------------------------------------------------------------ *)
(** *** API calls made from a callback *)

Lemma rounds_app : forall t1 t2, rounds (t1 ++ t2) = rounds t1 ++ rounds t2.
Proof. intros. unfold rounds. apply flat_map_app. Qed.

Lemma readies_app : forall t1 t2,
  readies (t1 ++ t2) = readies t1 ++ readies t2.
Proof. intros. unfold readies. apply flat_map_app. Qed.

Lemma api_step_refl : forall st, api_step st st.
Proof.
  intros st Hok. split; [assumption |]. split; [reflexivity |].
  split; [lia |]. split; [exists []; now rewrite app_nil_r |].
  split; [tauto |]. intros n Hn. now left.
Qed.

Lemma api_step_trans : forall st1 st2 st3,
  api_step st1 st2 -> api_step st2 st3 -> api_step st1 st3.
Proof.
  intros st1 st2 st3 H12 H23 Hok.
  destruct (H12 Hok) as (Hok2 & Hr2 & Hn2 & (e2 & He2 & Hrd2 & Hry2) & Hc2 & Hl2).
  destruct (H23 Hok2) as (Hok3 & Hr3 & Hn3 & (e3 & He3 & Hrd3 & Hry3) & Hc3 & Hl3).
  split; [assumption |]. split; [congruence |]. split; [lia |].
  split.
  { exists (e2 ++ e3). rewrite He3, He2, app_assoc.
    rewrite rounds_app, readies_app, Hrd2, Hrd3, Hry2, Hry3. auto. }
  split; [tauto |].
  intros n Hn. destruct (Hl3 n Hn) as [Hin | (Hge & Hu)].
  - destruct (Hl2 n Hin) as [Hin1 | (Hge & Hu)]; [now left |].
    right. split; [assumption |].
    unfold unprocessed in *. now rewrite Hr3.
  - right. split; [lia | assumption].
Qed.

Lemma lv_anim_del_changed : forall v cb st,
  anim_list_changed st = true ->
  anim_list_changed (snd (lv_anim_del v cb st)) = true.
Proof.
  intros v cb st H. unfold lv_anim_del.
  destruct (lv_anim_del_loop_spec (_lv_anim_ll st) v cb false st)
    as (_ & _ & Hc & _).
  rewrite Hc, H. reflexivity.
Qed.

Lemma api_step_del : forall v cb st, api_step st (snd (lv_anim_del v cb st)).
Proof.
  intros v cb st (Hnd & Hlt).
  pose proof (lv_anim_del_ll v cb st Hnd) as Hl.
  destruct (lv_anim_del_frame v cb st) as (_ & Hr & _ & Hn & _ & Ht).
  cbv zeta in *.
  split.
  { unfold heap_ok. rewrite Hl, Hn. split; [now apply NoDup_map_filter |].
    intros n Hin. apply filter_In in Hin. apply Hlt. tauto. }
  split; [assumption |]. split; [lia |].
  split; [exists []; rewrite app_nil_r; auto |].
  split; [apply lv_anim_del_changed |].
  intros n Hin. rewrite Hl in Hin. apply filter_In in Hin. left. tauto.
Qed.

Lemma api_step_del_all : forall st, api_step st (lv_anim_del_all st).
Proof.
  intros st Hok. unfold lv_anim_del_all, _lv_ll_clear.
  unfold anim_mark_list_change. simpl.
  split; [split; simpl; [constructor | intros n []] |].
  split; [reflexivity |]. split; [lia |].
  split; [exists []; rewrite app_nil_r; auto |].
  split; [reflexivity |]. intros n [].
Qed.

Lemma start_cleared_changed : forall a st,
  anim_list_changed st = true ->
  anim_list_changed (start_cleared a st) = true.
Proof.
  intros a st H. unfold start_cleared.
  destruct (exec_cb a =? NULL).
  - destruct (_lv_ll_is_empty _); simpl; assumption.
  - pose proof (lv_anim_del_changed (var a) (exec_cb a) st H) as Hc.
    destruct (_lv_ll_is_empty _); simpl; assumption.
Qed.

Lemma start_events_quiet : forall cbs a st,
  rounds (start_events cbs a st) = [] /\ readies (start_events cbs a st) = [].
Proof.
  intros cbs a st. unfold start_events.
  destruct (early_apply a); [| now split].
  destruct (get_value_cb a =? NULL);
    destruct (negb (exec_cb a =? NULL) && negb (var a =? NULL));
    now split.
Qed.

Lemma api_step_start : forall cbs a st, api_step st (lv_anim_start cbs a st).
Proof.
  intros cbs a st Hok. pose proof Hok as (Hnd & Hlt).
  destruct (next_alloc_ok st) eqn:Halloc.
  - destruct (lv_anim_start_ok cbs a st Hnd Halloc)
      as (Hl & Ht & Hn & _ & Hr & Hc & _).
    split; [now apply lv_anim_start_heap_ok |].
    split; [assumption |]. split; [lia |].
    split.
    { exists (start_events cbs a st). split; [assumption |].
      apply start_events_quiet. }
    split; [auto |].
    intros n Hin. rewrite Hl in Hin. destruct Hin as [<- | Hin].
    + right. simpl. split; [lia |].
      unfold unprocessed. simpl.
      destruct (start_stored_pair cbs a st) as (_ & _ & _ & Hrr).
      rewrite Hrr, Hr. apply xorb_nilpotent.
    + left. eapply start_keeps_incl; eauto.
  - destruct (start_cleared_spec a st Hnd) as (Hl & Hr & Hn & Hp & Ht & Hk).
    assert (Hplan : exists plan, heap_plan st = false :: plan).
    { unfold next_alloc_ok in Halloc.
      destruct (heap_plan st) as [| [|] plan]; try discriminate. eauto. }
    destruct Hplan as (plan & Hplan).
    rewrite (lv_anim_start_fail cbs a st plan) by (now rewrite Hp).
    split.
    { split; simpl; rewrite Hl; [now apply start_keeps_NoDup |].
      intros n Hin. rewrite Hn. apply Hlt. eapply start_keeps_incl; eauto. }
    split; [simpl; assumption |]. split; [simpl; lia |].
    split; [exists []; simpl; rewrite app_nil_r; auto |].
    split; [simpl; apply start_cleared_changed |].
    intros n Hin. simpl in Hin. rewrite Hl in Hin. left.
    eapply start_keeps_incl; eauto.
Qed.

Lemma api_step_run_api : forall cbs calls st,
  api_step st (run_api cbs calls st).
Proof.
  intros cbs calls. induction calls as [| c calls IH]; intros st; simpl.
  - apply api_step_refl.
  - destruct c as [a | v cb |].
    + eapply api_step_trans; [apply api_step_start | apply IH].
    + eapply api_step_trans; [apply api_step_del | apply IH].
    + eapply api_step_trans; [apply api_step_del_all | apply IH].
Qed.

(* ------------------------------------------------------------------ *)
(** *** One record in one frame *)

Lemma emit_emit_all : forall e evs st,
  emit e (emit_all evs st) = emit_all (evs ++ [e]) st.
Proof. intros. unfold emit, emit_all. simpl. now rewrite app_assoc. Qed.

Lemma emit_as_emit_all : forall e st, emit e st = emit_all [e] st.
Proof. reflexivity. Qed.

Lemma execs_app : forall t1 t2, execs (t1 ++ t2) = execs t1 ++ execs t2.
Proof. intros. unfold execs. apply flat_map_app. Qed.

Lemma same_schedule_trans : forall a b c,
  same_schedule a b -> same_schedule b c -> same_schedule a c.
Proof.
  unfold same_schedule. intros a b c H1 H2.
  destruct H1 as (A1 & A2 & A3 & A4 & A5 & A6 & A7 & A8 & A9 & A10 & A11
                  & A12 & A13 & A14).
  destruct H2 as (B1 & B2 & B3 & B4 & B5 & B6 & B7 & B8 & B9 & B10 & B11
                  & B12 & B13 & B14).
  repeat split; congruence.
Qed.

(** The head of the round: the node is marked, [get_value_cb] (for a record
    without early apply) and [start_cb] may be called, and the elapsed time
    is advanced. *)
Lemma round_tick_spec : forall cbs elaps p a st,
  exists a1 evs,
    round_tick cbs elaps p a st = (a1, emit_all (ev_round p :: evs) st) /\
    rounds evs = [] /\ readies evs = [] /\ execs evs = [] /\
    same_schedule a a1 /\ run_round a1 = anim_run_round st /\
    act_time a1 = advanced_time elaps a /\
    current_value a1 = current_value a /\
    (early_apply a = true \/ get_value_cb a = NULL ->
       start_value a1 = start_value a /\ end_value a1 = end_value a).
Proof.
  intros cbs elaps p a st. unfold round_tick, round_first_tick.
  rewrite emit_as_emit_all. cbn [act_time set_run_round].
  change (early_apply (set_run_round (anim_run_round st) a))
    with (early_apply a).
  change (get_value_cb (set_run_round (anim_run_round st) a))
    with (get_value_cb a).
  destruct (_ && _).
  - destruct (negb (early_apply a) && negb (get_value_cb a =? NULL)) eqn:Eo.
    + unfold apply_value_offset. cbv iota beta.
      change (start_cb (offset_record cbs
                (set_run_round (anim_run_round st) a)
                (trace (emit_all [ev_round p] st)))) with (start_cb a).
      assert (Hno : early_apply a = true \/ get_value_cb a = NULL -> False).
      { apply andb_true_iff in Eo. destruct Eo as (E1 & E2).
        apply negb_true_iff in E1, E2. apply Z.eqb_neq in E2.
        intros [H | H]; congruence. }
      destruct (start_cb a =? NULL).
      * eexists _, [ev_get_value _ _]. rewrite emit_emit_all.
        split; [reflexivity |].
        repeat split; try reflexivity; exfalso; auto.
      * eexists _, [ev_get_value _ _; ev_start _ _].
        rewrite !emit_emit_all, <- app_assoc.
        split; [reflexivity |].
        repeat split; try reflexivity; exfalso; auto.
    + cbv iota beta.
      change (start_cb (set_run_round (anim_run_round st) a))
        with (start_cb a).
      destruct (start_cb a =? NULL).
      * eexists _, []. split; [reflexivity |]. repeat split; reflexivity.
      * eexists _, [ev_start _ _]. rewrite emit_emit_all.
        split; [reflexivity |]. repeat split; reflexivity.
  - eexists _, []. split; [reflexivity |]. repeat split; reflexivity.
Qed.

Lemma round_clamp_spec : forall a,
  same_schedule a (round_clamp a) /\
  run_round (round_clamp a) = run_round a /\
  current_value (round_clamp a) = current_value a /\
  start_value (round_clamp a) = start_value a /\
  end_value (round_clamp a) = end_value a /\
  act_time (round_clamp a) = Z.min (act_time a) (time a).
Proof.
  intros a. unfold round_clamp.
  destruct (act_time a >? time a) eqn:E.
  - repeat split; try reflexivity. simpl. lia.
  - repeat split; try reflexivity. lia.
Qed.

(** The apply step: the value of the path function becomes the current
    value, and [exec_cb] is called with it when it differs from the one
    before and [exec_cb] is set. *)
Lemma round_apply_detail : forall cbs a st0 evs0,
  let r := round_apply cbs a (emit_all evs0 st0) in
  let evs := if (path_call cbs a =? current_value a) || (exec_cb a =? NULL)
             then []
             else [ev_exec (exec_cb a) (var a) (path_call cbs a)] in
  snd r = emit_all (evs0 ++ evs) st0 /\
  same_schedule a (fst r) /\ run_round (fst r) = run_round a /\
  act_time (fst r) = act_time a /\
  start_value (fst r) = start_value a /\ end_value (fst r) = end_value a /\
  current_value (fst r) = path_call cbs a.
Proof.
  intros cbs a st0 evs0. cbv zeta. unfold round_apply.
  destruct (path_call cbs a =? current_value a) eqn:E; cbn [negb orb].
  - apply Z.eqb_eq in E. cbn [fst snd]. rewrite app_nil_r.
    repeat split; try reflexivity. now symmetry.
  - destruct (exec_cb a =? NULL); cbn [fst snd].
    + rewrite app_nil_r. repeat split; reflexivity.
    + rewrite emit_emit_all. repeat split; reflexivity.
Qed.

(** The body of the round up to the ready test: it only appends to the
    trace, first the mark of the node, and leaves the record with the parity
    of the round; the time has elapsed when the advanced elapsed time is
    neither negative nor below the duration. *)
Lemma round_advance_spec : forall cbs elaps p a st,
  exists a' evs,
    round_advance cbs elaps p a st
      = (a', emit_all (ev_round p :: evs) st,
         (0 <=? advanced_time elaps a) && (time a <=? advanced_time elaps a)) /\
    rounds evs = [] /\ readies evs = [] /\
    same_schedule a a' /\ run_round a' = anim_run_round st /\
    act_time a' = (if 0 <=? advanced_time elaps a
                   then Z.min (advanced_time elaps a) (time a)
                   else advanced_time elaps a).
Proof.
  intros cbs elaps p a st. unfold round_advance.
  destruct (round_tick_spec cbs elaps p a st)
    as (a1 & e1 & H1 & R1 & Y1 & X1 & S1 & RR1 & T1 & _).
  rewrite H1. rewrite T1.
  assert (Etime : time a1 = time a)
    by (destruct S1 as (_ & _ & _ & _ & _ & _ & Ht & _); exact Ht).
  destruct (advanced_time elaps a >=? 0) eqn:E0.
  - destruct (round_clamp_spec a1) as (S2 & RR2 & _ & _ & _ & T2).
    pose proof (round_apply_detail cbs (round_clamp a1) st (ev_round p :: e1))
      as D. cbv zeta in D.
    destruct (round_apply cbs (round_clamp a1)
                (emit_all (ev_round p :: e1) st)) as [a4 st4].
    cbn [fst snd] in D. destruct D as (H4 & S4 & RR4 & T4 & _).
    subst st4.
    assert (S14 : same_schedule a a4).
    { eapply same_schedule_trans; [exact S1 |].
      eapply same_schedule_trans; [exact S2 | exact S4]. }
    assert (Etime4 : time a4 = time a)
      by (destruct S14 as (_ & _ & _ & _ & _ & _ & Ht & _); exact Ht).
    eexists a4, _. split.
    { simpl app. f_equal. rewrite T4, T2, T1, Etime, Etime4.
      replace (0 <=? advanced_time elaps a) with true by (symmetry; lia).
      simpl. destruct (time a <=? advanced_time elaps a) eqn:E1; lia. }
    rewrite rounds_app, readies_app, R1, Y1.
    split; [destruct (_ || _); reflexivity |].
    split; [destruct (_ || _); reflexivity |].
    split; [exact S14 |]. split; [congruence |].
    rewrite T4, T2, T1, Etime.
    replace (0 <=? advanced_time elaps a) with true by (symmetry; lia).
    reflexivity.
  - exists a1, e1. split.
    { replace (0 <=? advanced_time elaps a) with false by (symmetry; lia).
      reflexivity. }
    split; [exact R1 |]. split; [exact Y1 |]. split; [exact S1 |].
    split; [exact RR1 |].
    replace (0 <=? advanced_time elaps a) with false by (symmetry; lia).
    exact T1.
Qed.

Lemma ready_handler_keeps_round : forall a,
  run_round (ready_restart (ready_decrement a)) = run_round a /\
  run_round (ready_decrement a) = run_round a.
Proof.
  intros a.
  assert (H : run_round (ready_decrement a) = run_round a).
  { unfold ready_decrement. destruct (_ && _); reflexivity. }
  split; [| exact H]. rewrite <- H.
  unfold ready_restart. cbn [playback_time set_act_time].
  destruct (playback_time (ready_decrement a) =? 0); [reflexivity |].
  cbn. destruct (playback_now (ready_decrement a)); reflexivity.
Qed.

Lemma anim_ready_handler_spec : forall cbs p a st,
  heap_ok st -> ll_deref (_lv_anim_ll st) p = Some a ->
  run_round a = anim_run_round st ->
  exists st',
    anim_ready_handler cbs p st = Some st' /\
    heap_ok st' /\ anim_run_round st' = anim_run_round st /\
    (heap_next st <= heap_next st')%nat /\
    (exists evs, trace st' = trace st ++ evs /\ rounds evs = []) /\
    round_nodes p st st' /\
    (ready_terminal (ready_decrement a) = true ->
       anim_list_changed st' = true) /\
    (ready_terminal (ready_decrement a) = false ->
       st' = set_ll (ll_store (_lv_anim_ll st) p
                       (ready_restart (ready_decrement a))) st).
Proof.
  intros cbs p a st Hok Hd Hrr. unfold anim_ready_handler. rewrite Hd.
  destruct (ready_terminal (ready_decrement a)) eqn:Hterm.
  - set (st1 := anim_mark_list_change
                  (set_ll (_lv_ll_remove (_lv_anim_ll st) p) st)).
    assert (Hok1 : heap_ok st1)
      by (apply heap_ok_mark; now apply heap_ok_remove).
    assert (Hl1 : _lv_anim_ll st1 = _lv_ll_remove (_lv_anim_ll st) p)
      by (unfold st1; now rewrite mark_ll).
    assert (Hc1 : anim_list_changed st1 = true) by apply mark_changed.
    destruct (mark_frame (set_ll (_lv_ll_remove (_lv_anim_ll st) p) st))
      as (_ & Hr1 & _ & Hn1 & _ & Ht1).
    fold st1 in Hr1, Hn1, Ht1. simpl in Hr1, Hn1, Ht1.
    destruct (ready_cb (ready_decrement a) =? NULL).
    + exists st1. split; [reflexivity |]. split; [assumption |].
      split; [assumption |]. split; [lia |].
      split; [exists []; rewrite app_nil_r; auto |].
      split; [| split; [auto | discriminate]].
      intros n Hin. rewrite Hl1 in Hin. apply ll_remove_in in Hin.
      right. left. exact Hin.
    + unfold call_ready_cb.
      set (a_tmp := ready_decrement a).
      set (st2 := emit (ev_ready (ready_cb a_tmp) a_tmp) st1).
      assert (Hok2 : heap_ok st2) by exact Hok1.
      destruct (api_step_run_api cbs
                  (ready_body cbs (ready_cb a_tmp) a_tmp) st2 Hok2)
        as (Hok3 & Hr3 & Hn3 & (evs & He3 & Hrd3 & _) & Hc3 & Hl3).
      eexists. split; [reflexivity |]. split; [assumption |].
      split; [rewrite Hr3; exact Hr1 |].
      split; [simpl in Hn3; lia |].
      split.
      { exists (ev_ready (ready_cb a_tmp) a_tmp :: evs).
        rewrite He3. simpl. rewrite Ht1, <- app_assoc. simpl. auto. }
      split; [| split; [intros _; apply Hc3; exact Hc1 | discriminate]].
      intros n Hin. destruct (Hl3 n Hin) as [Hold | (Hge & Hu)].
      * simpl in Hold. rewrite Hl1 in Hold. apply ll_remove_in in Hold.
        right. left. exact Hold.
      * right. right. simpl in Hge. split; [lia | assumption].
  - eexists. split; [reflexivity |].
    split; [now apply heap_ok_store |]. split; [reflexivity |].
    split; [simpl; lia |].
    split; [exists []; simpl; rewrite app_nil_r; auto |].
    split; [| split; [discriminate | reflexivity]].
    intros n Hin. simpl in Hin. destruct Hok as (Hnd & _).
    destruct (ll_store_in _ _ _ _ Hnd Hin) as [-> | H].
    + left. simpl. split; [reflexivity |].
      unfold unprocessed. simpl.
      destruct (ready_handler_keeps_round a) as (-> & _).
      rewrite Hrr. apply xorb_nilpotent.
    + right. left. exact H.
Qed.

Lemma ll_of_emit_all : forall evs st,
  _lv_anim_ll (emit_all evs st) = _lv_anim_ll st.
Proof. reflexivity. Qed.

(** One round of one record: the round returns, the node is marked once,
    and the registry is left as [round_nodes] says; when
    [anim_list_changed] is still down, only the record of the node has
    changed. *)
Lemma anim_timer_round_spec : forall cbs elaps p r st,
  heap_ok st -> ll_deref (_lv_anim_ll st) p = Some r ->
  exists st',
    anim_timer_round cbs elaps p r st = Some st' /\
    heap_ok st' /\ anim_run_round st' = anim_run_round st /\
    (heap_next st <= heap_next st')%nat /\
    (exists evs, trace st' = trace st ++ ev_round p :: evs /\ rounds evs = []) /\
    round_nodes p st st' /\
    (anim_list_changed st = false -> anim_list_changed st' = false ->
     exists a'', _lv_anim_ll st' = ll_store (_lv_anim_ll st) p a'' /\
                 run_round a'' = anim_run_round st).
Proof.
  intros cbs elaps p r st Hok Hd. pose proof Hok as (Hnd & Hlt).
  unfold anim_timer_round.
  destruct (round_advance_spec cbs elaps p r st)
    as (a' & evs & Hadv & Hrd & _ & _ & Hrr & _).
  rewrite Hadv. rewrite ll_of_emit_all.
  set (ready := (0 <=? advanced_time elaps r) && (time r <=? advanced_time elaps r)).
  set (st_a := set_ll (ll_store (_lv_anim_ll st) p a')
                 (emit_all (ev_round p :: evs) st)).
  assert (Hok_a : heap_ok st_a).
  { apply (heap_ok_store (emit_all (ev_round p :: evs) st) p a'). exact Hok. }
  assert (Hstore : forall n, In n (_lv_anim_ll st_a) ->
            (addr n = p /\ unprocessed st_a n = false) \/
            (In n (_lv_anim_ll st) /\ addr n <> p)).
  { intros n Hin. simpl in Hin.
    destruct (ll_store_in _ _ _ _ Hnd Hin) as [-> | H]; [left | now right].
    split; [reflexivity |]. unfold unprocessed. simpl.
    rewrite Hrr. apply xorb_nilpotent. }
  destruct ready.
  - assert (Hd_a : ll_deref (_lv_anim_ll st_a) p = Some a').
    { simpl. apply ll_store_deref. eapply ll_deref_addr; eauto. }
    destruct (anim_ready_handler_spec cbs p a' st_a Hok_a Hd_a Hrr)
      as (st' & Hh & Hok' & Hr' & Hn' & (evs' & He' & Hrd') & Hnodes & Ht & Hnt).
    exists st'. split; [exact Hh |]. split; [exact Hok' |].
    split; [exact Hr' |]. split; [exact Hn' |].
    split.
    { exists (evs ++ evs'). rewrite He'. simpl.
      rewrite <- app_assoc. simpl. split; [reflexivity |].
      now rewrite rounds_app, Hrd, Hrd'. }
    split.
    { intros n Hin. destruct (Hnodes n Hin) as [H | [(Hold & Hne) | H]].
      - now left.
      - destruct (Hstore n Hold) as [(E & _) | H]; [contradiction |].
        right. now left.
      - right. now right. }
    intros Hc0 Hc'.
    destruct (ready_terminal (ready_decrement a')) eqn:Hterm.
    + rewrite Ht in Hc' by reflexivity. discriminate.
    + exists (ready_restart (ready_decrement a')).
      rewrite Hnt by reflexivity. simpl. rewrite ll_store_twice.
      split; [reflexivity |].
      destruct (ready_handler_keeps_round a') as (-> & _). exact Hrr.
  - exists st_a. split; [reflexivity |]. split; [exact Hok_a |].
    split; [reflexivity |]. split; [simpl; lia |].
    split; [exists evs; simpl; auto |].
    split.
    { intros n Hin. destruct (Hstore n Hin) as [H | H]; [now left |].
      right. now left. }
    intros _ _. exists a'. split; [reflexivity | exact Hrr].
Qed.

(* ------------------------------------------------------------------ *)
(** *** The loop *)

Lemma deref_at_cursor : forall pre n suf,
  ~ In (addr n) (map addr pre) ->
  ll_deref (pre ++ n :: suf) (addr n) = Some (anim n).
Proof.
  induction pre as [| x pre IH]; simpl; intros n suf H.
  - now rewrite Nat.eqb_refl.
  - destruct (Nat.eqb (addr x) (addr n)) eqn:E.
    + apply Nat.eqb_eq in E. exfalso. apply H. now left.
    + apply IH. intros Hin. apply H. now right.
Qed.

Lemma cursor_fresh : forall pre n suf,
  NoDup (map addr (pre ++ n :: suf)) -> ~ In (addr n) (map addr pre).
Proof.
  intros pre n suf H. rewrite map_app in H. simpl in H.
  apply NoDup_remove_2 in H. intros Hin. apply H. apply in_or_app. now left.
Qed.

Lemma NoDup_snoc : forall (l : list nat) x,
  NoDup l -> ~ In x l -> NoDup (l ++ [x]).
Proof.
  induction l as [| y l IH]; simpl; intros x Hnd Hx.
  - constructor; [intros [] | constructor].
  - inversion Hnd as [| ? ? Hy Hl]; subst. constructor.
    + intros Hin. apply in_app_or in Hin. destruct Hin as [Hin | [-> | []]].
      * contradiction.
      * apply Hx. now left.
    + apply IH; [assumption |]. intros Hin. apply Hx. now right.
Qed.

Lemma pending_in : forall st q,
  In q (pending st) <->
  exists n, In n (_lv_anim_ll st) /\ unprocessed st n = true /\ addr n = q.
Proof.
  intros st q. unfold pending. rewrite in_map_iff. split.
  - intros (n & E & Hin). apply filter_In in Hin. exists n. tauto.
  - intros (n & Hin & Hu & E). exists n. split; [assumption |].
    apply filter_In. tauto.
Qed.

Lemma pending_NoDup : forall st, heap_ok st -> NoDup (pending st).
Proof. intros st (Hnd & _). unfold pending. now apply NoDup_map_filter. Qed.

(** The cursor is on a node that has run: the loop moves to the next one. *)
Lemma loop_step_processed : forall cbs elaps tr0 h0 rr st pre n suf,
  loop_inv tr0 h0 rr st pre (n :: suf) ->
  unprocessed st n = false ->
  let st0 := set_anim_list_changed false st in
  (forall f, anim_timer_loop cbs elaps (S f) (Some (addr n)) st
             = anim_timer_loop cbs elaps f (_lv_ll_get_head suf) st0) /\
  loop_inv tr0 h0 rr st0 (pre ++ [n]) suf /\
  pending st0 = pending st.
Proof.
  intros cbs elaps tr0 h0 rr st pre n suf Hinv Hu.
  destruct Hinv as (Hok & Hrr & Hh & Hl & Hpre & Hold & Hev).
  pose proof Hok as (Hnd & _). rewrite Hl in Hnd.
  pose proof (cursor_fresh _ _ _ Hnd) as Hfresh.
  cbv zeta. split; [| split].
  - intros f. simpl. rewrite Hl, (deref_at_cursor _ _ _ Hfresh).
    unfold unprocessed in Hu. rewrite Hu. simpl.
    rewrite Hl, (deref_at_cursor _ _ _ Hfresh).
    now rewrite (get_next_app _ _ _ Hfresh).
  - split; [exact Hok |]. split; [exact Hrr |]. split; [exact Hh |].
    split; [simpl; rewrite Hl, <- app_assoc; reflexivity |].
    split.
    { intros m Hin. apply in_app_or in Hin.
      destruct Hin as [Hin | [<- | []]]; [now apply Hpre | exact Hu]. }
    split; [exact Hold | exact Hev].
  - reflexivity.
Qed.

(** The cursor is on a node that has not run: its round runs, and fewer
    nodes are pending afterwards. *)
Lemma loop_step_unprocessed : forall cbs elaps tr0 h0 rr st pre n suf,
  loop_inv tr0 h0 rr st pre (n :: suf) ->
  unprocessed st n = true ->
  exists st1 pre1 suf1,
    (forall f, anim_timer_loop cbs elaps (S f) (Some (addr n)) st
               = anim_timer_loop cbs elaps f (_lv_ll_get_head suf1) st1) /\
    loop_inv tr0 h0 rr st1 pre1 suf1 /\
    (length (pending st1) < length (pending st))%nat.
Proof.
  intros cbs elaps tr0 h0 rr st pre n suf Hinv Hu.
  destruct Hinv as (Hok & Hrr & Hh & Hl & Hpre & Hold & Hev).
  destruct Hev as (evs & Htr & Hnd_ev & Hvis & Hran).
  pose proof Hok as (Hnd & Hlt).
  assert (Hnd' : NoDup (map addr (pre ++ n :: suf))) by (now rewrite <- Hl).
  pose proof (cursor_fresh _ _ _ Hnd') as Hfresh.
  set (st0 := set_anim_list_changed false st).
  assert (Hok0 : heap_ok st0) by exact Hok.
  assert (Hd0 : ll_deref (_lv_anim_ll st) (addr n) = Some (anim n)).
  { rewrite Hl. now apply deref_at_cursor. }
  destruct (anim_timer_round_spec cbs elaps (addr n) (anim n) st0 Hok0 Hd0)
    as (st1 & Hround & Hok1 & Hr1 & Hn1 & (evs1 & He1 & Hrd1) & Hnodes & Hsame).
  simpl in Hr1, Hn1, He1.
  assert (Hin_n : In n (_lv_anim_ll st)).
  { rewrite Hl. apply in_or_app. right. now left. }
  assert (Hp_pending : In (addr n) (pending st)).
  { apply pending_in. exists n. tauto. }
  (* a pending node of st1 was a pending node of st, and is not n *)
  assert (Hpend : forall q, In q (pending st1) ->
                            In q (pending st) /\ q <> addr n).
  { intros q Hq. apply pending_in in Hq. destruct Hq as (m & Hm & Hum & <-).
    destruct (Hnodes m Hm) as [(_ & Hf) | [(Hm0 & Hne) | (_ & Hf)]];
      try congruence.
    split; [| exact Hne]. apply pending_in. exists m.
    split; [exact Hm0 |]. split; [| reflexivity].
    unfold unprocessed in *. now rewrite <- Hr1. }
  assert (Hless : (length (pending st1) < length (pending st))%nat).
  { assert (Hnd1 : NoDup (addr n :: pending st1)).
    { constructor; [| now apply pending_NoDup].
      intros Hc. apply Hpend in Hc. destruct Hc as (_ & Hc). now apply Hc. }
    assert (Hincl : incl (addr n :: pending st1) (pending st)).
    { intros q [<- | Hq]; [exact Hp_pending | now apply Hpend]. }
    pose proof (NoDup_incl_length Hnd1 Hincl) as Hlen. simpl in Hlen. lia. }
  (* the part of the invariant that does not depend on the cursor *)
  assert (Hcommon :
    (forall m, In m (_lv_anim_ll st1) -> unprocessed st1 m = true ->
               (addr m < h0)%nat) /\
    exists evs',
      trace st1 = tr0 ++ evs' /\ NoDup (rounds evs') /\
      (forall q, In q (rounds evs') -> (q < h0)%nat /\ ~ In q (pending st1)) /\
      (forall m, In m (_lv_anim_ll st1) -> (addr m < h0)%nat ->
                 unprocessed st1 m = false -> In (addr m) (rounds evs'))).
  { split.
    { intros m Hm Hum.
      assert (Hq : In (addr m) (pending st1)).
      { apply pending_in. exists m. tauto. }
      apply Hpend in Hq. destruct Hq as (Hq & _).
      apply pending_in in Hq. destruct Hq as (m' & Hm' & Hum' & E).
      rewrite <- E. now apply Hold. }
    exists (evs ++ ev_round (addr n) :: evs1).
    assert (Erounds : rounds (evs ++ ev_round (addr n) :: evs1)
                      = rounds evs ++ [addr n]).
    { rewrite rounds_app. simpl. now rewrite Hrd1. }
    rewrite Erounds.
    split; [rewrite He1, Htr, <- app_assoc; reflexivity |].
    split.
    { apply NoDup_snoc; [exact Hnd_ev |]. intros Hc.
      apply Hvis in Hc. destruct Hc as (_ & Hc). now apply Hc. }
    split.
    { intros q Hq. apply in_app_or in Hq. destruct Hq as [Hq | [<- | []]].
      - destruct (Hvis q Hq) as (Hq1 & Hq2). split; [exact Hq1 |].
        intros Hc. apply Hpend in Hc. tauto.
      - split; [now apply Hold |]. intros Hc. apply Hpend in Hc. tauto. }
    intros m Hm Hm0 Hum. apply in_or_app.
    destruct (Hnodes m Hm) as [(E & _) | [(Hm' & Hne) | (Hge & _)]].
    - right. left. now symmetry.
    - left. apply Hran; [exact Hm' | exact Hm0 |].
      unfold unprocessed in *. now rewrite <- Hr1.
    - simpl in Hge. lia. }
  destruct Hcommon as (Hold1 & Hev1).
  destruct (anim_list_changed st1) eqn:Hc1.
  - (* the list changed: back to the head *)
    exists st1, [], (_lv_anim_ll st1).
    split.
    { intros f. simpl. fold st0. rewrite Hd0.
      unfold unprocessed in Hu.
      change (anim_run_round st0) with (anim_run_round st). rewrite Hu.
      rewrite Hround, Hc1. reflexivity. }
    split; [| exact Hless].
    split; [exact Hok1 |]. split; [congruence |]. split; [lia |].
    split; [reflexivity |]. split; [intros m [] |].
    split; [exact Hold1 | exact Hev1].
  - (* only the record of the node changed: on to the next node *)
    destruct (Hsame eq_refl eq_refl) as (a'' & Hl1 & Hrr1).
    simpl in Hl1, Hrr1. rewrite Hl in Hl1.
    rewrite (ll_store_split _ _ _ _ Hfresh) in Hl1.
    exists st1, (pre ++ [mk_node (addr n) a'']), suf.
    assert (Hfresh1 : ~ In (addr (mk_node (addr n) a'')) (map addr pre))
      by exact Hfresh.
    split.
    { intros f. simpl. fold st0. rewrite Hd0.
      unfold unprocessed in Hu.
      change (anim_run_round st0) with (anim_run_round st). rewrite Hu.
      rewrite Hround, Hc1, Hl1.
      assert (Hd1 : ll_deref (pre ++ mk_node (addr n) a'' :: suf) (addr n)
                    = Some a'')
        by exact (deref_at_cursor pre (mk_node (addr n) a'') suf Hfresh1).
      assert (Hg1 : _lv_ll_get_next (pre ++ mk_node (addr n) a'' :: suf)
                      (addr n) = _lv_ll_get_head suf)
        by exact (get_next_app pre (mk_node (addr n) a'') suf Hfresh1).
      now rewrite Hd1, Hg1. }
    split; [| exact Hless].
    split; [exact Hok1 |]. split; [congruence |]. split; [lia |].
    split; [rewrite Hl1, <- app_assoc; reflexivity |].
    split; [| split; [exact Hold1 | exact Hev1]].
    intros m Hm. apply in_app_or in Hm. destruct Hm as [Hm | [<- | []]].
    + assert (Hum : unprocessed st m = false) by (now apply Hpre).
      unfold unprocessed in *. now rewrite Hr1.
    + unfold unprocessed. simpl. rewrite Hrr1, Hr1. apply xorb_nilpotent.
Qed.

(** The loop of [anim_timer] ends, whatever the ready callbacks do to the
    registry, and what it leaves is [loop_post]. *)
Lemma anim_timer_loop_terminates : forall cbs elaps tr0 h0 rr k suf pre st,
  loop_inv tr0 h0 rr st pre suf ->
  (length (pending st) <= k)%nat ->
  exists fuel st',
    (forall f, (fuel <= f)%nat ->
       anim_timer_loop cbs elaps f (_lv_ll_get_head suf) st = Done st') /\
    loop_post tr0 h0 rr st'.
Proof.
  intros cbs elaps tr0 h0 rr k.
  induction k as [k IHk] using lt_wf_ind.
  induction suf as [| n suf IHsuf]; intros pre st Hinv Hk.
  - exists 0%nat, st. split.
    + intros f _. destruct f; reflexivity.
    + destruct Hinv as (Hok & Hrr & Hh & Hl & Hpre & Hold & Hev).
      rewrite app_nil_r in Hl.
      destruct Hev as (evs & Htr & Hnd & Hvis & Hran).
      split; [exact Hok |]. split; [exact Hrr |]. split; [exact Hh |].
      split; [intros m Hm; apply Hpre; now rewrite <- Hl |].
      exists evs. split; [exact Htr |]. split; [exact Hnd |].
      split; [intros q Hq; now apply Hvis |].
      intros m Hm Hm0. apply Hran; [exact Hm | exact Hm0 |].
      apply Hpre. now rewrite <- Hl.
  - destruct (unprocessed st n) eqn:Hu.
    + destruct (loop_step_unprocessed cbs elaps tr0 h0 rr st pre n suf Hinv Hu)
        as (st1 & pre1 & suf1 & Hstep & Hinv1 & Hless).
      destruct (IHk (length (pending st1))) with (suf := suf1) (pre := pre1)
        (st := st1) as (fuel & st' & Hrun & Hpost);
        [lia | exact Hinv1 | lia |].
      exists (S fuel), st'. split; [| exact Hpost].
      intros f Hf. destruct f as [| f]; [lia |].
      simpl _lv_ll_get_head. rewrite Hstep. apply Hrun. lia.
    + destruct (loop_step_processed cbs elaps tr0 h0 rr st pre n suf Hinv Hu)
        as (Hstep & Hinv0 & Hpend).
      destruct (IHsuf (pre ++ [n]) (set_anim_list_changed false st) Hinv0)
        as (fuel & st' & Hrun & Hpost); [now rewrite Hpend |].
      exists (S fuel), st'. split; [| exact Hpost].
      intros f Hf. destruct f as [| f]; [lia |].
      simpl _lv_ll_get_head. rewrite Hstep. apply Hrun. lia.
Qed.

Lemma flipped_unprocessed : forall st n,
  unprocessed st n = false ->
  unprocessed (set_anim_run_round (negb (anim_run_round st)) st) n = true.
Proof.
  intros st n. unfold unprocessed. simpl.
  destruct (run_round (anim n)), (anim_run_round st); simpl; congruence.
Qed.

(** At the start of a frame, after the parity was flipped, the invariant of
    the loop holds with the cursor on the head. *)
Lemma frame_start_inv : forall st,
  registry_ok st ->
  loop_inv (trace st) (heap_next st) (negb (anim_run_round st))
    (set_anim_run_round (negb (anim_run_round st)) st) [] (_lv_anim_ll st).
Proof.
  intros st (Hok & Hpar).
  split; [exact Hok |]. split; [reflexivity |]. split; [simpl; lia |].
  split; [reflexivity |]. split; [intros m [] |].
  split; [intros m Hm _; now apply Hok |].
  exists []. split; [simpl; now rewrite app_nil_r |].
  split; [constructor |]. split; [intros q [] |].
  intros m Hm _ Hu. apply Hpar in Hm.
  apply flipped_unprocessed in Hm. congruence.
Qed.

(** A run of the loop that returned returns the same with more fuel. *)
Lemma anim_timer_loop_more_fuel : forall cbs elaps f a st st',
  anim_timer_loop cbs elaps f a st = Done st' ->
  forall f', (f <= f')%nat -> anim_timer_loop cbs elaps f' a st = Done st'.
Proof.
  intros cbs elaps f. induction f as [| f IH]; intros a st st' H f' Hf.
  - destruct a as [p |]; [discriminate |].
    destruct f'; exact H.
  - destruct a as [p |]; [| destruct f'; exact H].
    destruct f' as [| f']; [lia |].
    simpl in *.
    destruct (ll_deref (_lv_anim_ll st) p) as [r |]; [| discriminate].
    destruct (if xorb (run_round r) (anim_run_round st)
              then anim_timer_round cbs elaps p r
                     (set_anim_list_changed false st)
              else Some (set_anim_list_changed false st)) as [st1 |];
      [| discriminate].
    destruct (anim_list_changed st1).
    + apply IH; [exact H | lia].
    + destruct (ll_deref (_lv_anim_ll st1) p); [| discriminate].
      apply IH; [exact H | lia].
Qed.

(** A frame that returned leaves a registry between two frames. *)
Lemma frame_keeps_registry_ok : forall cbs f st st',
  registry_ok st -> anim_timer cbs f st = Done st' -> registry_ok st'.
Proof.
  intros cbs f st st' Hreg Hdone.
  destruct (anim_timer_loop_terminates cbs
              (lv_tick_elaps (last_timer_run st) st) (trace st) (heap_next st)
              (negb (anim_run_round st))
              (length (pending (set_anim_run_round
                                  (negb (anim_run_round st)) st)))
              (_lv_anim_ll st) []
              (set_anim_run_round (negb (anim_run_round st)) st)
              (frame_start_inv st Hreg) (le_n _))
    as (fuel & st1 & Hrun & Hpost).
  unfold anim_timer in Hdone.
  change (_lv_anim_ll (set_anim_run_round (negb (anim_run_round st)) st))
    with (_lv_anim_ll st) in Hdone.
  destruct (anim_timer_loop cbs (lv_tick_elaps (last_timer_run st) st) f
              (_lv_ll_get_head (_lv_anim_ll st))
              (set_anim_run_round (negb (anim_run_round st)) st))
    as [st2 | |] eqn:Hloop; try discriminate.
  injection Hdone as <-.
  pose proof (anim_timer_loop_more_fuel _ _ _ _ _ _ Hloop (Nat.max f fuel)
                (Nat.le_max_l _ _)) as H1.
  rewrite (Hrun (Nat.max f fuel) (Nat.le_max_r _ _)) in H1.
  injection H1 as ->.
  destruct Hpost as (Hok1 & _ & _ & Hall & _).
  split; [exact Hok1 | exact Hall].
Qed.

Lemma registry_ok_run_api : forall cbs calls st,
  registry_ok st -> registry_ok (run_api cbs calls st).
Proof.
  intros cbs calls st (Hok & Hpar).
  destruct (api_step_run_api cbs calls st Hok)
    as (Hok' & Hr & _ & _ & _ & Hnodes).
  split; [exact Hok' |]. intros n Hn.
  destruct (Hnodes n Hn) as [Hold | (_ & Hu)]; [| exact Hu].
  apply Hpar in Hold. unfold unprocessed in *. now rewrite Hr.
Qed.

(** Every state between two frames is a registry between two frames. *)
Lemma reachable_registry_ok : forall cbs st,
  reachable cbs st -> registry_ok st.
Proof.
  intros cbs st H. induction H as [now plan | st calls _ IH | st now _ IH
                                   | st plan _ IH | st fuel st' _ IH Hdone].
  - split; [split; [constructor | intros n []] | intros n []].
  - now apply registry_ok_run_api.
  - exact IH.
  - exact IH.
  - eapply frame_keeps_registry_ok; eauto.
Qed.

Lemma reachable_start : forall cbs a st,
  reachable cbs st -> reachable cbs (lv_anim_start cbs a st).
Proof. intros cbs a st H. exact (reach_api cbs st [call_start a] H). Qed.

(** [st_stress] is a state of the scheduler: four starts after the
    initialisation, then the clock at 600. *)
Lemma st_stress_reachable : reachable stress_callbacks st_stress.
Proof.
  unfold st_stress. apply reach_tick.
  do 4 apply reachable_start. apply reach_init.
Qed.

Lemma st_stress_registry_ok : registry_ok st_stress.
Proof. apply registry_okb_sound. vm_compute. reflexivity. Qed.

(** The frame on [st_stress], run: the node 3 (target 3) ends and its ready
    callback cancels the node 0 (target 1) before the loop reaches it; the
    loop starts again from the head, advances the waiting node 2 and the
    node 1, whose ready callback starts the node 4.  The nodes 3, 2 and 1
    were advanced once each, the nodes 4 and 2 are left. *)
Example stress_frame_run :
  rounds (frame_events (trace st_stress)
            (frame_result (anim_timer stress_callbacks 5 st_stress) st_stress))
    = [3%nat; 2%nat; 1%nat] /\
  map (fun n => (addr n, var (anim n), act_time (anim n)))
      (_lv_anim_ll
         (frame_result (anim_timer stress_callbacks 5 st_stress) st_stress))
    = [(4%nat, 9, 0); (2%nat, 4, -400)] /\
  lv_anim_count_running
    (frame_result (anim_timer stress_callbacks 5 st_stress) st_stress) = 2.
Proof. repeat split; vm_compute; reflexivity. Qed.

(* ------------------------------------------------------------------ *)
(** *** Completion *)

(** The delete branch of the ready handler. *)
Lemma ready_handler_terminal : forall cbs p a st,
  heap_ok st -> ll_deref (_lv_anim_ll st) p = Some a ->
  ready_terminal (ready_decrement a) = true ->
  let a_tmp := ready_decrement a in
  let st_d := anim_mark_list_change
                (set_ll (_lv_ll_remove (_lv_anim_ll st) p) st) in
  ~ In p (map addr (_lv_anim_ll st_d)) /\
  trace st_d = trace st /\
  anim_ready_handler cbs p st
    = Some (if ready_cb a_tmp =? NULL then st_d
            else call_ready_cb cbs a_tmp st_d) /\
  exists st' evs,
    anim_ready_handler cbs p st = Some st' /\
    trace st' = trace st ++ evs /\
    readies evs = (if ready_cb a_tmp =? NULL then []
                   else [(ready_cb a_tmp, a_tmp)]) /\
    ~ In p (map addr (_lv_anim_ll st')).
Proof.
  intros cbs p a st Hok Hd Hterm. cbv zeta.
  set (a_tmp := ready_decrement a).
  set (st_d := anim_mark_list_change
                 (set_ll (_lv_ll_remove (_lv_anim_ll st) p) st)).
  assert (Hl : _lv_anim_ll st_d = _lv_ll_remove (_lv_anim_ll st) p)
    by (unfold st_d; now rewrite mark_ll).
  assert (Hgone : ~ In p (map addr (_lv_anim_ll st_d))).
  { rewrite Hl. intros Hin. apply in_map_iff in Hin.
    destruct Hin as (n & E & Hn). apply ll_remove_in in Hn. tauto. }
  destruct (mark_frame (set_ll (_lv_ll_remove (_lv_anim_ll st) p) st))
    as (_ & _ & _ & Hn & _ & Ht).
  fold st_d in Hn, Ht. simpl in Hn, Ht.
  assert (Hh : anim_ready_handler cbs p st
               = Some (if ready_cb a_tmp =? NULL then st_d
                       else call_ready_cb cbs a_tmp st_d)).
  { unfold anim_ready_handler. rewrite Hd. cbv zeta. rewrite Hterm.
    reflexivity. }
  split; [exact Hgone |]. split; [exact Ht |]. split; [exact Hh |].
  rewrite Hh. destruct (ready_cb a_tmp =? NULL).
  - exists st_d, []. rewrite app_nil_r. repeat split; auto.
  - assert (Hok_d : heap_ok st_d)
      by (apply heap_ok_mark; now apply heap_ok_remove).
    set (st2 := emit (ev_ready (ready_cb a_tmp) a_tmp) st_d).
    assert (Hok2 : heap_ok st2) by exact Hok_d.
    destruct (api_step_run_api cbs (ready_body cbs (ready_cb a_tmp) a_tmp)
                st2 Hok2)
      as (_ & _ & _ & (evs & He & _ & Hry) & _ & Hnodes).
    exists (call_ready_cb cbs a_tmp st_d),
           (ev_ready (ready_cb a_tmp) a_tmp :: evs).
    split; [reflexivity |].
    split.
    { unfold call_ready_cb. fold st2. rewrite He. simpl.
      rewrite Ht, <- app_assoc. reflexivity. }
    split; [simpl; now rewrite Hry |].
    intros Hin. apply in_map_iff in Hin. destruct Hin as (n & E & Hin).
    unfold call_ready_cb in Hin. fold st2 in Hin.
    destruct (Hnodes n Hin) as [Hold | (Hge & _)].
    + apply Hgone. apply in_map_iff. exists n. split; assumption.
    + simpl in Hge. rewrite Hn in Hge.
      apply ll_deref_addr in Hd. apply in_map_iff in Hd.
      destruct Hd as (m & Em & Hm). apply Hok in Hm. lia.
Qed.

(** C3.  When the record at [p] completes ([repeat_cnt] is 0 after the
    decrement, and no playback is configured or the playback leg has run),
    the ready handler first unlinks the node, then calls [ready_cb], once, on
    the copy [a_tmp] of the record as it was when it was unlinked: the
    callback runs on a registry in which the node is absent.  Without a
    [ready_cb] nothing is called.  For a record with [repeat_cnt = 1] and no
    playback, in a round of the frame loop: when the advanced elapsed time
    has reached the duration the node is unlinked and [ready_cb] is called
    once with that copy; before that, the node stays and [ready_cb] is not
    called. *)
Theorem C3_terminal_completion : forall cbs elaps p a st,
  heap_ok st -> ll_deref (_lv_anim_ll st) p = Some a ->
  (ready_terminal (ready_decrement a) = true ->
   let a_tmp := ready_decrement a in
   let st_d := anim_mark_list_change
                 (set_ll (_lv_ll_remove (_lv_anim_ll st) p) st) in
   ~ In p (map addr (_lv_anim_ll st_d)) /\
   trace st_d = trace st /\
   anim_ready_handler cbs p st
     = Some (if ready_cb a_tmp =? NULL then st_d
             else call_ready_cb cbs a_tmp st_d) /\
   exists st' evs,
     anim_ready_handler cbs p st = Some st' /\
     trace st' = trace st ++ evs /\
     readies evs = (if ready_cb a_tmp =? NULL then []
                    else [(ready_cb a_tmp, a_tmp)]) /\
     ~ In p (map addr (_lv_anim_ll st'))) /\
  (repeat_cnt a = 1 -> playback_time a = 0 -> playback_now a = false ->
   exists st' evs,
     anim_timer_round cbs elaps p a st = Some st' /\
     trace st' = trace st ++ evs /\
     if (0 <=? advanced_time elaps a) && (time a <=? advanced_time elaps a)
     then
       ~ In p (map addr (_lv_anim_ll st')) /\
       exists a', same_schedule a a' /\ act_time a' = time a /\
         readies evs = (if ready_cb a =? NULL then []
                        else [(ready_cb a, set_repeat_cnt 0 a')])
     else
       In p (map addr (_lv_anim_ll st')) /\ readies evs = []).
Proof.
  intros cbs elaps p a st Hok Hd. split.
  - intros Hterm. now apply ready_handler_terminal.
  - intros Hrc Hpt Hpn. unfold anim_timer_round.
    destruct (round_advance_spec cbs elaps p a st)
      as (a' & evs & Hadv & _ & Hry & Hs & _ & Hat).
    rewrite Hadv. rewrite ll_of_emit_all.
    set (st_a := set_ll (ll_store (_lv_anim_ll st) p a')
                   (emit_all (ev_round p :: evs) st)).
    assert (Hlinked : In p (map addr (_lv_anim_ll st)))
      by (eapply ll_deref_addr; eauto).
    destruct ((0 <=? advanced_time elaps a)
              && (time a <=? advanced_time elaps a)) eqn:Hready.
    + assert (Hok_a : heap_ok st_a).
      { apply (heap_ok_store (emit_all (ev_round p :: evs) st) p a').
        exact Hok. }
      assert (Hd_a : ll_deref (_lv_anim_ll st_a) p = Some a')
        by (simpl; now apply ll_store_deref).
      pose proof Hs as (_ & _ & _ & Ercb & _ & _ & Etime & _ & Ept & _
                        & Erc & _ & Epn & _).
      assert (Hdec : ready_decrement a' = set_repeat_cnt 0 a').
      { unfold ready_decrement. rewrite Epn, Hpn, Erc, Hrc. reflexivity. }
      assert (Hterm : ready_terminal (ready_decrement a') = true).
      { rewrite Hdec. unfold ready_terminal. simpl. now rewrite Ept, Hpt. }
      destruct (ready_handler_terminal cbs p a' st_a Hok_a Hd_a Hterm)
        as (_ & _ & _ & st' & evs' & Hh & Htr & Hry' & Hgone).
      exists st', (ev_round p :: evs ++ evs').
      split; [exact Hh |].
      split; [rewrite Htr; simpl; now rewrite <- app_assoc |].
      split; [exact Hgone |].
      exists a'. split; [exact Hs |]. split.
      { rewrite Hat. apply andb_true_iff in Hready. destruct Hready as (H0 & H1).
        rewrite H0. lia. }
      simpl. rewrite readies_app, Hry, Hry', Hdec. simpl.
      now rewrite Ercb.
    + exists st_a, (ev_round p :: evs).
      split; [reflexivity |]. split; [reflexivity |].
      split; [simpl; now rewrite ll_store_addrs | exact Hry].
Qed.

Lemma st_single_heap_ok : heap_ok st_single.
Proof. apply heap_okb_sound. vm_compute. reflexivity. Qed.

(** The node of [st_single] in a round 600 ticks after its start: it is
    unlinked, and the ready callback 101 is called once. *)
Lemma C3_terminal_completion_witness :
  heap_ok st_single /\
  ll_deref (_lv_anim_ll st_single) 0
    = Some (start_stored stress_callbacks (anim_ready_for 1 101 0)
              (_lv_anim_core_init 0 [])) /\
  exists st' evs,
    anim_timer_round stress_callbacks 600 0
      (start_stored stress_callbacks (anim_ready_for 1 101 0)
         (_lv_anim_core_init 0 [])) st_single = Some st' /\
    trace st' = trace st_single ++ evs /\
    ~ In 0%nat (map addr (_lv_anim_ll st')) /\
    length (readies evs) = 1%nat.
Proof.
  split; [exact st_single_heap_ok |]. split; [reflexivity |].
  destruct (C3_terminal_completion stress_callbacks 600 0%nat
              (start_stored stress_callbacks (anim_ready_for 1 101 0)
                 (_lv_anim_core_init 0 []))
              st_single st_single_heap_ok eq_refl) as (_ & H).
  destruct (H eq_refl eq_refl eq_refl) as (st' & evs & H1 & H2 & H3).
  exists st', evs. split; [exact H1 |]. split; [exact H2 |].
  change ((0 <=? advanced_time 600
                   (start_stored stress_callbacks (anim_ready_for 1 101 0)
                      (_lv_anim_core_init 0 [])))
          && (time (start_stored stress_callbacks (anim_ready_for 1 101 0)
                      (_lv_anim_core_init 0 []))
              <=? advanced_time 600
                    (start_stored stress_callbacks (anim_ready_for 1 101 0)
                       (_lv_anim_core_init 0 [])))) with true in H3.
  destruct H3 as (Hgone & a' & _ & _ & Hry).
  split; [exact Hgone |]. rewrite Hry. reflexivity.
Defined.

(** The animation of [st_single] (duration 500, one repetition, no
    playback) under frames 100 ticks apart: after four frames it is live and
    its ready callback has not been called; the fifth frame, in which the
    elapsed time reaches 500, removes it and calls the ready callback once,
    with a snapshot at the end of the window. *)
Example one_shot_frames :
  lv_anim_count_running
    (run_frames stress_callbacks [100; 200; 300; 400] st_single) = 1 /\
  readies (trace (run_frames stress_callbacks [100; 200; 300; 400] st_single))
    = [] /\
  lv_anim_count_running
    (run_frames stress_callbacks [100; 200; 300; 400; 500] st_single) = 0 /\
  map (fun x => (fst x, repeat_cnt (snd x), act_time (snd x),
                 current_value (snd x)))
      (readies (trace (run_frames stress_callbacks
                         [100; 200; 300; 400; 500] st_single)))
    = [(101, 0, 500, 100)].
Proof. repeat split; vm_compute; reflexivity. Qed.

(* ------------------------------------------------------------------ *)
(** *** A duration of zero *)

Lemma lv_map_divisor_nonzero : forall x min_in max_in,
  is_int32 min_in -> is_int32 max_in ->
  lv_map_divisor x min_in max_in = None \/
  exists d, lv_map_divisor x min_in max_in = Some d /\ d <> 0.
Proof.
  intros x lo hi Hlo Hhi. unfold lv_map_divisor.
  destruct (x >=? hi) eqn:E1; [now left |].
  destruct (x <=? lo) eqn:E2; [now left |].
  right. eexists. split; [reflexivity |].
  unfold is_int32, int32_t in *.
  assert (Hd : 0 < hi - lo < 4294967296) by lia.
  destruct (Z_lt_le_dec (hi - lo) 2147483648) as [Hs | Hb].
  - rewrite Z.mod_small by lia. lia.
  - replace (hi - lo + 2147483648)
      with ((hi - lo - 2147483648) + 1 * 4294967296) by lia.
    rewrite Z.mod_add by lia. rewrite Z.mod_small by lia. lia.
Qed.

Lemma builtin_path_call_end : forall cbs a,
  builtin_path a -> is_int32 (end_value a) -> time a <= act_time a ->
  range_fits a -> path_call cbs a = end_value a.
Proof.
  intros cbs a Hb He Hend Hr. unfold path_call.
  destruct (builtin_paths_at_end a He Hend Hr) as (P1 & P2 & P3 & P4 & P5).
  destruct (path_cb a) eqn:E; try assumption.
  - now apply lv_anim_path_bounce_end.
  - now apply lv_anim_path_step_end.
  - exfalso. now apply (Hb f).
Qed.

(** C8, as amended.  A record whose duration is zero completes in the first
    round in which its advanced elapsed time is not negative: the elapsed
    time is clamped to 0, the path function (a built-in one, on a range that
    fits the fixed-point product) returns [end_value] without reaching the
    division of [lv_map], the value becomes the current value and is passed
    to [exec_cb] when it differs from the current value of before and
    [exec_cb] is set, the record is handed to the ready handler, and the
    round returns. *)
Theorem C8_zero_duration_completes : forall cbs elaps p a st,
  heap_ok st -> ll_deref (_lv_anim_ll st) p = Some a ->
  time a = 0 -> 0 <= advanced_time elaps a ->
  builtin_path a ->
  anim_typed (fst (round_tick cbs elaps p a st)) ->
  range_fits (fst (round_tick cbs elaps p a st)) ->
  let a1 := round_clamp (fst (round_tick cbs elaps p a st)) in
  act_time a1 = 0 /\ time a1 = 0 /\
  path_call cbs a1 = end_value a1 /\
  lv_map_divisor (act_time a1) 0 (time a1) = None /\
  exists a' evs st',
    round_advance cbs elaps p a st
      = (a', emit_all (ev_round p :: evs) st, true) /\
    current_value a' = end_value a1 /\ end_value a' = end_value a1 /\
    execs evs = (if (end_value a1 =? current_value a) || (exec_cb a =? NULL)
                 then [] else [(exec_cb a, var a, end_value a1)]) /\
    anim_timer_round cbs elaps p a st
      = anim_ready_handler cbs p
          (set_ll (ll_store (_lv_anim_ll st) p a')
                  (emit_all (ev_round p :: evs) st)) /\
    anim_timer_round cbs elaps p a st = Some st'.
Proof.
  intros cbs elaps p a st Hok Hd Htime Hadv Hb Htyped Hfits. cbv zeta.
  destruct (round_tick_spec cbs elaps p a st)
    as (a1 & e1 & H1 & R1 & Y1 & X1 & S1 & RR1 & T1 & C1 & _).
  rewrite H1 in *. cbn [fst] in *.
  destruct (round_clamp_spec a1) as (S2 & RR2 & C2 & SV2 & EV2 & T2).
  pose proof S1 as (Ev1 & Ee1 & _ & _ & _ & Ep1 & Et1 & _).
  pose proof S2 as (Ev2 & Ee2 & _ & _ & _ & Ep2 & Et2 & _).
  assert (Hact : act_time (round_clamp a1) = 0)
    by (rewrite T2, T1, Et1, Htime; lia).
  assert (Htm : time (round_clamp a1) = 0) by (rewrite Et2, Et1; exact Htime).
  assert (Hpath : path_call cbs (round_clamp a1) = end_value (round_clamp a1)).
  { apply builtin_path_call_end.
    - intros f. rewrite Ep2, Ep1. apply Hb.
    - rewrite EV2. apply Htyped.
    - rewrite Hact, Htm. lia.
    - unfold range_fits in *. now rewrite EV2, SV2. }
  split; [exact Hact |]. split; [exact Htm |]. split; [exact Hpath |].
  split; [rewrite Hact, Htm; reflexivity |].
  pose proof (round_apply_detail cbs (round_clamp a1) st (ev_round p :: e1))
    as D. cbv zeta in D.
  assert (Hadv_eq :
    round_advance cbs elaps p a st
    = (fst (round_apply cbs (round_clamp a1) (emit_all (ev_round p :: e1) st)),
       snd (round_apply cbs (round_clamp a1) (emit_all (ev_round p :: e1) st)),
       true)).
  { unfold round_advance. rewrite H1, T1.
    replace (advanced_time elaps a >=? 0) with true by (symmetry; lia).
    destruct D as (_ & S4 & _ & T4 & _).
    destruct (round_apply cbs (round_clamp a1)
                (emit_all (ev_round p :: e1) st)) as [a4 st4].
    cbn [fst snd] in *. f_equal.
    destruct S4 as (_ & _ & _ & _ & _ & _ & Et4 & _).
    rewrite T4, Et4, Hact, Htm. reflexivity. }
  destruct D as (H4 & S4 & RR4 & T4 & SV4 & EV4 & C4).
  set (a' := fst (round_apply cbs (round_clamp a1)
                    (emit_all (ev_round p :: e1) st))) in *.
  set (evs2 := if (path_call cbs (round_clamp a1)
                   =? current_value (round_clamp a1))
                  || (exec_cb (round_clamp a1) =? NULL)
               then []
               else [ev_exec (exec_cb (round_clamp a1)) (var (round_clamp a1))
                             (path_call cbs (round_clamp a1))]) in *.
  rewrite H4 in Hadv_eq. simpl app in Hadv_eq.
  assert (Hround : anim_timer_round cbs elaps p a st
                   = anim_ready_handler cbs p
                       (set_ll (ll_store (_lv_anim_ll st) p a')
                          (emit_all (ev_round p :: e1 ++ evs2) st))).
  { unfold anim_timer_round. rewrite Hadv_eq. reflexivity. }
  destruct (anim_timer_round_spec cbs elaps p a st Hok Hd)
    as (st' & Hsome & _).
  exists a', (e1 ++ evs2), st'.
  split; [exact Hadv_eq |]. split; [rewrite C4; exact Hpath |].
  split; [exact EV4 |].
  split; [| split; [exact Hround | exact Hsome]].
  rewrite execs_app, X1. simpl. unfold evs2.
  rewrite Hpath, C2, C1, Ee2, Ee1, Ev2, Ev1.
  destruct ((end_value (round_clamp a1) =? current_value a)
            || (exec_cb a =? NULL)); reflexivity.
Qed.

Lemma st_zero_up_heap_ok : heap_ok st_zero_up.
Proof. apply heap_okb_sound. vm_compute. reflexivity. Qed.

(** The record of [st_zero_up], from 0 to 100 in no time, 10 ticks after
    its start: its round computes and pushes 100 and returns. *)
Lemma C8_zero_duration_completes_witness :
  heap_ok st_zero_up /\
  ll_deref (_lv_anim_ll st_zero_up) 0
    = Some (start_stored quiet_callbacks anim_zero_up
              (_lv_anim_core_init 0 [])) /\
  path_call quiet_callbacks
    (round_clamp
       (fst (round_tick quiet_callbacks 10 0
               (start_stored quiet_callbacks anim_zero_up
                  (_lv_anim_core_init 0 [])) st_zero_up)))
    = 100.
Proof.
  split; [exact st_zero_up_heap_ok |]. split; [reflexivity |].
  assert (Ht : anim_typed
                 (fst (round_tick quiet_callbacks 10 0
                         (start_stored quiet_callbacks anim_zero_up
                            (_lv_anim_core_init 0 [])) st_zero_up)))
    by by_evaluation.
  assert (Hf : range_fits
                 (fst (round_tick quiet_callbacks 10 0
                         (start_stored quiet_callbacks anim_zero_up
                            (_lv_anim_core_init 0 [])) st_zero_up)))
    by by_evaluation.
  assert (Hb : builtin_path (start_stored quiet_callbacks anim_zero_up
                               (_lv_anim_core_init 0 [])))
    by (intros f; discriminate).
  assert (Hadv : 0 <= advanced_time 10
                        (start_stored quiet_callbacks anim_zero_up
                           (_lv_anim_core_init 0 [])))
    by by_evaluation.
  destruct (C8_zero_duration_completes quiet_callbacks 10 0%nat
              (start_stored quiet_callbacks anim_zero_up
                 (_lv_anim_core_init 0 []))
              st_zero_up st_zero_up_heap_ok eq_refl eq_refl Hadv Hb Ht Hf)
    as (_ & _ & Hp & _).
  exact Hp.
Defined.

(** C8 as stated fails: the record of [st_zero_down] has duration zero and
    goes from 100 to 0; its early apply pushed 100.  In its first frame the
    computed value 0 equals the stored current value, nothing is applied,
    and the record is removed: the end value never reaches [exec_cb]. *)
Lemma C8_counterexample_not_applied :
  map (fun n => (time (anim n), end_value (anim n), current_value (anim n)))
      (_lv_anim_ll st_zero_down) = [(0, 0, 0)] /\
  execs (trace st_zero_down) = [(7, 1, 100)] /\
  frame_events (trace st_zero_down)
    (frame_result (anim_timer quiet_callbacks 5 (set_tick 10 st_zero_down))
                  st_zero_down)
    = [ev_round 0] /\
  _lv_anim_ll
    (frame_result (anim_timer quiet_callbacks 5 (set_tick 10 st_zero_down))
                  st_zero_down) = [].
Proof. repeat split; vm_compute; reflexivity. Qed.

(* ------------------------------------------------------------------ *)
(** *** The early apply and the change suppression *)

(** C10.  With early apply enabled, [lv_anim_start] calls [exec_cb] with
    the start value of the stored record and leaves the stored
    [current_value] at the zero of [lv_anim_init].  For a stored start value
    other than zero: in a round of the frame loop on that record, as long as
    its current value is not the start value (as after the start), an
    evaluation of the path function that yields the start value is not
    suppressed: [exec_cb] is called again with the same value. *)
Theorem C10_early_apply_repeated : forall cbs a st,
  heap_ok st -> next_alloc_ok st = true ->
  early_apply a = true -> exec_cb a <> NULL -> var a <> NULL ->
  current_value a = current_value lv_anim_init ->
  let st1 := lv_anim_start cbs a st in
  let p := heap_next st in
  let na := start_stored cbs a st in
  ll_deref (_lv_anim_ll st1) p = Some na /\
  (exists evs, trace st1 = trace st ++ evs /\
               execs evs = [(exec_cb a, var a, start_value na)]) /\
  current_value na = 0 /\
  (start_value na <> 0 ->
   forall elaps r st2,
     same_schedule na r -> start_value r = start_value na ->
     current_value r <> start_value na ->
     0 <= advanced_time elaps r ->
     path_call cbs (round_clamp (fst (round_tick cbs elaps p r st2)))
       = start_value na ->
     exists a' evs ready,
       round_advance cbs elaps p r st2
         = (a', emit_all (ev_round p :: evs) st2, ready) /\
       execs evs = [(exec_cb a, var a, start_value na)] /\
       current_value a' = start_value na) /\
  (start_value na <> 0 -> current_value na <> start_value na).
Proof.
  intros cbs a st Hok Halloc Hea Hec Hvar Hcv. cbv zeta.
  destruct Hok as (Hnd & Hlt).
  destruct (lv_anim_start_ok cbs a st Hnd Halloc) as (Hl & Ht & _).
  destruct (start_stored_pair cbs a st) as (Ev & Ee & Ec & _).
  assert (Hcur : current_value (start_stored cbs a st) = 0)
    by (rewrite Ec, Hcv; reflexivity).
  split; [rewrite Hl; simpl; now rewrite Nat.eqb_refl |].
  split.
  { exists (start_events cbs a st). split; [exact Ht |].
    unfold start_events. cbv zeta. rewrite Hea.
    replace (exec_cb a =? NULL) with false by (symmetry; now apply Z.eqb_neq).
    replace (var a =? NULL) with false by (symmetry; now apply Z.eqb_neq).
    simpl. destruct (get_value_cb a =? NULL); reflexivity. }
  split; [exact Hcur |].
  split; [| intros Hne; now rewrite Hcur; auto].
  intros Hne elaps r st2 Hs Hsv Hcr Hadv Hpath.
  destruct (round_tick_spec cbs elaps (heap_next st) r st2)
    as (a1 & e1 & H1 & R1 & Y1 & X1 & S1 & RR1 & T1 & C1 & _).
  rewrite H1 in Hpath. cbn [fst] in Hpath.
  destruct (round_clamp_spec a1) as (S2 & RR2 & C2 & SV2 & EV2 & T2).
  pose proof (round_apply_detail cbs (round_clamp a1) st2
                (ev_round (heap_next st) :: e1)) as D.
  cbv zeta in D. destruct D as (H4 & _ & _ & _ & _ & _ & C4).
  unfold round_advance. rewrite H1, T1.
  replace (advanced_time elaps r >=? 0) with true by (symmetry; lia).
  destruct (round_apply cbs (round_clamp a1)
              (emit_all (ev_round (heap_next st) :: e1) st2)) as [a4 st4].
  cbn [fst snd] in H4, C4. subst st4.
  eexists a4, _, _. split; [reflexivity |].
  split; [| rewrite C4; exact Hpath].
  rewrite execs_app, X1. simpl.
  pose proof S1 as (Ev1 & Ee1 & _). pose proof S2 as (Ev2 & Ee2 & _).
  pose proof Hs as (Evr & Eer & _).
  rewrite Hpath, C2, C1, Ee2, Ee1, Ev2, Ev1, Eer, Evr, Ee, Ev.
  replace (start_value (start_stored cbs a st) =? current_value r) with false
    by (symmetry; apply Z.eqb_neq; congruence).
  replace (exec_cb a =? NULL) with false by (symmetry; now apply Z.eqb_neq).
  reflexivity.
Qed.

(** The descriptor from 30 to 100 on an empty registry: the start pushes
    30 and stores the current value 0, and a round with no time elapsed calls
    [exec_cb] with 30 again. *)
Lemma C10_early_apply_repeated_witness :
  heap_ok (_lv_anim_core_init 0 []) /\
  next_alloc_ok (_lv_anim_core_init 0 []) = true /\
  ll_deref (_lv_anim_ll st_from_30) 0
    = Some (start_stored quiet_callbacks anim_from_30
              (_lv_anim_core_init 0 [])) /\
  current_value (start_stored quiet_callbacks anim_from_30
                   (_lv_anim_core_init 0 [])) = 0 /\
  exists a' evs ready,
    round_advance quiet_callbacks 0 0
      (start_stored quiet_callbacks anim_from_30 (_lv_anim_core_init 0 []))
      st_from_30
      = (a', emit_all (ev_round 0 :: evs) st_from_30, ready) /\
    execs evs = [(7, 1, 30)] /\ current_value a' = 30.
Proof.
  assert (Hok : heap_ok (_lv_anim_core_init 0 []))
    by (apply heap_okb_sound; vm_compute; reflexivity).
  split; [exact Hok |]. split; [reflexivity |].
  assert (Hec : exec_cb anim_from_30 <> NULL) by discriminate.
  assert (Hvar : var anim_from_30 <> NULL) by discriminate.
  destruct (C10_early_apply_repeated quiet_callbacks anim_from_30
              (_lv_anim_core_init 0 []) Hok eq_refl eq_refl Hec Hvar eq_refl)
    as (H1 & _ & H3 & H4 & _).
  split; [exact H1 |]. split; [exact H3 |].
  assert (Hne : start_value (start_stored quiet_callbacks anim_from_30
                               (_lv_anim_core_init 0 [])) <> 0)
    by discriminate.
  assert (Hs : same_schedule
                 (start_stored quiet_callbacks anim_from_30
                    (_lv_anim_core_init 0 []))
                 (start_stored quiet_callbacks anim_from_30
                    (_lv_anim_core_init 0 [])))
    by (unfold same_schedule; repeat split; reflexivity).
  assert (Hcur : current_value (start_stored quiet_callbacks anim_from_30
                                  (_lv_anim_core_init 0 []))
                 <> start_value (start_stored quiet_callbacks anim_from_30
                                   (_lv_anim_core_init 0 [])))
    by discriminate.
  assert (Hadv : 0 <= advanced_time 0
                        (start_stored quiet_callbacks anim_from_30
                           (_lv_anim_core_init 0 [])))
    by by_evaluation.
  exact (H4 Hne 0 (start_stored quiet_callbacks anim_from_30
                     (_lv_anim_core_init 0 []))
            st_from_30 Hs eq_refl Hcur Hadv eq_refl).
Defined.

(** The same animation, run: the start pushes 30, and the first frame, with
    no time elapsed, pushes 30 again. *)
Example early_apply_pushed_twice :
  execs (trace st_from_30) = [(7, 1, 30)] /\
  execs (trace (frame_result
                  (anim_timer quiet_callbacks 5 (set_tick 0 st_from_30))
                  st_from_30))
    = [(7, 1, 30); (7, 1, 30)].
Proof. repeat split; vm_compute; reflexivity. Qed.

(* ================================================================== *)
(** ** Further properties of the registry *)
(* ================================================================== *)

Lemma del_ll_and_result : forall v cb st,
  NoDup (map addr (_lv_anim_ll st)) ->
  _lv_anim_ll (snd (lv_anim_del v cb st))
    = filter (fun n => negb (del_match v cb (anim n))) (_lv_anim_ll st) /\
  fst (lv_anim_del v cb st)
    = existsb (fun n => del_match v cb (anim n)) (_lv_anim_ll st).
Proof.
  intros v cb st Hnd. split; [now apply lv_anim_del_ll |].
  unfold lv_anim_del.
  now destruct (lv_anim_del_loop_spec (_lv_anim_ll st) v cb false st)
    as (_ & Hf & _).
Qed.

(** X1.  [lv_anim_del] removes exactly the records that match, keeps the others
    in their order, returns whether it removed one, raises
    [anim_list_changed] only then, and calls nothing; with a [NULL]
    [exec_cb] no record of the target is left. *)
Theorem lv_anim_del_removes_matches : forall v cb st,
  NoDup (map addr (_lv_anim_ll st)) ->
  _lv_anim_ll (snd (lv_anim_del v cb st))
    = filter (fun n => negb (del_match v cb (anim n))) (_lv_anim_ll st) /\
  fst (lv_anim_del v cb st)
    = existsb (fun n => del_match v cb (anim n)) (_lv_anim_ll st) /\
  anim_list_changed (snd (lv_anim_del v cb st))
    = anim_list_changed st || fst (lv_anim_del v cb st) /\
  trace (snd (lv_anim_del v cb st)) = trace st /\
  (cb = NULL ->
   forall n, In n (_lv_anim_ll (snd (lv_anim_del v cb st))) ->
             var (anim n) <> v).
Proof.
  intros v cb st Hnd.
  pose proof (lv_anim_del_ll v cb st Hnd) as Hl.
  unfold lv_anim_del in *.
  destruct (lv_anim_del_loop_spec (_lv_anim_ll st) v cb false st)
    as (_ & Hf & Hc & _ & _ & _ & _ & _ & Ht).
  split; [exact Hl |]. split; [exact Hf |].
  split; [rewrite Hc, Hf; reflexivity |]. split; [exact Ht |].
  intros -> n Hn. rewrite Hl in Hn. apply filter_In in Hn.
  destruct Hn as (_ & Hm). unfold del_match in Hm.
  rewrite Z.eqb_refl, orb_true_r, andb_true_r in Hm.
  apply negb_true_iff, Z.eqb_neq in Hm. exact Hm.
Qed.

Lemma st_two_NoDup : NoDup (map addr (_lv_anim_ll st_two)).
Proof. apply distinct_NoDup. vm_compute. reflexivity. Qed.

(** On the registry of the targets 1 and 2, deleting all animations of the
    target 2 leaves the one of the target 1. *)
Lemma lv_anim_del_removes_matches_witness :
  NoDup (map addr (_lv_anim_ll st_two)) /\
  map addr (_lv_anim_ll (snd (lv_anim_del 2 NULL st_two))) = [0%nat] /\
  fst (lv_anim_del 2 NULL st_two) = true.
Proof.
  split; [exact st_two_NoDup |].
  destruct (lv_anim_del_removes_matches 2 NULL st_two st_two_NoDup)
    as (Hl & Hf & _).
  split; [rewrite Hl | rewrite Hf]; vm_compute; reflexivity.
Defined.

Lemma lv_anim_del_loop_no_match : forall todo v cb del st,
  (forall n, In n todo -> del_match v cb (anim n) = false) ->
  lv_anim_del_loop todo v cb del st = (del, st).
Proof.
  induction todo as [| n todo IH]; intros v cb del st H; [reflexivity |].
  simpl. rewrite (H n) by now left.
  apply IH. intros m Hm. apply H. now right.
Qed.

(** X2.  Deleting a pair that no live record has changes nothing at all: the
    function returns false, and the registry, the flags, the timer and the
    trace are as before. *)
Theorem lv_anim_del_absent_is_noop : forall v cb st,
  (forall n, In n (_lv_anim_ll st) -> del_match v cb (anim n) = false) ->
  lv_anim_del v cb st = (false, st).
Proof.
  intros v cb st H. unfold lv_anim_del.
  now apply lv_anim_del_loop_no_match.
Qed.

Lemma no_match_checked : forall v cb l,
  forallb (fun n => negb (del_match v cb (anim n))) l = true ->
  forall n, In n l -> del_match v cb (anim n) = false.
Proof.
  intros v cb l H n Hn. rewrite forallb_forall in H.
  apply negb_true_iff. now apply H.
Qed.

Lemma lv_anim_del_absent_is_noop_witness :
  lv_anim_del 3 7 st_two = (false, st_two).
Proof.
  apply lv_anim_del_absent_is_noop, no_match_checked.
  vm_compute. reflexivity.
Defined.

Lemma del_match_after_del : forall v cb st,
  NoDup (map addr (_lv_anim_ll st)) ->
  forall n, In n (_lv_anim_ll (snd (lv_anim_del v cb st))) ->
            del_match v cb (anim n) = false.
Proof.
  intros v cb st Hnd n Hn. rewrite (lv_anim_del_ll v cb st Hnd) in Hn.
  apply filter_In in Hn. now apply negb_true_iff.
Qed.

Lemma lv_anim_get_loop_none : forall l v cb,
  (forall n, In n l -> (var (anim n) =? v) && (exec_cb (anim n) =? cb) = false) ->
  lv_anim_get_loop l v cb = None.
Proof.
  induction l as [| n l IH]; intros v cb H; [reflexivity |].
  simpl. rewrite (H n) by now left.
  apply IH. intros m Hm. apply H. now right.
Qed.

(** X3.  After [lv_anim_del] of a pair, the lookup of the pair finds nothing, and
    a second [lv_anim_del] of it returns false and changes nothing. *)
Theorem lv_anim_del_then_lookup : forall v cb st,
  NoDup (map addr (_lv_anim_ll st)) ->
  lv_anim_get v cb (snd (lv_anim_del v cb st)) = None /\
  lv_anim_del v cb (snd (lv_anim_del v cb st))
    = (false, snd (lv_anim_del v cb st)).
Proof.
  intros v cb st Hnd.
  pose proof (del_match_after_del v cb st Hnd) as Hno.
  split.
  - unfold lv_anim_get. apply lv_anim_get_loop_none.
    intros n Hn. apply Hno in Hn. unfold del_match in Hn.
    destruct (var (anim n) =? v); [| reflexivity].
    destruct (exec_cb (anim n) =? cb); [discriminate | reflexivity].
  - unfold lv_anim_del at 1. now apply lv_anim_del_loop_no_match.
Qed.


Lemma lv_anim_del_then_lookup_witness :
  NoDup (map addr (_lv_anim_ll st_two)) /\
  lv_anim_get 2 7 (snd (lv_anim_del 2 7 st_two)) = None.
Proof.
  split; [exact st_two_NoDup |].
  exact (proj1 (lv_anim_del_then_lookup 2 7 st_two st_two_NoDup)).
Defined.

(** X4.  [lv_anim_get] returns the first live record of the pair in the order of
    the registry (the most recently started one), and [NULL] exactly when
    the pair has no live record. *)
Theorem lv_anim_get_first_of_pair : forall v cb st,
  lv_anim_get v cb st = hd_error (live_for v cb st).
Proof.
  intros v cb st. unfold lv_anim_get, live_for.
  induction (_lv_anim_ll st) as [| n l IH]; [reflexivity |].
  simpl. destruct ((var (anim n) =? v) && (exec_cb (anim n) =? cb));
    [reflexivity | exact IH].
Qed.

Lemma lv_anim_count_loop_length : forall l cnt,
  0 <= cnt < 65536 ->
  lv_anim_count_loop l cnt = (cnt + Z.of_nat (length l)) mod 65536.
Proof.
  induction l as [| n l IH]; intros cnt H.
  - simpl. rewrite Z.add_0_r. symmetry. now apply Z.mod_small.
  - cbn [lv_anim_count_loop length]. rewrite IH.
    + unfold uint16_t. rewrite Zplus_mod_idemp_l. f_equal. lia.
    + unfold uint16_t. apply Z.mod_pos_bound. lia.
Qed.

(** X5.  [lv_anim_count_running] is the number of live records, counted in 16
    bits: the number itself below 65536. *)
Theorem lv_anim_count_running_is_length : forall st,
  lv_anim_count_running st
    = Z.of_nat (length (_lv_anim_ll st)) mod 65536 /\
  (Z.of_nat (length (_lv_anim_ll st)) < 65536 ->
   lv_anim_count_running st = Z.of_nat (length (_lv_anim_ll st))).
Proof.
  intros st. unfold lv_anim_count_running.
  rewrite lv_anim_count_loop_length by lia. simpl (0 + _).
  split; [reflexivity |].
  intros H. apply Z.mod_small. lia.
Qed.

Lemma start_cleared_after_del : forall a st,
  NoDup (map addr (_lv_anim_ll st)) -> exec_cb a <> NULL ->
  start_cleared a (snd (lv_anim_del (var a) (exec_cb a) st))
    = start_cleared a st.
Proof.
  intros a st Hnd Hcb. unfold start_cleared.
  apply Z.eqb_neq in Hcb. rewrite Hcb.
  assert (Hno : lv_anim_del (var a) (exec_cb a)
                  (snd (lv_anim_del (var a) (exec_cb a) st))
                = (false, snd (lv_anim_del (var a) (exec_cb a) st))).
  { unfold lv_anim_del at 1. apply lv_anim_del_loop_no_match.
    now apply del_match_after_del. }
  now rewrite Hno.
Qed.

(** X6.  [lv_anim_start] deletes the animation of the pair itself: a call of
    [lv_anim_del] for the pair right before it changes nothing of the state
    [lv_anim_start] leaves, the trace included. *)
Theorem lv_anim_del_before_start_redundant : forall cbs a st,
  NoDup (map addr (_lv_anim_ll st)) -> exec_cb a <> NULL ->
  lv_anim_start cbs a (snd (lv_anim_del (var a) (exec_cb a) st))
    = lv_anim_start cbs a st.
Proof.
  intros cbs a st Hnd Hcb. unfold lv_anim_start.
  now rewrite (start_cleared_after_del a st Hnd Hcb).
Qed.

Lemma lv_anim_del_before_start_redundant_witness :
  NoDup (map addr (_lv_anim_ll st_two)) /\ exec_cb (anim_for 2 7) <> NULL /\
  lv_anim_start quiet_callbacks (anim_for 2 7)
    (snd (lv_anim_del (var (anim_for 2 7)) (exec_cb (anim_for 2 7)) st_two))
    = lv_anim_start quiet_callbacks (anim_for 2 7) st_two.
Proof.
  assert (H : exec_cb (anim_for 2 7) <> NULL) by (vm_compute; discriminate).
  split; [exact st_two_NoDup |]. split; [exact H |].
  exact (lv_anim_del_before_start_redundant quiet_callbacks (anim_for 2 7)
           st_two st_two_NoDup H).
Defined.

(** X7.  An animation that is started and deleted again leaves the registry as
    an [lv_anim_del] of its pair alone leaves it: the new record is gone,
    the records of other pairs are in place, and [lv_anim_del] returns
    true. *)
Theorem lv_anim_start_then_del : forall cbs a st,
  heap_ok st -> next_alloc_ok st = true -> exec_cb a <> NULL ->
  fst (lv_anim_del (var a) (exec_cb a) (lv_anim_start cbs a st)) = true /\
  _lv_anim_ll (snd (lv_anim_del (var a) (exec_cb a) (lv_anim_start cbs a st)))
    = _lv_anim_ll (snd (lv_anim_del (var a) (exec_cb a) st)).
Proof.
  intros cbs a st Hh Ha Hcb.
  pose proof (lv_anim_start_heap_ok cbs a st Hh Ha) as Hh'.
  destruct (lv_anim_start_ok cbs a st (proj1 Hh) Ha) as (Hl & _).
  destruct (del_ll_and_result (var a) (exec_cb a)
              (lv_anim_start cbs a st) (proj1 Hh')) as (Hl' & Hf').
  destruct (start_stored_pair cbs a st) as (Hv & He & _).
  assert (Hm : del_match (var a) (exec_cb a) (start_stored cbs a st) = true).
  { unfold del_match. now rewrite Hv, He, !Z.eqb_refl. }
  rewrite Hl', Hf', Hl. cbn [existsb filter anim]. rewrite Hm.
  split; [reflexivity |]. cbn [negb].
  rewrite (lv_anim_del_ll (var a) (exec_cb a) st (proj1 Hh)).
  unfold start_keeps. apply Z.eqb_neq in Hcb. rewrite Hcb.
  induction (_lv_anim_ll st) as [| n l IH]; [reflexivity |].
  assert (Hsame : same_pair a (anim n) = del_match (var a) (exec_cb a) (anim n)).
  { unfold same_pair, del_match. now rewrite Hcb, orb_false_r. }
  cbn [filter]. rewrite Hsame.
  destruct (del_match (var a) (exec_cb a) (anim n)) eqn:Em; cbn [negb].
  - exact IH.
  - cbn [filter]. rewrite Em. cbn [negb]. now rewrite IH.
Qed.

Lemma st_two_heap_ok : heap_ok st_two.
Proof. apply heap_okb_sound. vm_compute. reflexivity. Qed.

Lemma lv_anim_start_then_del_witness :
  heap_ok st_two /\ next_alloc_ok st_two = true /\
  exec_cb (anim_for 2 7) <> NULL /\
  fst (lv_anim_del (var (anim_for 2 7)) (exec_cb (anim_for 2 7))
         (lv_anim_start quiet_callbacks (anim_for 2 7) st_two)) = true.
Proof.
  assert (Ha : next_alloc_ok st_two = true) by (vm_compute; reflexivity).
  assert (H : exec_cb (anim_for 2 7) <> NULL) by (vm_compute; discriminate).
  split; [exact st_two_heap_ok |]. split; [exact Ha |]. split; [exact H |].
  exact (proj1 (lv_anim_start_then_del quiet_callbacks (anim_for 2 7) st_two
                  st_two_heap_ok Ha H)).
Defined.

(** X8.  When no other animation is left, [lv_anim_start] restarts the measure
    of the frame timer at the current tick, so that the first frame counts
    the time from the start; otherwise it leaves [last_timer_run] alone.  It
    does so whether the allocation succeeds or not. *)
Theorem lv_anim_start_restarts_measure : forall cbs a st,
  NoDup (map addr (_lv_anim_ll st)) ->
  last_timer_run (lv_anim_start cbs a st)
    = (if _lv_ll_is_empty (start_keeps a st) then lv_tick_get st
       else last_timer_run st) /\
  (_lv_ll_is_empty (start_keeps a st) = true ->
   lv_tick_elaps (last_timer_run (lv_anim_start cbs a st))
                 (lv_anim_start cbs a st) = 0).
Proof.
  intros cbs a st Hnd.
  assert (Hc : last_timer_run (start_cleared a st)
               = (if _lv_ll_is_empty (start_keeps a st) then lv_tick_get st
                  else last_timer_run st) /\
               tick (start_cleared a st) = tick st).
  { destruct (start_cleared_spec a st Hnd) as (Hl & _ & _ & _ & _ & Ht).
    split; [| exact Ht].
    rewrite <- Hl. unfold start_cleared.
    destruct (exec_cb a =? NULL).
    - destruct (_lv_ll_is_empty (_lv_anim_ll st)) eqn:E; simpl; rewrite E;
        reflexivity.
    - destruct (lv_anim_del_frame (var a) (exec_cb a) st)
        as (Hlt & _ & Htk & _).
      destruct (_lv_ll_is_empty (_lv_anim_ll (snd (lv_anim_del _ _ st))))
        eqn:E; simpl; rewrite E; [exact Htk | exact Hlt]. }
  assert (Hs : last_timer_run (lv_anim_start cbs a st)
               = last_timer_run (start_cleared a st) /\
               tick (lv_anim_start cbs a st) = tick (start_cleared a st)).
  { unfold lv_anim_start. cbv zeta.
    destruct (_lv_ll_ins_head _ (start_cleared a st)) as [[p |] st1] eqn:E.
    - assert (H1 : last_timer_run st1 = last_timer_run (start_cleared a st)
                   /\ tick st1 = tick (start_cleared a st)).
      { unfold _lv_ll_ins_head in E.
        destruct (heap_plan (start_cleared a st)) as [| [|] plan];
          inversion E; subst; split; reflexivity. }
      pose proof (start_early_apply_spec cbs
                    (set_run_round (anim_run_round (start_cleared a st))
                       (set_time_orig (uint32_t (time a)) a)) st1) as Hea.
      destruct (start_early_apply cbs _ st1) as [na st2].
      cbv zeta in Hea. simpl fst in Hea. simpl snd in Hea.
      destruct Hea as (_ & _ & _ & _ & _ & _ & _ & Htk & Hlt).
      destruct (mark_frame (set_ll (ll_store (_lv_anim_ll st2) p na) st2))
        as (Hm1 & _ & Hm2 & _).
      rewrite Hm1, Hm2. simpl. rewrite Htk, Hlt. exact H1.
    - unfold _lv_ll_ins_head in E.
      destruct (heap_plan (start_cleared a st)) as [| [|] plan];
        inversion E; subst; split; reflexivity. }
  destruct Hc as (Hc1 & Hc2). destruct Hs as (Hs1 & Hs2).
  split; [now rewrite Hs1 |].
  intros He. unfold lv_tick_elaps.
  rewrite Hs1, Hs2, Hc1, Hc2, He. unfold lv_tick_get.
  now rewrite Z.sub_diag.
Qed.

Lemma lv_anim_start_restarts_measure_witness :
  NoDup (map addr (_lv_anim_ll (set_tick 40 (_lv_anim_core_init 0 [])))) /\
  last_timer_run (lv_anim_start quiet_callbacks (anim_for 1 7)
                    (set_tick 40 (_lv_anim_core_init 0 []))) = 40.
Proof.
  assert (H : NoDup (map addr
                (_lv_anim_ll (set_tick 40 (_lv_anim_core_init 0 [])))))
    by constructor.
  split; [exact H |].
  exact (proj1 (lv_anim_start_restarts_measure quiet_callbacks (anim_for 1 7)
                  (set_tick 40 (_lv_anim_core_init 0 [])) H)).
Defined.

(** X9.  [lv_anim_get] right after a [lv_anim_start] that got its node returns
    the new record: the node at the fresh address, holding the copy of the
    descriptor [lv_anim_start] stored. *)
Theorem lv_anim_start_then_get : forall cbs a st,
  NoDup (map addr (_lv_anim_ll st)) -> next_alloc_ok st = true ->
  lv_anim_get (var a) (exec_cb a) (lv_anim_start cbs a st)
    = Some (mk_node (heap_next st) (start_stored cbs a st)).
Proof.
  intros cbs a st Hnd Ha.
  destruct (lv_anim_start_ok cbs a st Hnd Ha) as (Hl & _).
  destruct (start_stored_pair cbs a st) as (Hv & He & _).
  unfold lv_anim_get. rewrite Hl. cbn [lv_anim_get_loop anim].
  now rewrite Hv, He, !Z.eqb_refl.
Qed.

Lemma lv_anim_start_then_get_witness :
  NoDup (map addr (_lv_anim_ll st_two)) /\ next_alloc_ok st_two = true /\
  lv_anim_get (var (anim_for 1 7)) (exec_cb (anim_for 1 7))
    (lv_anim_start quiet_callbacks (anim_for 1 7) st_two)
    = Some (mk_node (heap_next st_two)
              (start_stored quiet_callbacks (anim_for 1 7) st_two)).
Proof.
  assert (Ha : next_alloc_ok st_two = true) by (vm_compute; reflexivity).
  split; [exact st_two_NoDup |]. split; [exact Ha |].
  exact (lv_anim_start_then_get quiet_callbacks (anim_for 1 7) st_two
           st_two_NoDup Ha).
Defined.

(* ================================================================== *)
(** ** Invariants of the registry *)
(* ================================================================== *)

Lemma timer_follows_mark : forall st,
  timer_follows (anim_mark_list_change st).
Proof.
  intros st. unfold timer_follows, anim_mark_list_change.
  destruct st as [l ? ? ? ? ? ? ? ?]. destruct l; reflexivity.
Qed.

Lemma timer_follows_same : forall st st',
  tmr_paused st' = tmr_paused st ->
  _lv_ll_is_empty (_lv_anim_ll st') = _lv_ll_is_empty (_lv_anim_ll st) ->
  timer_follows st -> timer_follows st'.
Proof. unfold timer_follows. intros st st' -> ->. trivial. Qed.

Lemma ll_store_is_empty : forall l p a,
  _lv_ll_is_empty (ll_store l p a) = _lv_ll_is_empty l.
Proof.
  intros [| n l] p a; [reflexivity |].
  simpl. destruct (Nat.eqb (addr n) p); reflexivity.
Qed.

Lemma timer_follows_del_loop : forall todo v cb del st,
  timer_follows st -> timer_follows (snd (lv_anim_del_loop todo v cb del st)).
Proof.
  induction todo as [| n todo IH]; intros v cb del st H; [exact H |].
  simpl. destruct (del_match v cb (anim n)).
  - apply IH, timer_follows_mark.
  - now apply IH.
Qed.

Lemma timer_follows_start_cleared : forall a st,
  timer_follows st -> timer_follows (start_cleared a st).
Proof.
  intros a st H. unfold start_cleared.
  assert (H1 : timer_follows
                 (if exec_cb a =? NULL then st
                  else snd (lv_anim_del (var a) (exec_cb a) st))).
  { destruct (exec_cb a =? NULL); [exact H |].
    now apply timer_follows_del_loop. }
  destruct (_lv_ll_is_empty _); [| exact H1].
  revert H1. now apply timer_follows_same.
Qed.

Lemma timer_follows_start : forall cbs a st,
  timer_follows st -> timer_follows (lv_anim_start cbs a st).
Proof.
  intros cbs a st H. unfold lv_anim_start.
  pose proof (timer_follows_start_cleared a st H) as H1.
  destruct (_lv_ll_ins_head _ _) as [[p |] st1] eqn:E.
  - destruct (start_early_apply cbs _ st1) as [na st2].
    apply timer_follows_mark.
  - unfold _lv_ll_ins_head in E.
    destruct (heap_plan (start_cleared a st)) as [| [|] plan];
      inversion E; subst.
    revert H1. now apply timer_follows_same.
Qed.

Lemma timer_follows_run_api : forall cbs calls st,
  timer_follows st -> timer_follows (run_api cbs calls st).
Proof.
  induction calls as [| c calls IH]; intros st H; [exact H |].
  destruct c as [a | v cb |]; simpl; apply IH.
  - now apply timer_follows_start.
  - now apply timer_follows_del_loop.
  - apply timer_follows_mark.
Qed.

(* ------------------------------------------------------------------ *)
(** *** One record for a pair *)

Lemma unique_pairs_same : forall st st',
  map pair_of (_lv_anim_ll st') = map pair_of (_lv_anim_ll st) ->
  unique_pairs st -> unique_pairs st'.
Proof. unfold unique_pairs, named_pairs. intros st st' ->. trivial. Qed.

Lemma ll_store_pairs : forall l p r a,
  ll_deref l p = Some r -> var a = var r -> exec_cb a = exec_cb r ->
  map pair_of (ll_store l p a) = map pair_of l.
Proof.
  induction l as [| n l IH]; intros p r a Hd Hv He; [reflexivity |].
  simpl in *. destruct (Nat.eqb (addr n) p).
  - inversion Hd; subst. simpl. unfold pair_of at 1 3. simpl.
    now rewrite Hv, He.
  - simpl. f_equal. now apply (IH p r).
Qed.

Lemma NoDup_pairs_filter : forall (g : ptr * fnptr -> bool) (h : node -> bool) l,
  NoDup (filter g (map pair_of l)) ->
  NoDup (filter g (map pair_of (filter h l))).
Proof.
  induction l as [| n l IH]; intros H; [exact H |].
  simpl in *. destruct (g (pair_of n)) eqn:G.
  - inversion H as [| x xs Hx Hxs]; subst.
    destruct (h n); [| now apply IH].
    simpl. rewrite G. constructor; [| now apply IH].
    intros Hin. apply Hx.
    apply filter_In in Hin. destruct Hin as (Hin & Hg).
    apply filter_In. split; [| exact Hg].
    apply in_map_iff in Hin. destruct Hin as (m & Hm & Hin).
    apply filter_In in Hin. apply in_map_iff. exists m. tauto.
  - destruct (h n); [| now apply IH].
    simpl. rewrite G. now apply IH.
Qed.

Lemma unique_pairs_filter : forall (h : node -> bool) st,
  unique_pairs st -> unique_pairs (set_ll (filter h (_lv_anim_ll st)) st).
Proof. intros h st. apply NoDup_pairs_filter. Qed.

Lemma unique_pairs_del : forall v cb st,
  NoDup (map addr (_lv_anim_ll st)) ->
  unique_pairs st -> unique_pairs (snd (lv_anim_del v cb st)).
Proof.
  intros v cb st Hnd H. unfold unique_pairs, named_pairs.
  rewrite (lv_anim_del_ll v cb st Hnd). now apply NoDup_pairs_filter.
Qed.

Lemma unique_pairs_start : forall cbs a st,
  heap_ok st -> unique_pairs st -> unique_pairs (lv_anim_start cbs a st).
Proof.
  intros cbs a st Hh H.
  destruct (next_alloc_ok st) eqn:Ea.
  - destruct (lv_anim_start_ok cbs a st (proj1 Hh) Ea) as (Hl & _).
    unfold unique_pairs, named_pairs. rewrite Hl.
    destruct (start_stored_pair cbs a st) as (Hv & He & _).
    cbn [map]. unfold pair_of at 1. cbn [anim]. rewrite Hv, He.
    cbn [filter snd]. unfold start_keeps.
    destruct (exec_cb a =? NULL) eqn:En; cbn [negb]; [exact H |].
    constructor; [| now apply NoDup_pairs_filter].
    intros Hin. apply filter_In in Hin. destruct Hin as (Hin & _).
    apply in_map_iff in Hin. destruct Hin as (m & Hm & Hin).
    apply filter_In in Hin. destruct Hin as (_ & Hs).
    unfold pair_of in Hm. inversion Hm as [[Hmv Hme]].
    unfold same_pair in Hs. rewrite Hmv, Hme, !Z.eqb_refl in Hs.
    discriminate.
  - unfold next_alloc_ok in Ea.
    destruct (heap_plan st) as [| [|] plan] eqn:Ep; try discriminate.
    destruct (start_cleared_spec a st (proj1 Hh)) as (Hl & _ & _ & Hp & _).
    rewrite (lv_anim_start_fail cbs a st plan) by (rewrite Hp; exact Ep).
    unfold unique_pairs, named_pairs. simpl. rewrite Hl.
    unfold start_keeps. destruct (exec_cb a =? NULL); [exact H |].
    now apply NoDup_pairs_filter.
Qed.

(* ------------------------------------------------------------------ *)
(** *** The invariant along API calls and frames *)

Lemma sched_inv_start : forall cbs a st,
  sched_inv st -> sched_inv (lv_anim_start cbs a st).
Proof.
  intros cbs a st (Hh & Hu & Ht). split; [| split].
  - now apply (api_step_start cbs a st).
  - now apply unique_pairs_start.
  - now apply timer_follows_start.
Qed.

Lemma sched_inv_del : forall v cb st,
  sched_inv st -> sched_inv (snd (lv_anim_del v cb st)).
Proof.
  intros v cb st (Hh & Hu & Ht). split; [| split].
  - now apply (api_step_del v cb st).
  - apply unique_pairs_del; [apply Hh | exact Hu].
  - now apply timer_follows_del_loop.
Qed.

Lemma sched_inv_del_all : forall st,
  sched_inv st -> sched_inv (lv_anim_del_all st).
Proof.
  intros st (Hh & Hu & Ht). split; [| split].
  - now apply (api_step_del_all st).
  - unfold unique_pairs, named_pairs, lv_anim_del_all.
    rewrite mark_ll. simpl. constructor.
  - apply timer_follows_mark.
Qed.

Lemma sched_inv_run_api : forall cbs calls st,
  sched_inv st -> sched_inv (run_api cbs calls st).
Proof.
  induction calls as [| c calls IH]; intros st H; [exact H |].
  destruct c as [a | v cb |]; simpl; apply IH.
  - now apply sched_inv_start.
  - now apply sched_inv_del.
  - now apply sched_inv_del_all.
Qed.

Lemma sched_inv_same : forall st st',
  _lv_anim_ll st' = _lv_anim_ll st -> heap_next st' = heap_next st ->
  tmr_paused st' = tmr_paused st ->
  sched_inv st -> sched_inv st'.
Proof.
  intros st st' Hl Hn Hp ((Hnd & Hlt) & Hu & Ht). split; [| split].
  - split; rewrite Hl; [exact Hnd |]. intros n Hn'. rewrite Hn. now apply Hlt.
  - revert Hu. apply unique_pairs_same. now rewrite Hl.
  - revert Ht. apply timer_follows_same; [exact Hp | now rewrite Hl].
Qed.

Lemma sched_inv_store : forall st p r a,
  ll_deref (_lv_anim_ll st) p = Some r ->
  var a = var r -> exec_cb a = exec_cb r ->
  sched_inv st -> sched_inv (set_ll (ll_store (_lv_anim_ll st) p a) st).
Proof.
  intros st p r a Hd Hv He (Hh & Hu & Ht). split; [| split].
  - now apply heap_ok_store.
  - revert Hu. apply unique_pairs_same. simpl. now apply (ll_store_pairs _ p r).
  - revert Ht. apply timer_follows_same; [reflexivity |].
    simpl. apply ll_store_is_empty.
Qed.

Lemma ready_kept_pair : forall a,
  var (ready_restart (ready_decrement a)) = var a /\
  exec_cb (ready_restart (ready_decrement a)) = exec_cb a.
Proof.
  intros a. unfold ready_restart, ready_decrement.
  destruct (negb (playback_now a) && (repeat_cnt a >? 0)
            && negb (repeat_cnt a =? LV_ANIM_REPEAT_INFINITE));
    cbn; destruct (playback_time a =? 0); cbn;
    destruct (playback_now a); cbn; split; reflexivity.
Qed.

Lemma sched_inv_ready_handler : forall cbs p st st',
  sched_inv st -> anim_ready_handler cbs p st = Some st' -> sched_inv st'.
Proof.
  intros cbs p st st' H E. unfold anim_ready_handler in E.
  destruct (ll_deref (_lv_anim_ll st) p) as [a |] eqn:Hd; [| discriminate].
  cbv zeta in E.
  destruct (ready_terminal (ready_decrement a)).
  - assert (Hm : sched_inv (anim_mark_list_change
                   (set_ll (_lv_ll_remove (_lv_anim_ll st) p) st))).
    { destruct H as (Hh & Hu & Ht). split; [| split].
      - now apply heap_ok_mark, heap_ok_remove.
      - unfold unique_pairs, named_pairs. rewrite mark_ll.
        now apply NoDup_pairs_filter.
      - apply timer_follows_mark. }
    destruct (ready_cb (ready_decrement a) =? NULL);
      inversion E; subst; [exact Hm |].
    unfold call_ready_cb. apply sched_inv_run_api.
    revert Hm. now apply sched_inv_same.
  - inversion E; subst.
    destruct (ready_kept_pair a) as (Hv & He).
    now apply (sched_inv_store st p a).
Qed.

Lemma sched_inv_round : forall cbs elaps p r st st',
  sched_inv st -> ll_deref (_lv_anim_ll st) p = Some r ->
  anim_timer_round cbs elaps p r st = Some st' -> sched_inv st'.
Proof.
  intros cbs elaps p r st st' H Hd E. unfold anim_timer_round in E.
  destruct (round_advance_spec cbs elaps p r st)
    as (a' & evs & Hr & _ & _ & Hs & _).
  rewrite Hr in E. cbv zeta in E.
  destruct Hs as (Hv & He & _).
  assert (H1 : sched_inv (emit_all (ev_round p :: evs) st)).
  { revert H. now apply sched_inv_same. }
  assert (H2 : sched_inv
                 (set_ll (ll_store (_lv_anim_ll (emit_all (ev_round p :: evs) st))
                            p a') (emit_all (ev_round p :: evs) st))).
  { apply (sched_inv_store _ p r); try assumption. }
  destruct (_ && _).
  - exact (sched_inv_ready_handler cbs p _ st' H2 E).
  - now inversion E; subst.
Qed.

Lemma sched_inv_loop : forall cbs elaps fuel a st st',
  sched_inv st -> anim_timer_loop cbs elaps fuel a st = Done st' ->
  sched_inv st'.
Proof.
  induction fuel as [| fuel IH]; intros a st st' H E.
  - destruct a; simpl in E; [discriminate |]. now inversion E; subst.
  - destruct a as [p |]; simpl in E; [| now inversion E; subst].
    destruct (ll_deref (_lv_anim_ll st) p) as [r |] eqn:Hd; [| discriminate].
    assert (H0 : sched_inv (set_anim_list_changed false st)).
    { revert H. now apply sched_inv_same. }
    destruct (xorb (run_round r) (anim_run_round st)).
    + destruct (anim_timer_round cbs elaps p r _) as [st1 |] eqn:Er;
        [| discriminate].
      assert (H1 : sched_inv st1)
        by now apply (sched_inv_round cbs elaps p r _ st1 H0).
      destruct (anim_list_changed st1); [exact (IH _ st1 st' H1 E) |].
      destruct (ll_deref (_lv_anim_ll st1) p); [| discriminate].
      exact (IH _ st1 st' H1 E).
    + cbn [anim_list_changed set_anim_list_changed] in E.
      simpl (_lv_anim_ll _) in E. rewrite Hd in E.
      exact (IH _ _ st' H0 E).
Qed.

Lemma sched_inv_frame : forall cbs fuel st st',
  sched_inv st -> anim_timer cbs fuel st = Done st' -> sched_inv st'.
Proof.
  intros cbs fuel st st' H E. unfold anim_timer in E.
  destruct (anim_timer_loop _ _ _ _ _) as [st1 | |] eqn:El; try discriminate.
  inversion E; subst.
  assert (H1 : sched_inv st1).
  { apply (sched_inv_loop _ _ _ _ _ st1) in El; [exact El |].
    revert H. now apply sched_inv_same. }
  revert H1. now apply sched_inv_same.
Qed.

Lemma reachable_sched_inv : forall cbs st, reachable cbs st -> sched_inv st.
Proof.
  intros cbs st H. induction H as [now plan | st calls _ IH | st now _ IH
                                   | st plan _ IH | st fuel st' _ IH E].
  - split; [| split].
    + split; [constructor | intros n []].
    + constructor.
    + reflexivity.
  - now apply sched_inv_run_api.
  - revert IH. now apply sched_inv_same.
  - revert IH. now apply sched_inv_same.
  - now apply (sched_inv_frame cbs fuel st).
Qed.

Lemma unique_pairs_live_for : forall v cb st,
  unique_pairs st -> cb <> NULL -> (length (live_for v cb st) <= 1)%nat.
Proof.
  intros v cb st H Hcb. unfold unique_pairs, named_pairs, live_for in *.
  induction (_lv_anim_ll st) as [| n l IH]; [simpl; lia |].
  cbn [map filter] in H. revert H.
  match goal with
  | |- NoDup (if ?c then _ else _) -> _ => destruct c eqn:G; intros H
  end.
  - apply NoDup_cons_iff in H. destruct H as (Hx & Hxs). specialize (IH Hxs).
    simpl.
    destruct ((var (anim n) =? v) && (exec_cb (anim n) =? cb)) eqn:Em;
      [| exact IH].
    apply andb_true_iff in Em. destruct Em as (Ev & Ec).
    apply Z.eqb_eq in Ev. apply Z.eqb_eq in Ec.
    simpl. apply le_n_S.
    destruct (filter _ l) as [| m rest] eqn:Ef; [simpl; lia |].
    exfalso. apply Hx.
    assert (Hm : In m (filter (fun n0 => (var (anim n0) =? v)
                                 && (exec_cb (anim n0) =? cb)) l))
      by (rewrite Ef; now left).
    apply filter_In in Hm. destruct Hm as (Hm & Hmm).
    apply andb_true_iff in Hmm. destruct Hmm as (Hmv & Hmc).
    apply Z.eqb_eq in Hmv. apply Z.eqb_eq in Hmc.
    apply filter_In. split.
    + apply in_map_iff. exists m. split; [| exact Hm].
      unfold pair_of. congruence.
    + exact G.
  - specialize (IH H). simpl.
    apply negb_false_iff, Z.eqb_eq in G. simpl in G.
    destruct (exec_cb (anim n) =? cb) eqn:Ec;
      [| rewrite andb_false_r; exact IH].
    apply Z.eqb_eq in Ec. congruence.
Qed.

(** X10.  Between two frames the timer that drives [anim_timer] is paused exactly
    when no animation is live: every change of the registry goes through
    [anim_mark_list_change]. *)
Theorem timer_paused_iff_idle : forall cbs st,
  reachable cbs st ->
  tmr_paused st = _lv_ll_is_empty (_lv_anim_ll st).
Proof. intros cbs st H. apply (reachable_sched_inv cbs st H). Qed.

Lemma timer_paused_iff_idle_witness :
  reachable stress_callbacks st_stress /\
  tmr_paused st_stress = _lv_ll_is_empty (_lv_anim_ll st_stress).
Proof.
  split; [exact st_stress_reachable |].
  exact (timer_paused_iff_idle stress_callbacks st_stress st_stress_reachable).
Defined.

(** X11.  Between two frames a target has at most one live animation for an
    [exec_cb] that is not [NULL], whatever the calls and the ready callbacks
    before. *)
Theorem one_record_per_pair : forall cbs st v cb,
  reachable cbs st -> cb <> NULL ->
  (length (live_for v cb st) <= 1)%nat.
Proof.
  intros cbs st v cb H Hcb.
  apply unique_pairs_live_for; [| exact Hcb].
  apply (reachable_sched_inv cbs st H).
Qed.

Lemma one_record_per_pair_witness :
  reachable stress_callbacks st_stress /\ 7 <> NULL /\
  (length (live_for 1%Z 7%Z st_stress) <= 1)%nat.
Proof.
  split; [exact st_stress_reachable |].
  assert (H : 7 <> NULL) by discriminate.
  split; [exact H |].
  exact (one_record_per_pair stress_callbacks st_stress 1 7
           st_stress_reachable H).
Defined.

(* ================================================================== *)
(** ** Further properties of the path functions *)
(* ================================================================== *)

(** X13.  Before the animation has started ([act_time <= 0], in its delay) the
    four Bezier paths return exactly [start_value], for every range. *)
Theorem bezier_paths_at_start : forall a,
  is_int32 (start_value a) -> 0 < time a -> act_time a <= 0 ->
  lv_anim_path_ease_in a = start_value a /\
  lv_anim_path_ease_out a = start_value a /\
  lv_anim_path_ease_in_out a = start_value a /\
  lv_anim_path_overshoot a = start_value a.
Proof.
  intros a Hs Ht Ha.
  unfold lv_anim_path_ease_in, lv_anim_path_ease_out,
    lv_anim_path_ease_in_out, lv_anim_path_overshoot.
  rewrite !lv_map_lower by assumption.
  change (uint32_t 0) with 0.
  change (int32_t (lv_bezier3 0 0 50 100 1024)) with 0.
  change (int32_t (lv_bezier3 0 0 900 950 1024)) with 0.
  change (int32_t (lv_bezier3 0 0 50 952 1024)) with 0.
  change (int32_t (lv_bezier3 0 0 1000 1300 1024)) with 0.
  rewrite path_scale_zero by assumption.
  repeat split; reflexivity.
Qed.

Lemma lv_anim_init_starts :
  is_int32 (start_value lv_anim_init) /\ 0 < time lv_anim_init /\
  act_time lv_anim_init <= 0.
Proof. by_evaluation. Qed.

Lemma bezier_paths_at_start_witness :
  is_int32 (start_value lv_anim_init) /\ 0 < time lv_anim_init /\
  act_time lv_anim_init <= 0 /\
  lv_anim_path_overshoot lv_anim_init = start_value lv_anim_init.
Proof.
  destruct lv_anim_init_starts as (H1 & H2 & H3).
  repeat (split; [assumption |]).
  exact (proj2 (proj2 (proj2
           (bezier_paths_at_start lv_anim_init H1 H2 H3)))).
Defined.

(** X14.  Before the animation has started the bounce returns exactly
    [start_value], when the range fits the fixed-point product. *)
Theorem lv_anim_path_bounce_at_start : forall a,
  is_int32 (start_value a) -> 0 < time a -> act_time a <= 0 ->
  range_fits a ->
  lv_anim_path_bounce a = start_value a.
Proof.
  intros a Hs Ht Ha Hr. unfold lv_anim_path_bounce.
  rewrite lv_map_lower by assumption.
  change (uint32_t 0) with 0. unfold range_fits in Hr.
  change (bounce_part 0 (int32_t (end_value a - start_value a)))
    with (0, int32_t (end_value a - start_value a)).
  cbv iota beta.
  change (if 0 >? 1024 then 1024 else 0) with 0.
  change (int32_t (lv_bezier3 0 1024 800 500 0)) with 1024.
  rewrite (int32_t_id (end_value a - start_value a)) by (unfold is_int32; lia).
  rewrite (int32_t_id (1024 * (end_value a - start_value a)))
    by (unfold is_int32; lia).
  rewrite shiftr_10_mul.
  replace (end_value a - (end_value a - start_value a)) with (start_value a)
    by lia.
  now apply int32_t_id.
Qed.

Lemma lv_anim_path_bounce_at_start_witness :
  is_int32 (start_value lv_anim_init) /\ 0 < time lv_anim_init /\
  act_time lv_anim_init <= 0 /\ range_fits lv_anim_init /\
  lv_anim_path_bounce lv_anim_init = start_value lv_anim_init.
Proof.
  destruct lv_anim_init_starts as (H1 & H2 & H3).
  assert (H4 : range_fits lv_anim_init) by by_evaluation.
  repeat (split; [assumption |]).
  exact (lv_anim_path_bounce_at_start lv_anim_init H1 H2 H3 H4).
Defined.

(* ------------------------------------------------------------------ *)
(** *** The linear path *)

Lemma lv_map_step_value : forall x T,
  0 < x < T -> is_int32 T -> x < 2097152 ->
  lv_map x 0 T 0 1024 = x * 1024 / T.
Proof.
  intros x T Hx HT Hlt. unfold lv_map, is_int32 in *.
  destruct (x >=? T) eqn:E1; [lia |].
  destruct (x <=? 0) eqn:E2; [lia |].
  rewrite !Z.sub_0_r.
  rewrite (int32_t_id T) by (unfold is_int32; lia).
  change (int32_t 1024) with 1024.
  rewrite (int32_t_id x) by (unfold is_int32; lia).
  rewrite (int32_t_id (x * 1024)) by (unfold is_int32; lia).
  rewrite Z.quot_div_nonneg by lia.
  assert (0 <= x * 1024 / T <= 1024).
  { split; [apply Z.div_pos; lia |].
    apply Z.div_le_upper_bound; nia. }
  rewrite Z.add_0_r.
  rewrite !(int32_t_id (x * 1024 / T)) by (unfold is_int32; lia). reflexivity.
Qed.

Lemma lv_map_step_range : forall x T,
  0 < T -> is_int32 T -> x < 2097152 ->
  0 <= lv_map x 0 T 0 1024 <= 1024.
Proof.
  intros x T HT HTi Hx.
  destruct (Z_le_gt_dec x 0) as [H0 | H0];
    [rewrite lv_map_lower by assumption; lia |].
  destruct (Z_le_gt_dec T x) as [H1 | H1];
    [rewrite lv_map_upper by assumption; lia |].
  rewrite lv_map_step_value by (try assumption; lia).
  split; [apply Z.div_pos; lia | apply Z.div_le_upper_bound; nia].
Qed.

Lemma lv_map_step_mono : forall x y T,
  0 < T -> is_int32 T -> x <= y -> y < 2097152 ->
  lv_map x 0 T 0 1024 <= lv_map y 0 T 0 1024.
Proof.
  intros x y T HT HTi Hxy Hy.
  destruct (Z_le_gt_dec x 0) as [H0 | H0].
  { rewrite (lv_map_lower x) by assumption.
    now apply lv_map_step_range. }
  destruct (Z_le_gt_dec T y) as [H1 | H1].
  { rewrite (lv_map_upper y) by assumption.
    apply lv_map_step_range; (assumption || lia). }
  rewrite !lv_map_step_value by (try assumption; lia).
  apply Z.div_le_mono; lia.
Qed.

Lemma path_scale_value : forall s a,
  0 <= s <= 1024 -> is_int32 (start_value a) -> is_int32 (end_value a) ->
  range_fits a ->
  path_scale s a = s * (end_value a - start_value a) / 1024 + start_value a.
Proof.
  intros s a Hs Hst He Hr. unfold path_scale, LV_ANIM_RES_SHIFT, range_fits in *.
  unfold is_int32 in *.
  rewrite (int32_t_id (end_value a - start_value a)) by (unfold is_int32; lia).
  rewrite (int32_t_id (s * (end_value a - start_value a)))
    by (unfold is_int32; nia).
  rewrite Z.shiftr_div_pow2 by lia. change (2 ^ 10) with 1024.
  apply int32_t_id. unfold is_int32.
  assert (Hlo : Z.min 0 (end_value a - start_value a)
                <= s * (end_value a - start_value a) / 1024).
  { apply Z.div_le_lower_bound; [lia |].
    destruct (Z.min_spec 0 (end_value a - start_value a)) as [[? ->] | [? ->]];
      nia. }
  assert (Hhi : s * (end_value a - start_value a) / 1024
                <= Z.max 0 (end_value a - start_value a)).
  { apply Z.div_le_upper_bound; [lia |].
    destruct (Z.max_spec 0 (end_value a - start_value a)) as [[? ->] | [? ->]];
      nia. }
  lia.
Qed.

Lemma path_scale_between : forall s a,
  0 <= s <= 1024 -> is_int32 (start_value a) -> is_int32 (end_value a) ->
  range_fits a ->
  Z.min (start_value a) (end_value a) <= path_scale s a
    <= Z.max (start_value a) (end_value a).
Proof.
  intros s a Hs Hst He Hr. rewrite path_scale_value by assumption.
  assert (Hlo : Z.min 0 (end_value a - start_value a)
                <= s * (end_value a - start_value a) / 1024).
  { apply Z.div_le_lower_bound; [lia |].
    destruct (Z.min_spec 0 (end_value a - start_value a)) as [[? ->] | [? ->]];
      nia. }
  assert (Hhi : s * (end_value a - start_value a) / 1024
                <= Z.max 0 (end_value a - start_value a)).
  { apply Z.div_le_upper_bound; [lia |].
    destruct (Z.max_spec 0 (end_value a - start_value a)) as [[? ->] | [? ->]];
      nia. }
  lia.
Qed.

(** X15.  The linear path never leaves the range: for every elapsed time below
    2^21 its value lies between [start_value] and [end_value], when the
    range fits the fixed-point product. *)
Theorem lv_anim_path_linear_in_range : forall a,
  anim_typed a -> 0 < time a -> range_fits a -> act_time a < 2097152 ->
  Z.min (start_value a) (end_value a) <= lv_anim_path_linear a
    <= Z.max (start_value a) (end_value a).
Proof.
  intros a (Hs & _ & He & Ht & _) HT Hr Ha.
  unfold lv_anim_path_linear, LV_ANIM_RESOLUTION.
  apply path_scale_between; try assumption.
  now apply lv_map_step_range.
Qed.

Lemma anim_half_way_typed : anim_typed anim_half_way.
Proof. by_evaluation. Qed.

Lemma anim_half_way_fits : range_fits anim_half_way.
Proof. by_evaluation. Qed.

Lemma lv_anim_path_linear_in_range_witness :
  anim_typed anim_half_way /\ 0 < time anim_half_way /\
  range_fits anim_half_way /\ act_time anim_half_way < 2097152 /\
  0 <= lv_anim_path_linear anim_half_way <= 100.
Proof.
  assert (H2 : 0 < time anim_half_way) by reflexivity.
  assert (H4 : act_time anim_half_way < 2097152) by reflexivity.
  split; [exact anim_half_way_typed |]. split; [exact H2 |].
  split; [exact anim_half_way_fits |]. split; [exact H4 |].
  exact (lv_anim_path_linear_in_range anim_half_way anim_half_way_typed H2
           anim_half_way_fits H4).
Defined.

(** X16.  The linear path is monotone in the elapsed time: of two elapsed times
    below 2^21 the later one gives a value that is at least as far on the
    way from [start_value] to [end_value]. *)
Theorem lv_anim_path_linear_monotone : forall a t1 t2,
  anim_typed a -> 0 < time a -> range_fits a ->
  t1 <= t2 -> t2 < 2097152 ->
  (start_value a <= end_value a ->
   lv_anim_path_linear (set_act_time t1 a)
     <= lv_anim_path_linear (set_act_time t2 a)) /\
  (end_value a <= start_value a ->
   lv_anim_path_linear (set_act_time t2 a)
     <= lv_anim_path_linear (set_act_time t1 a)).
Proof.
  intros a t1 t2 (Hs & _ & He & Ht & _) HT Hr H12 H2.
  unfold lv_anim_path_linear, LV_ANIM_RESOLUTION.
  cbn [act_time time set_act_time].
  pose proof (lv_map_step_mono t1 t2 (time a) HT Ht H12 H2) as Hm.
  pose proof (lv_map_step_range t1 (time a) HT Ht ltac:(lia)) as R1.
  pose proof (lv_map_step_range t2 (time a) HT Ht H2) as R2.
  rewrite (path_scale_value _ (set_act_time t1 a)) by assumption.
  rewrite (path_scale_value _ (set_act_time t2 a)) by assumption.
  cbn [start_value end_value set_act_time].
  split; intros Hd.
  - apply Z.add_le_mono_r. apply Z.div_le_mono; [lia |]. nia.
  - apply Z.add_le_mono_r. apply Z.div_le_mono; [lia |]. nia.
Qed.

Lemma lv_anim_path_linear_monotone_witness :
  anim_typed lv_anim_init /\ 0 < time lv_anim_init /\
  range_fits lv_anim_init /\ 100 <= 250 /\ 250 < 2097152 /\
  lv_anim_path_linear (set_act_time 100 lv_anim_init)
    <= lv_anim_path_linear (set_act_time 250 lv_anim_init).
Proof.
  assert (H1 : anim_typed lv_anim_init) by by_evaluation.
  assert (H2 : 0 < time lv_anim_init) by reflexivity.
  assert (H3 : range_fits lv_anim_init) by by_evaluation.
  assert (H4 : 100 <= 250) by discriminate.
  assert (H5 : 250 < 2097152) by reflexivity.
  assert (H6 : start_value lv_anim_init <= end_value lv_anim_init)
    by discriminate.
  repeat (split; [assumption |]).
  exact (proj1 (lv_anim_path_linear_monotone lv_anim_init 100 250
                  H1 H2 H3 H4 H5) H6).
Defined.

(* ------------------------------------------------------------------ *)
(** *** [lv_anim_speed_to_time] *)

Lemma int32_t_opp : forall z,
  int32_t (- z)
    = if int32_t z =? -2147483648 then -2147483648 else - int32_t z.
Proof.
  intros z. unfold int32_t.
  pose proof (Z.div_mod (z + 2147483648) 4294967296 ltac:(lia)) as Hdm.
  pose proof (Z.mod_pos_bound (z + 2147483648) 4294967296 ltac:(lia)) as Hb.
  set (q := (z + 2147483648) / 4294967296) in *.
  set (m := (z + 2147483648) mod 4294967296) in *.
  clearbody q m.
  destruct (Z.eq_dec m 0) as [Hm | Hm].
  - rewrite Hm. simpl (0 - 2147483648 =? -2147483648).
    replace (- z + 2147483648) with ((1 - q) * 4294967296) by lia.
    rewrite Z.mod_mul by lia. reflexivity.
  - destruct (m - 2147483648 =? -2147483648) eqn:E; [lia |].
    replace (- z + 2147483648) with ((4294967296 - m) + (- q) * 4294967296)
      by lia.
    rewrite Z.mod_add by lia. rewrite Z.mod_small by lia. lia.
Qed.

Lemma LV_ABS_opp : forall z,
  LV_ABS (int32_t (- z)) = LV_ABS (int32_t z).
Proof.
  intros z. rewrite int32_t_opp.
  assert (Hi : is_int32 (int32_t z)).
  { unfold is_int32, int32_t.
    pose proof (Z.mod_pos_bound (z + 2147483648) 4294967296 ltac:(lia)). lia. }
  unfold is_int32 in Hi. set (x := int32_t z) in *. clearbody x.
  destruct (x =? -2147483648) eqn:E.
  - apply Z.eqb_eq in E. now rewrite E.
  - apply Z.eqb_neq in E. unfold LV_ABS.
    destruct (- x >? 0) eqn:E1; destruct (x >? 0) eqn:E2; try lia.
    + rewrite int32_t_id by (unfold is_int32; lia). reflexivity.
    + rewrite Z.opp_involutive.
      rewrite int32_t_id by (unfold is_int32; lia). reflexivity.
    + assert (x = 0) by lia. now subst x.
Qed.

(** X17.  [lv_anim_speed_to_time] depends on the distance only: exchanging
    [start] and [end] gives the same time, for all values, wrapped
    differences included. *)
Theorem lv_anim_speed_to_time_symmetric : forall speed start end_,
  lv_anim_speed_to_time speed start end_
    = lv_anim_speed_to_time speed end_ start.
Proof.
  intros speed s e. unfold lv_anim_speed_to_time.
  replace (e - s) with (- (s - e)) by lia.
  now rewrite LV_ABS_opp.
Qed.

(** X18.  For a speed that is not 0, [lv_anim_speed_to_time] returns a time of at
    least 1 that is a value of [uint32_t], for all [start] and [end]: an
    animation set up with it never has the duration 0. *)
Theorem lv_anim_speed_to_time_positive : forall speed start end_,
  0 < speed ->
  exists t, lv_anim_speed_to_time speed start end_ = Some t /\
            1 <= t < 4294967296.
Proof.
  intros speed s e Hs. unfold lv_anim_speed_to_time.
  destruct (speed =? 0) eqn:E; [lia |].
  eexists. split; [reflexivity |].
  set (d := uint32_t (LV_ABS (int32_t (s - e)))).
  pose proof (Z.mod_pos_bound (d * 1000) 4294967296 ltac:(lia)) as Hb.
  fold (uint32_t (d * 1000)) in Hb.
  assert (H0 : 0 <= uint32_t (d * 1000) / speed) by (apply Z.div_pos; lia).
  assert (H1 : uint32_t (d * 1000) / speed <= uint32_t (d * 1000)).
  { apply Z.div_le_upper_bound; nia. }
  destruct (uint32_t (d * 1000) / speed =? 0) eqn:E0.
  - apply Z.eqb_eq in E0. rewrite E0. cbv. split; [discriminate | reflexivity].
  - apply Z.eqb_neq in E0. lia.
Qed.

Lemma lv_anim_speed_to_time_positive_witness :
  0 < 1000 /\
  exists t, lv_anim_speed_to_time 1000 0 0 = Some t /\ 1 <= t < 4294967296.
Proof.
  assert (H : 0 < 1000) by reflexivity.
  split; [exact H |].
  exact (lv_anim_speed_to_time_positive 1000 0 0 H).
Defined.

(* ================================================================== *)
(** ** Further properties of the cycles of a record *)
(* ================================================================== *)

Lemma ready_decrement_keeps : forall a,
  playback_time (ready_decrement a) = playback_time a /\
  playback_now (ready_decrement a) = playback_now a /\
  repeat_delay (ready_decrement a) = repeat_delay a /\
  playback_delay (ready_decrement a) = playback_delay a /\
  start_value (ready_decrement a) = start_value a /\
  end_value (ready_decrement a) = end_value a /\
  time (ready_decrement a) = time a /\
  time_orig (ready_decrement a) = time_orig a /\
  ready_cb (ready_decrement a) = ready_cb a.
Proof.
  intros a. unfold ready_decrement. destruct (_ && _); repeat split.
Qed.

Lemma ready_restart_keeps : forall a,
  repeat_cnt (ready_restart a) = repeat_cnt a /\
  playback_time (ready_restart a) = playback_time a /\
  repeat_delay (ready_restart a) = repeat_delay a /\
  playback_delay (ready_restart a) = playback_delay a /\
  time_orig (ready_restart a) = time_orig a /\
  ready_cb (ready_restart a) = ready_cb a.
Proof.
  intros a. unfold ready_restart. cbn [playback_time set_act_time].
  destruct (playback_time a =? 0); [repeat split |].
  cbn. destruct (playback_now a); repeat split.
Qed.

Lemma ready_kept_eq : forall a,
  ready_kept a = ready_restart (ready_decrement a).
Proof. intros a. unfold ready_kept. reflexivity. Qed.

Lemma ready_decrement_infinite : forall a,
  repeat_cnt a = LV_ANIM_REPEAT_INFINITE ->
  ready_decrement a = a /\ ready_terminal a = false.
Proof.
  intros a H. unfold ready_decrement, ready_terminal. rewrite H.
  rewrite Z.eqb_refl. simpl. now rewrite andb_false_r.
Qed.

(** X19.  A record whose repeat count is [LV_ANIM_REPEAT_INFINITE] never ends by
    itself: whatever the elapsed time, a round of the frame loop keeps its
    node linked, keeps the count, and calls no ready callback. *)
Theorem infinite_repeat_never_ends : forall cbs elaps p r st,
  ll_deref (_lv_anim_ll st) p = Some r ->
  repeat_cnt r = LV_ANIM_REPEAT_INFINITE ->
  exists st' r' evs,
    anim_timer_round cbs elaps p r st = Some st' /\
    map addr (_lv_anim_ll st') = map addr (_lv_anim_ll st) /\
    ll_deref (_lv_anim_ll st') p = Some r' /\
    repeat_cnt r' = LV_ANIM_REPEAT_INFINITE /\
    trace st' = trace st ++ evs /\ readies evs = [].
Proof.
  intros cbs elaps p r st Hd Hinf. unfold anim_timer_round.
  destruct (round_advance_spec cbs elaps p r st)
    as (a' & evs & Hr & _ & Hre & Hs & _).
  rewrite Hr. cbv zeta.
  assert (Hc : repeat_cnt a' = LV_ANIM_REPEAT_INFINITE).
  { destruct Hs as (_ & _ & _ & _ & _ & _ & _ & _ & _ & _ & Hc & _).
    now rewrite Hc. }
  pose proof (ll_deref_addr _ _ _ Hd) as Hin.
  rewrite ll_of_emit_all.
  destruct (_ && _).
  - unfold anim_ready_handler. cbn [_lv_anim_ll set_ll].
    rewrite (ll_store_deref _ p a' Hin).
    destruct (ready_decrement_infinite a' Hc) as (Hdec & Hterm).
    rewrite Hdec, Hterm.
    exists (set_ll (ll_store (ll_store (_lv_anim_ll st) p a') p
                      (ready_restart a'))
              (set_ll (ll_store (_lv_anim_ll st) p a')
                 (emit_all (ev_round p :: evs) st))),
      (ready_restart a'), (ev_round p :: evs).
    split; [reflexivity |]. cbn [_lv_anim_ll set_ll].
    rewrite ll_store_twice, ll_store_addrs.
    split; [reflexivity |].
    split; [now apply ll_store_deref |].
    split; [now rewrite (proj1 (ready_restart_keeps a')) |].
    split; [reflexivity | exact Hre].
  - exists (set_ll (ll_store (_lv_anim_ll st) p a')
              (emit_all (ev_round p :: evs) st)), a', (ev_round p :: evs).
    split; [reflexivity |]. cbn [_lv_anim_ll set_ll].
    rewrite ll_store_addrs.
    split; [reflexivity |].
    split; [now apply ll_store_deref |].
    split; [exact Hc |].
    split; [reflexivity | exact Hre].
Qed.

Lemma infinite_repeat_never_ends_witness :
  ll_deref (_lv_anim_ll st_forever) 0%nat = Some anim_forever /\
  repeat_cnt anim_forever = LV_ANIM_REPEAT_INFINITE /\
  exists st' r' evs,
    anim_timer_round quiet_callbacks 16 0%nat anim_forever st_forever
      = Some st' /\
    map addr (_lv_anim_ll st') = map addr (_lv_anim_ll st_forever) /\
    ll_deref (_lv_anim_ll st') 0%nat = Some r' /\
    repeat_cnt r' = LV_ANIM_REPEAT_INFINITE /\
    trace st' = trace st_forever ++ evs /\ readies evs = [].
Proof.
  assert (H1 : ll_deref (_lv_anim_ll st_forever) 0%nat = Some anim_forever)
    by reflexivity.
  assert (H2 : repeat_cnt anim_forever = LV_ANIM_REPEAT_INFINITE)
    by reflexivity.
  split; [exact H1 |]. split; [exact H2 |].
  exact (infinite_repeat_never_ends quiet_callbacks 16 0%nat anim_forever
           st_forever H1 H2).
Defined.

Lemma ready_kept_forward : forall a,
  0 <= playback_delay a <= 2147483648 -> 0 <= playback_time a < 2147483648 ->
  0 <= repeat_cnt a < 65536 ->
  playback_time a <> 0 -> playback_now a = false ->
  playback_now (ready_kept a) = true /\
  start_value (ready_kept a) = end_value a /\
  end_value (ready_kept a) = start_value a /\
  time (ready_kept a) = playback_time a /\
  act_time (ready_kept a) = - playback_delay a /\
  repeat_cnt (ready_kept a)
    = (if (repeat_cnt a =? 0) || (repeat_cnt a =? LV_ANIM_REPEAT_INFINITE)
       then repeat_cnt a else repeat_cnt a - 1).
Proof.
  intros a Hpd Hpt Hrc Hne Hpn. unfold ready_kept.
  destruct (ready_decrement_keeps a)
    as (E1 & E2 & E3 & E4 & E5 & E6 & E7 & E8 & _).
  assert (Ec : repeat_cnt (ready_decrement a)
               = (if (repeat_cnt a =? 0)
                     || (repeat_cnt a =? LV_ANIM_REPEAT_INFINITE)
                  then repeat_cnt a else repeat_cnt a - 1)).
  { unfold ready_decrement. rewrite Hpn. cbn [negb andb].
    destruct (repeat_cnt a =? 0) eqn:E0.
    - apply Z.eqb_eq in E0. rewrite E0. cbn. exact E0.
    - apply Z.eqb_neq in E0.
      replace (repeat_cnt a >? 0) with true by (symmetry; lia).
      cbn [andb orb].
      destruct (repeat_cnt a =? LV_ANIM_REPEAT_INFINITE); cbn [negb];
        [reflexivity |].
      cbn. unfold uint16_t. apply Z.mod_small. lia. }
  rewrite <- Ec.
  rewrite <- (proj1 (ready_restart_keeps (ready_decrement a))).
  unfold ready_restart. cbn [playback_time set_act_time].
  rewrite E1. apply Z.eqb_neq in Hne. rewrite Hne.
  cbn. rewrite E2, Hpn. cbn. rewrite E1, E4, E5, E6.
  rewrite neg_cast by lia. rewrite ?E2, ?Hpn. cbn.
  repeat split; try reflexivity.
  apply int32_t_id. unfold is_int32. lia.
Qed.

Lemma ready_kept_backward : forall a,
  0 <= repeat_delay a <= 2147483648 -> 0 <= time_orig a < 2147483648 ->
  playback_time a <> 0 -> playback_now a = true ->
  playback_now (ready_kept a) = false /\
  start_value (ready_kept a) = end_value a /\
  end_value (ready_kept a) = start_value a /\
  time (ready_kept a) = time_orig a /\
  act_time (ready_kept a) = - repeat_delay a /\
  repeat_cnt (ready_kept a) = repeat_cnt a.
Proof.
  intros a Hrd Hto Hne Hpn. unfold ready_kept.
  assert (Hdec : ready_decrement a = a).
  { unfold ready_decrement. now rewrite Hpn. }
  rewrite Hdec.
  unfold ready_restart. cbn [playback_time set_act_time].
  apply Z.eqb_neq in Hne. rewrite Hne.
  cbn. rewrite Hpn. cbn.
  rewrite neg_cast by lia. rewrite ?Hpn. cbn.
  repeat split; try reflexivity.
  apply int32_t_id. unfold is_int32. lia.
Qed.

(** X20.  A forward leg and the reverse leg after it are a round trip: when the
    ready handler has run at the end of both, the record has its range, its
    duration [time_orig] and the forward direction again, waits for
    [repeat_delay], and has counted one repetition; the handler made no
    call and kept the node. *)
Theorem playback_round_trip : forall cbs p st a,
  ll_deref (_lv_anim_ll st) p = Some a ->
  anim_typed a -> timing_fits a ->
  playback_time a <> 0 -> playback_now a = false -> 2 <= repeat_cnt a ->
  exists st1 st2 c,
    anim_ready_handler cbs p st = Some st1 /\
    anim_ready_handler cbs p st1 = Some st2 /\
    ll_deref (_lv_anim_ll st2) p = Some c /\
    map addr (_lv_anim_ll st2) = map addr (_lv_anim_ll st) /\
    trace st2 = trace st /\
    start_value c = start_value a /\ end_value c = end_value a /\
    playback_now c = false /\ time c = time_orig a /\
    act_time c = - repeat_delay a /\
    repeat_cnt c = (if repeat_cnt a =? LV_ANIM_REPEAT_INFINITE
                    then LV_ANIM_REPEAT_INFINITE else repeat_cnt a - 1).
Proof.
  intros cbs p st a Hd Ht Hf Hne Hpn Hrc.
  destruct Ht as (_ & _ & _ & _ & _ & Hpd & Hpt & Hrd & Hrc16 & Hto).
  destruct Hf as (Frd & Fpd & Fpt & Fto).
  unfold is_uint32, is_uint16 in *.
  destruct (ready_kept_forward a ltac:(lia) ltac:(lia) ltac:(lia) Hne Hpn)
    as (B1 & B2 & B3 & B4 & B5 & B6).
  replace (repeat_cnt a =? 0) with false in B6 by (symmetry; lia).
  cbn [orb] in B6.
  destruct (ready_restart_keeps (ready_decrement a))
    as (K1 & K2 & K3 & K4 & K5 & _).
  destruct (ready_decrement_keeps a)
    as (D1 & _ & D3 & D4 & _ & _ & _ & D8 & _).
  fold (ready_kept a) in K1, K2, K3, K4, K5.
  assert (Hne' : playback_time (ready_kept a) <> 0) by (rewrite K2, D1; exact Hne).
  destruct (ready_kept_backward (ready_kept a)
              ltac:(rewrite K3, D3; lia) ltac:(rewrite K5, D8; lia) Hne' B1)
    as (C1 & C2 & C3 & C4 & C5 & C6).
  assert (T1 : ready_terminal (ready_decrement a) = false).
  { unfold ready_terminal. rewrite <- K1. fold (ready_kept a). rewrite B6.
    destruct (repeat_cnt a =? LV_ANIM_REPEAT_INFINITE) eqn:E;
      [apply Z.eqb_eq in E; rewrite E; reflexivity |].
    replace (repeat_cnt a - 1 =? 0) with false by (symmetry; lia).
    reflexivity. }
  assert (T2 : ready_terminal (ready_decrement (ready_kept a)) = false).
  { assert (Hdb : ready_decrement (ready_kept a) = ready_kept a).
    { unfold ready_decrement at 1. now rewrite B1. }
    rewrite Hdb. unfold ready_terminal. rewrite B6.
    destruct (repeat_cnt a =? LV_ANIM_REPEAT_INFINITE) eqn:E;
      [apply Z.eqb_eq in E; rewrite E; reflexivity |].
    replace (repeat_cnt a - 1 =? 0) with false by (symmetry; lia).
    reflexivity. }
  pose proof (ll_deref_addr _ _ _ Hd) as Hin.
  exists (set_ll (ll_store (_lv_anim_ll st) p (ready_kept a)) st),
    (set_ll (ll_store (_lv_anim_ll st) p (ready_kept (ready_kept a))) st),
    (ready_kept (ready_kept a)).
  split.
  { unfold anim_ready_handler. rewrite Hd. cbv zeta. now rewrite T1. }
  split.
  { unfold anim_ready_handler. cbn [_lv_anim_ll set_ll].
    rewrite (ll_store_deref _ p (ready_kept a) Hin). cbv zeta. rewrite T2.
    rewrite ll_store_twice.
    rewrite <- (ready_kept_eq (ready_kept a)).
    unfold set_ll.
    cbn [_lv_anim_ll last_timer_run anim_list_changed anim_run_round
         tmr_paused tick heap_next heap_plan trace].
    reflexivity. }
  cbn [_lv_anim_ll set_ll trace].
  split; [now apply ll_store_deref |].
  split; [apply ll_store_addrs |].
  split; [reflexivity |].
  rewrite C1, C2, C3, C4, C5, C6, B2, B3, B6, K3, K5, D3, D8.
  do 5 (split; [reflexivity |]).
  destruct (repeat_cnt a =? LV_ANIM_REPEAT_INFINITE) eqn:E; [| reflexivity].
  now apply Z.eqb_eq.
Qed.

Lemma anim_back_thrice_typed :
  anim_typed anim_back_thrice /\ timing_fits anim_back_thrice.
Proof. by_evaluation. Qed.

Lemma playback_round_trip_witness :
  ll_deref (_lv_anim_ll st_back_thrice) 0%nat = Some anim_back_thrice /\
  anim_typed anim_back_thrice /\ timing_fits anim_back_thrice /\
  playback_time anim_back_thrice <> 0 /\
  playback_now anim_back_thrice = false /\ 2 <= repeat_cnt anim_back_thrice /\
  exists st1 st2 c,
    anim_ready_handler quiet_callbacks 0%nat st_back_thrice = Some st1 /\
    anim_ready_handler quiet_callbacks 0%nat st1 = Some st2 /\
    ll_deref (_lv_anim_ll st2) 0%nat = Some c /\
    map addr (_lv_anim_ll st2) = map addr (_lv_anim_ll st_back_thrice) /\
    trace st2 = trace st_back_thrice /\
    start_value c = start_value anim_back_thrice /\
    end_value c = end_value anim_back_thrice /\
    playback_now c = false /\ time c = time_orig anim_back_thrice /\
    act_time c = - repeat_delay anim_back_thrice /\
    repeat_cnt c = (if repeat_cnt anim_back_thrice =? LV_ANIM_REPEAT_INFINITE
                    then LV_ANIM_REPEAT_INFINITE
                    else repeat_cnt anim_back_thrice - 1).
Proof.
  assert (H1 : ll_deref (_lv_anim_ll st_back_thrice) 0%nat
               = Some anim_back_thrice) by reflexivity.
  assert (H4 : playback_time anim_back_thrice <> 0) by discriminate.
  assert (H5 : playback_now anim_back_thrice = false) by reflexivity.
  assert (H6 : 2 <= repeat_cnt anim_back_thrice) by discriminate.
  split; [exact H1 |].
  split; [exact (proj1 anim_back_thrice_typed) |].
  split; [exact (proj2 anim_back_thrice_typed) |].
  split; [exact H4 |]. split; [exact H5 |]. split; [exact H6 |].
  exact (playback_round_trip quiet_callbacks 0%nat st_back_thrice
           anim_back_thrice H1 (proj1 anim_back_thrice_typed)
           (proj2 anim_back_thrice_typed) H4 H5 H6).
Defined.

(** X21.  With a reverse leg and one repetition the ready callback waits for the
    way back: at the end of the forward leg the ready handler keeps the
    node, calls nothing and turns the record round with the count 0; at the
    end of the reverse leg, whatever the rounds in between wrote into the
    record, it unlinks the node and calls the ready callback once. *)
Theorem playback_ready_after_return : forall cbs p st a,
  ll_deref (_lv_anim_ll st) p = Some a ->
  anim_typed a -> timing_fits a ->
  playback_time a <> 0 -> playback_now a = false -> repeat_cnt a = 1 ->
  exists st1 b,
    anim_ready_handler cbs p st = Some st1 /\
    ll_deref (_lv_anim_ll st1) p = Some b /\
    trace st1 = trace st /\
    playback_now b = true /\ repeat_cnt b = 0 /\
    forall st2 b',
      heap_ok st2 -> ll_deref (_lv_anim_ll st2) p = Some b' ->
      same_schedule b b' ->
      exists st3 evs,
        anim_ready_handler cbs p st2 = Some st3 /\
        ~ In p (map addr (_lv_anim_ll st3)) /\
        trace st3 = trace st2 ++ evs /\
        readies evs = (if ready_cb a =? NULL then []
                       else [(ready_cb a, b')]).
Proof.
  intros cbs p st a Hd Ht Hf Hne Hpn Hrc.
  destruct Ht as (_ & _ & _ & _ & _ & Hpd & Hpt & Hrd & Hrc16 & Hto).
  destruct Hf as (Frd & Fpd & Fpt & Fto).
  unfold is_uint32, is_uint16 in *.
  destruct (ready_kept_forward a ltac:(lia) ltac:(lia) ltac:(lia) Hne Hpn)
    as (B1 & _ & _ & _ & _ & B6).
  rewrite Hrc in B6. cbn in B6.
  destruct (ready_restart_keeps (ready_decrement a))
    as (K1 & K2 & _ & _ & _ & K6).
  destruct (ready_decrement_keeps a) as (D1 & _ & _ & _ & _ & _ & _ & _ & D9).
  fold (ready_kept a) in K1, K2, K6.
  assert (T1 : ready_terminal (ready_decrement a) = false).
  { unfold ready_terminal. rewrite D1.
    destruct (ready_decrement_keeps a) as (_ & D2 & _). rewrite D2, Hpn.
    apply Z.eqb_neq in Hne. rewrite Hne. cbn. apply andb_false_r. }
  pose proof (ll_deref_addr _ _ _ Hd) as Hin.
  exists (set_ll (ll_store (_lv_anim_ll st) p (ready_kept a)) st),
    (ready_kept a).
  split.
  { unfold anim_ready_handler. rewrite Hd. cbv zeta. now rewrite T1. }
  cbn [_lv_anim_ll set_ll trace].
  split; [now apply ll_store_deref |].
  split; [reflexivity |]. split; [exact B1 |]. split; [exact B6 |].
  intros st2 b' Hok Hd2 Hs.
  destruct Hs as (_ & _ & _ & S4 & _ & _ & _ & _ & S9 & _ & S11 & _ & S13 & _).
  assert (Hdec : ready_decrement b' = b').
  { unfold ready_decrement. now rewrite S13, B1. }
  assert (T2 : ready_terminal (ready_decrement b') = true).
  { rewrite Hdec. unfold ready_terminal.
    rewrite S11, B6, S9, K2, D1, S13, B1.
    apply Z.eqb_neq in Hne. now rewrite Hne. }
  destruct (ready_handler_terminal cbs p b' st2 Hok Hd2 T2)
    as (_ & _ & _ & st3 & evs & E3 & Et & Er & Hout).
  exists st3, evs. rewrite Hdec in Er.
  rewrite S4, K6, D9 in Er. now repeat split.
Qed.

Lemma anim_back_once_typed :
  anim_typed anim_back_once /\ timing_fits anim_back_once.
Proof. by_evaluation. Qed.

Lemma playback_ready_after_return_witness :
  ll_deref (_lv_anim_ll st_back_once) 0%nat = Some anim_back_once /\
  anim_typed anim_back_once /\ timing_fits anim_back_once /\
  playback_time anim_back_once <> 0 /\
  playback_now anim_back_once = false /\ repeat_cnt anim_back_once = 1 /\
  exists st1 b,
    anim_ready_handler stress_callbacks 0%nat st_back_once = Some st1 /\
    ll_deref (_lv_anim_ll st1) 0%nat = Some b /\
    trace st1 = trace st_back_once /\
    playback_now b = true /\ repeat_cnt b = 0 /\
    forall st2 b',
      heap_ok st2 -> ll_deref (_lv_anim_ll st2) 0%nat = Some b' ->
      same_schedule b b' ->
      exists st3 evs,
        anim_ready_handler stress_callbacks 0%nat st2 = Some st3 /\
        ~ In 0%nat (map addr (_lv_anim_ll st3)) /\
        trace st3 = trace st2 ++ evs /\
        readies evs = (if ready_cb anim_back_once =? NULL then []
                       else [(ready_cb anim_back_once, b')]).
Proof.
  assert (H1 : ll_deref (_lv_anim_ll st_back_once) 0%nat
               = Some anim_back_once) by reflexivity.
  assert (H4 : playback_time anim_back_once <> 0) by discriminate.
  assert (H5 : playback_now anim_back_once = false) by reflexivity.
  assert (H6 : repeat_cnt anim_back_once = 1) by reflexivity.
  split; [exact H1 |].
  split; [exact (proj1 anim_back_once_typed) |].
  split; [exact (proj2 anim_back_once_typed) |].
  split; [exact H4 |]. split; [exact H5 |]. split; [exact H6 |].
  exact (playback_ready_after_return stress_callbacks 0%nat st_back_once
           anim_back_once H1 (proj1 anim_back_once_typed)
           (proj2 anim_back_once_typed) H4 H5 H6).
Defined.

(** X22.  While a record waits in its delay (the elapsed time is still negative
    after the round), a round of the frame loop calls nothing: no start
    callback, no path function, no [exec_cb], no ready handler.  It stamps
    the parity of the round and adds the ticks. *)
Theorem round_in_delay_is_silent : forall cbs elaps p r st,
  advanced_time elaps r < 0 ->
  anim_timer_round cbs elaps p r st
    = Some (set_ll (ll_store (_lv_anim_ll st) p
                      (set_act_time (advanced_time elaps r)
                         (set_run_round (anim_run_round st) r)))
              (emit (ev_round p) st)).
Proof.
  intros cbs elaps p r st H. unfold advanced_time in *.
  unfold anim_timer_round, round_advance, round_tick, round_first_tick.
  cbn [act_time set_run_round anim_run_round emit].
  replace (int32_t (uint32_t (act_time r + elaps)) >=? 0) with false
    by (symmetry; lia).
  rewrite andb_false_r. cbn [act_time set_act_time set_run_round].
  replace (int32_t (uint32_t (act_time r + elaps)) >=? 0) with false
    by (symmetry; lia).
  reflexivity.
Qed.

Lemma round_in_delay_is_silent_witness :
  advanced_time 16 anim_waiting < 0 /\
  exists st',
    anim_timer_round quiet_callbacks 16 0%nat anim_waiting st_waiting
      = Some st' /\
    trace st' = [ev_round 0%nat].
Proof.
  assert (H : advanced_time 16 anim_waiting < 0) by reflexivity.
  split; [exact H |].
  eexists. split.
  - exact (round_in_delay_is_silent quiet_callbacks 16 0%nat anim_waiting
             st_waiting H).
  - reflexivity.
Defined.

(* ================================================================== *)
(** ** The start callback *)
(* ================================================================== *)

Lemma starts_app : forall t1 t2, starts (t1 ++ t2) = starts t1 ++ starts t2.
Proof. intros. unfold starts. apply flat_map_app. Qed.

Lemma start_events_starts : forall cbs a st,
  starts (start_events cbs a st) = [].
Proof.
  intros cbs a st. unfold start_events. cbv zeta.
  destruct (early_apply a); [| reflexivity].
  destruct (get_value_cb a =? NULL);
    destruct (negb (exec_cb a =? NULL) && negb (var a =? NULL)); reflexivity.
Qed.

Lemma lv_anim_start_starts : forall cbs a st,
  heap_ok st ->
  exists evs, trace (lv_anim_start cbs a st) = trace st ++ evs /\
              starts evs = [].
Proof.
  intros cbs a st Hh.
  destruct (next_alloc_ok st) eqn:Ea.
  - destruct (lv_anim_start_ok cbs a st (proj1 Hh) Ea) as (_ & Ht & _).
    exists (start_events cbs a st). split; [exact Ht |].
    apply start_events_starts.
  - unfold next_alloc_ok in Ea.
    destruct (heap_plan st) as [| [|] plan] eqn:Ep; try discriminate.
    destruct (start_cleared_spec a st (proj1 Hh))
      as (_ & _ & _ & Hp & Ht & _).
    rewrite (lv_anim_start_fail cbs a st plan) by (rewrite Hp; exact Ep).
    exists []. simpl. rewrite Ht, app_nil_r. split; reflexivity.
Qed.

Lemma run_api_starts : forall cbs calls st,
  heap_ok st ->
  exists evs, trace (run_api cbs calls st) = trace st ++ evs /\
              starts evs = [].
Proof.
  induction calls as [| c calls IH]; intros st Hh.
  - exists []. now rewrite app_nil_r.
  - destruct c as [a | v cb |]; simpl.
    + destruct (lv_anim_start_starts cbs a st Hh) as (e1 & H1 & S1).
      destruct (IH (lv_anim_start cbs a st))
        as (e2 & H2 & S2); [now apply (api_step_start cbs a st) |].
      exists (e1 ++ e2). rewrite H2, H1, app_assoc, starts_app, S1, S2.
      split; reflexivity.
    + destruct (IH (snd (lv_anim_del v cb st)))
        as (e2 & H2 & S2); [now apply (api_step_del v cb st) |].
      destruct (lv_anim_del_frame v cb st) as (_ & _ & _ & _ & _ & Ht).
      cbv zeta in Ht. exists e2. rewrite H2, Ht. now split.
    + destruct (IH (lv_anim_del_all st))
        as (e2 & H2 & S2); [now apply (api_step_del_all st) |].
      exists e2. rewrite H2. split; [| exact S2].
      unfold lv_anim_del_all.
      destruct (mark_frame (set_ll (_lv_ll_clear (_lv_anim_ll st)) st))
        as (_ & _ & _ & _ & _ & Ht).
      cbv zeta in Ht. now rewrite Ht.
Qed.

Lemma ready_handler_starts : forall cbs p st st',
  heap_ok st -> anim_ready_handler cbs p st = Some st' ->
  exists evs, trace st' = trace st ++ evs /\ starts evs = [].
Proof.
  intros cbs p st st' Hh E. unfold anim_ready_handler in E.
  destruct (ll_deref (_lv_anim_ll st) p) as [a |] eqn:Hd; [| discriminate].
  cbv zeta in E.
  destruct (ready_terminal (ready_decrement a)).
  - pose proof (heap_ok_mark _ (heap_ok_remove st p Hh)) as Hm.
    destruct (mark_frame (set_ll (_lv_ll_remove (_lv_anim_ll st) p) st))
      as (_ & _ & _ & _ & _ & Ht).
    cbv zeta in Ht. simpl in Ht.
    destruct (ready_cb (ready_decrement a) =? NULL); inversion E; subst.
    + exists []. now rewrite Ht, app_nil_r.
    + unfold call_ready_cb.
      match goal with
      | |- context [run_api cbs ?calls (emit ?e ?s)] =>
          destruct (run_api_starts cbs calls (emit e s)) as (e2 & H2 & S2);
          [exact Hm |]; exists (e :: e2); rewrite H2
      end.
      simpl. rewrite Ht, <- app_assoc. split; [reflexivity | exact S2].
  - inversion E; subst. exists []. simpl. now rewrite app_nil_r.
Qed.

Lemma round_advance_starts : forall cbs elaps p r st,
  exists a' evs ready,
    round_advance cbs elaps p r st = (a', emit_all evs st, ready) /\
    map fst (starts evs)
      = (if (act_time r <=? 0) && (0 <=? advanced_time elaps r)
            && negb (start_cb r =? NULL)
         then [start_cb r] else []).
Proof.
  intros cbs elaps p r st.
  assert (Ht : exists a1 evs,
             round_tick cbs elaps p r st = (a1, emit_all evs st) /\
             map fst (starts evs)
               = (if (act_time r <=? 0) && (0 <=? advanced_time elaps r)
                     && negb (start_cb r =? NULL)
                  then [start_cb r] else [])).
  { unfold round_tick, round_first_tick, advanced_time.
    cbn [act_time set_run_round early_apply get_value_cb].
    rewrite Z.geb_leb. rewrite (emit_as_emit_all (ev_round p) st).
    destruct ((act_time r <=? 0)
              && (0 <=? int32_t (uint32_t (act_time r + elaps)))).
    - destruct (negb (early_apply r) && negb (get_value_cb r =? NULL)).
      + unfold apply_value_offset, offset_record.
        cbn [start_cb set_end_value set_start_value set_run_round].
        destruct (start_cb r =? NULL); eexists; eexists;
          (split; [rewrite ?emit_emit_all; reflexivity | reflexivity]).
      + cbn [start_cb set_run_round].
        destruct (start_cb r =? NULL); eexists; eexists;
          (split; [rewrite ?emit_emit_all; reflexivity | reflexivity]).
    - eexists; eexists.
      split; [reflexivity | reflexivity]. }
  destruct Ht as (a1 & e1 & Ht & Hs).
  unfold round_advance. rewrite Ht.
  destruct (act_time a1 >=? 0).
  - destruct (round_apply_detail cbs (round_clamp a1) st e1)
      as (Hr & _).
    cbv zeta in Hr.
    destruct (round_apply cbs (round_clamp a1) (emit_all e1 st)) as [a2 st2].
    simpl in Hr. subst st2.
    eexists; eexists; eexists. split; [reflexivity |].
    rewrite starts_app, map_app, Hs.
    destruct (_ || _); simpl; now rewrite app_nil_r.
  - eexists; eexists; eexists. split; [reflexivity | exact Hs].
Qed.

Lemma heap_ok_same : forall st st',
  _lv_anim_ll st' = _lv_anim_ll st -> heap_next st' = heap_next st ->
  heap_ok st -> heap_ok st'.
Proof.
  intros st st' Hl Hn (Hnd & Hlt). split; rewrite Hl; [exact Hnd |].
  intros n Hin. rewrite Hn. now apply Hlt.
Qed.

(** X23.  In a round of the frame loop the start callback is called when the
    elapsed time of the record goes from negative or 0 to 0 or more, and
    then once; in no other round: neither the ready handler nor what a
    ready callback starts or deletes calls one. *)
Theorem start_cb_on_first_tick : forall cbs elaps p r st,
  heap_ok st -> ll_deref (_lv_anim_ll st) p = Some r ->
  exists st' evs,
    anim_timer_round cbs elaps p r st = Some st' /\
    trace st' = trace st ++ evs /\
    map fst (starts evs)
      = (if (act_time r <=? 0) && (0 <=? advanced_time elaps r)
            && negb (start_cb r =? NULL)
         then [start_cb r] else []).
Proof.
  intros cbs elaps p r st Hh Hd.
  destruct (anim_timer_round_spec cbs elaps p r st Hh Hd) as (st' & E & _).
  exists st'. pose proof E as E'. unfold anim_timer_round in E'.
  destruct (round_advance_starts cbs elaps p r st)
    as (a' & evs & ready & Hr & Hs).
  rewrite Hr in E'. cbv zeta in E'.
  destruct ready.
  - apply ready_handler_starts in E'.
    + destruct E' as (e2 & Ht & S2). exists (evs ++ e2).
      split; [exact E |]. split.
      * rewrite Ht. simpl. now rewrite app_assoc.
      * rewrite starts_app, S2, app_nil_r. exact Hs.
    + apply heap_ok_store. revert Hh. now apply heap_ok_same.
  - inversion E'; subst. exists evs.
    split; [exact E |]. split; [reflexivity | exact Hs].
Qed.

Lemma st_waiting_heap_ok : heap_ok st_waiting.
Proof. apply heap_okb_sound. vm_compute. reflexivity. Qed.

Lemma start_cb_on_first_tick_witness :
  heap_ok st_waiting /\
  ll_deref (_lv_anim_ll st_waiting) 0%nat = Some anim_waiting /\
  exists st' evs,
    anim_timer_round quiet_callbacks 1000 0%nat anim_waiting st_waiting
      = Some st' /\
    trace st' = trace st_waiting ++ evs /\
    map fst (starts evs)
      = (if (act_time anim_waiting <=? 0)
            && (0 <=? advanced_time 1000 anim_waiting)
            && negb (start_cb anim_waiting =? NULL)
         then [start_cb anim_waiting] else []).
Proof.
  assert (H : ll_deref (_lv_anim_ll st_waiting) 0%nat = Some anim_waiting)
    by reflexivity.
  split; [exact st_waiting_heap_ok |]. split; [exact H |].
  exact (start_cb_on_first_tick quiet_callbacks 1000 0%nat anim_waiting
           st_waiting st_waiting_heap_ok H).
Defined.

(** X12.  Between two frames every live record carries the parity of the last
    round, so that the next frame, which flips the parity, advances each of
    them; and no two nodes share an address. *)
Theorem records_carry_round_parity : forall cbs st n,
  reachable cbs st -> In n (_lv_anim_ll st) ->
  run_round (anim n) = anim_run_round st /\
  NoDup (map addr (_lv_anim_ll st)).
Proof.
  intros cbs st n H Hn.
  destruct (reachable_registry_ok cbs st H) as ((Hnd & _) & Hp).
  split; [| exact Hnd].
  specialize (Hp n Hn). unfold unprocessed in Hp.
  destruct (run_round (anim n)); destruct (anim_run_round st);
    (reflexivity || discriminate).
Qed.

Lemma records_carry_round_parity_witness :
  reachable stress_callbacks st_stress /\
  exists n, In n (_lv_anim_ll st_stress) /\
            run_round (anim n) = anim_run_round st_stress /\
            NoDup (map addr (_lv_anim_ll st_stress)).
Proof.
  split; [exact st_stress_reachable |].
  assert (H : exists n, In n (_lv_anim_ll st_stress)).
  { eexists. vm_compute. left. reflexivity. }
  destruct H as (n & Hn). exists n. split; [exact Hn |].
  exact (records_carry_round_parity stress_callbacks st_stress n
           st_stress_reachable Hn).
Defined.

(* ================================================================== *)
(** ** The apply function *)
(* ================================================================== *)

(** X24.  A round in the middle of the time window (the elapsed time is 0 or more
    and below the duration, and the range is not moved by [get_value_cb])
    evaluates the path function on the record with the new elapsed time and
    calls [exec_cb] with the value only when it differs from
    [current_value]: an unchanged value is not applied again.  The record is
    stored with the value and the elapsed time, and its node stays. *)
Theorem exec_cb_only_on_change : forall cbs elaps p r st,
  0 <= advanced_time elaps r < time r ->
  early_apply r = true \/ get_value_cb r = NULL ->
  exists st' evs a',
    anim_timer_round cbs elaps p r st = Some st' /\
    trace st' = trace st ++ evs /\
    execs evs
      = (if (path_call cbs (set_act_time (advanced_time elaps r)
                              (set_run_round (anim_run_round st) r))
             =? current_value r)
            || (exec_cb r =? NULL)
         then []
         else [(exec_cb r, var r,
                path_call cbs (set_act_time (advanced_time elaps r)
                                 (set_run_round (anim_run_round st) r)))]) /\
    _lv_anim_ll st' = ll_store (_lv_anim_ll st) p a' /\
    current_value a'
      = path_call cbs (set_act_time (advanced_time elaps r)
                         (set_run_round (anim_run_round st) r)) /\
    act_time a' = advanced_time elaps r.
Proof.
  intros cbs elaps p r st Hadv Hno.
  set (a1 := set_act_time (advanced_time elaps r)
               (set_run_round (anim_run_round st) r)).
  assert (Ht : exists e1,
             round_tick cbs elaps p r st = (a1, emit_all (ev_round p :: e1) st)
             /\ execs e1 = []).
  { unfold round_tick, round_first_tick. fold (advanced_time elaps r).
    cbn [act_time set_run_round early_apply get_value_cb anim_run_round emit].
    fold (advanced_time elaps r).
    rewrite (emit_as_emit_all (ev_round p) st).
    replace (negb (early_apply r) && negb (get_value_cb r =? NULL))
      with false
      by (destruct Hno as [-> | ->]; [reflexivity | now rewrite andb_false_r]).
    destruct ((act_time r <=? 0) && (advanced_time elaps r >=? 0)).
    - cbn [start_cb set_run_round].
      destruct (start_cb r =? NULL).
      + exists []. split; reflexivity.
      + exists [ev_start (start_cb r) (set_run_round (anim_run_round st) r)].
        rewrite emit_emit_all. split; reflexivity.
    - exists []. split; reflexivity. }
  destruct Ht as (e1 & Ht & He1).
  assert (Hc : round_clamp a1 = a1).
  { unfold round_clamp, a1. cbn [act_time time set_act_time set_run_round].
    replace (advanced_time elaps r >? time r) with false by (symmetry; lia).
    reflexivity. }
  unfold anim_timer_round, round_advance. rewrite Ht.
  replace (act_time a1 >=? 0) with true
    by (unfold a1; cbn [act_time set_act_time]; symmetry; lia).
  rewrite Hc.
  destruct (round_apply_detail cbs a1 st (ev_round p :: e1))
    as (Hs & Hsch & _ & Hat & _ & _ & Hcv).
  cbv zeta in Hs, Hsch, Hat, Hcv.
  destruct (round_apply cbs a1 (emit_all (ev_round p :: e1) st))
    as [a2 st2].
  cbn [fst snd] in Hs, Hsch, Hat, Hcv. subst st2.
  replace (act_time a2 >=? time a2) with false.
  2:{ destruct Hsch as (_ & _ & _ & _ & _ & _ & Htime & _).
      rewrite Hat, Htime. unfold a1.
      cbn [act_time time set_act_time set_run_round]. symmetry. lia. }
  eexists. eexists. exists a2.
  split; [reflexivity |]. cbn [trace set_ll emit_all _lv_anim_ll].
  split; [reflexivity |].
  split.
  { change (ev_round p :: e1 ++ ?x) with ((ev_round p :: e1) ++ x).
    rewrite execs_app. cbn [execs flat_map app]. fold (execs e1).
    rewrite He1. cbn [app].
    unfold a1 at 1 2.
    cbn [current_value exec_cb var set_act_time set_run_round].
    destruct (_ || _); reflexivity. }
  split; [reflexivity |].
  split; [exact Hcv |].
  rewrite Hat. reflexivity.
Qed.

Lemma exec_cb_only_on_change_witness :
  0 <= advanced_time 250 (anim_for 1 7) < time (anim_for 1 7) /\
  (early_apply (anim_for 1 7) = true \/ get_value_cb (anim_for 1 7) = NULL) /\
  exists st' evs a',
    anim_timer_round quiet_callbacks 250 0%nat (anim_for 1 7) st_one
      = Some st' /\
    trace st' = trace st_one ++ evs /\
    execs evs
      = (if (path_call quiet_callbacks
               (set_act_time (advanced_time 250 (anim_for 1 7))
                  (set_run_round (anim_run_round st_one) (anim_for 1 7)))
             =? current_value (anim_for 1 7))
            || (exec_cb (anim_for 1 7) =? NULL)
         then []
         else [(exec_cb (anim_for 1 7), var (anim_for 1 7),
                path_call quiet_callbacks
                  (set_act_time (advanced_time 250 (anim_for 1 7))
                     (set_run_round (anim_run_round st_one)
                        (anim_for 1 7))))]) /\
    _lv_anim_ll st' = ll_store (_lv_anim_ll st_one) 0%nat a' /\
    current_value a'
      = path_call quiet_callbacks
          (set_act_time (advanced_time 250 (anim_for 1 7))
             (set_run_round (anim_run_round st_one) (anim_for 1 7))) /\
    act_time a' = advanced_time 250 (anim_for 1 7).
Proof.
  assert (H1 : 0 <= advanced_time 250 (anim_for 1 7) < time (anim_for 1 7))
    by (vm_compute; split; [discriminate | reflexivity]).
  assert (H2 : early_apply (anim_for 1 7) = true
               \/ get_value_cb (anim_for 1 7) = NULL)
    by (left; reflexivity).
  split; [exact H1 |]. split; [exact H2 |].
  exact (exec_cb_only_on_change quiet_callbacks 250 0%nat (anim_for 1 7)
           st_one H1 H2).
Defined.

(* ================================================================== *)
(** ** The frame loop with callbacks that call back *)
(* ================================================================== *)

Lemma filter_no_match : forall (A : Type) (f : A -> bool) (l : list A),
  existsb f l = false -> filter (fun x => negb (f x)) l = l.
Proof.
  intros A f l. induction l as [| x l IH]; simpl; intros H; [reflexivity |].
  apply orb_false_iff in H. destruct H as (Hx & Hl).
  rewrite Hx. simpl. now rewrite IH.
Qed.

Lemma lv_anim_del_unchanged : forall v cb st,
  NoDup (map addr (_lv_anim_ll st)) ->
  anim_list_changed (snd (lv_anim_del v cb st)) = false ->
  _lv_anim_ll (snd (lv_anim_del v cb st)) = _lv_anim_ll st.
Proof.
  intros v cb st Hnd Hc. rewrite (lv_anim_del_ll v cb st Hnd).
  unfold lv_anim_del in Hc.
  destruct (lv_anim_del_loop_spec (_lv_anim_ll st) v cb false st)
    as (_ & _ & Hc' & _).
  rewrite Hc' in Hc. apply orb_false_iff in Hc.
  now apply filter_no_match.
Qed.

Lemma start_cleared_unchanged : forall a st,
  NoDup (map addr (_lv_anim_ll st)) ->
  anim_list_changed (start_cleared a st) = false ->
  _lv_anim_ll (start_cleared a st) = _lv_anim_ll st.
Proof.
  intros a st Hnd. unfold start_cleared.
  destruct (exec_cb a =? NULL).
  - destruct (_lv_ll_is_empty _); reflexivity.
  - destruct (_lv_ll_is_empty _); simpl; now apply lv_anim_del_unchanged.
Qed.

Lemma lv_anim_start_unchanged : forall cbs a st,
  heap_ok st ->
  anim_list_changed (lv_anim_start cbs a st) = false ->
  _lv_anim_ll (lv_anim_start cbs a st) = _lv_anim_ll st.
Proof.
  intros cbs a st (Hnd & _).
  destruct (next_alloc_ok st) eqn:Ea.
  - destruct (lv_anim_start_ok cbs a st Hnd Ea) as (_ & _ & _ & _ & _ & Hc & _).
    rewrite Hc. discriminate.
  - unfold next_alloc_ok in Ea.
    destruct (heap_plan st) as [| [|] plan] eqn:Ep; try discriminate.
    destruct (start_cleared_spec a st Hnd) as (_ & _ & _ & Hp & _).
    rewrite (lv_anim_start_fail cbs a st plan) by (rewrite Hp; exact Ep).
    simpl. now apply start_cleared_unchanged.
Qed.

(** API calls that leave [anim_list_changed] down have left the list as it
    was. *)
Lemma run_api_unchanged : forall cbs calls st,
  heap_ok st ->
  anim_list_changed (run_api cbs calls st) = false ->
  _lv_anim_ll (run_api cbs calls st) = _lv_anim_ll st.
Proof.
  intros cbs calls. induction calls as [| c calls IH]; intros st Hok Hc;
    [reflexivity |].
  assert (Hstep : forall st1,
            api_step st st1 ->
            (anim_list_changed st1 = false ->
             _lv_anim_ll st1 = _lv_anim_ll st) ->
            anim_list_changed (run_api cbs calls st1) = false ->
            _lv_anim_ll (run_api cbs calls st1) = _lv_anim_ll st).
  { intros st1 Hs Hsame Hc1.
    destruct (Hs Hok) as (Hok1 & _).
    destruct (api_step_run_api cbs calls st1 Hok1)
      as (_ & _ & _ & _ & Hmono & _).
    destruct (anim_list_changed st1) eqn:E1.
    - rewrite Hmono in Hc1 by reflexivity. discriminate.
    - rewrite (IH st1 Hok1 Hc1). now apply Hsame. }
  destruct c as [a | v cb |]; simpl in *.
  - apply Hstep; [apply api_step_start | | exact Hc].
    now apply lv_anim_start_unchanged.
  - apply Hstep; [apply api_step_del | | exact Hc].
    apply lv_anim_del_unchanged. apply Hok.
  - apply Hstep; [apply api_step_del_all | | exact Hc].
    unfold lv_anim_del_all. rewrite mark_changed. discriminate.
Qed.

Lemma linked_deref : forall p st,
  linked p st = true -> exists r, ll_deref (_lv_anim_ll st) p = Some r.
Proof.
  intros p st. unfold linked.
  destruct (ll_deref (_lv_anim_ll st) p) as [r |]; [eauto | discriminate].
Qed.

(** A node that is linked after API calls holds what it held before. *)
Lemma api_step_deref : forall st st' p r,
  api_step st st' -> heap_ok st ->
  ll_deref (_lv_anim_ll st) p = Some r -> linked p st' = true ->
  ll_deref (_lv_anim_ll st') p = Some r.
Proof.
  intros st st' p r Hs Hok Hd Hl.
  destruct (Hs Hok) as (_ & _ & _ & _ & _ & Hnodes).
  destruct (linked_deref p st' Hl) as (r' & Hd').
  rewrite Hd'. f_equal.
  pose proof (ll_deref_in _ _ _ Hd) as Hin.
  pose proof (ll_deref_in _ _ _ Hd') as Hin'.
  destruct Hok as (Hnd & Hlt).
  destruct (Hnodes _ Hin') as [Hold | (Hge & _)].
  - pose proof (addr_inj _ _ _ Hnd Hold Hin eq_refl) as E.
    now inversion E.
  - apply Hlt in Hin. simpl in *. lia.
Qed.

Lemma round_mid_begin : forall p r st0,
  heap_ok st0 -> ll_deref (_lv_anim_ll st0) p = Some r ->
  round_mid p st0 (emit (ev_round p) st0).
Proof.
  intros p r st0 Hok Hd.
  split; [exact Hok |]. split; [reflexivity |]. split; [simpl; lia |].
  split; [reflexivity |].
  split; [exists []; split; reflexivity |].
  split; [intros n Hn; now left |].
  intros _ _. reflexivity.
Qed.

Lemma round_mid_emit : forall p st0 st e,
  round_mid p st0 st -> rounds [e] = [] -> round_mid p st0 (emit e st).
Proof.
  intros p st0 st e (Hok & Hr & Hn & Hd & (evs & Ht & Hrd) & Hnodes & Hsame) He.
  split; [exact Hok |]. split; [exact Hr |]. split; [exact Hn |].
  split; [exact Hd |].
  split.
  { exists (evs ++ [e]). simpl. rewrite Ht, <- app_assoc. simpl.
    split; [reflexivity |]. now rewrite rounds_app, Hrd, He. }
  split; [exact Hnodes | exact Hsame].
Qed.

Lemma round_mid_called : forall cbs calls p r st0 st,
  round_mid p st0 st -> ll_deref (_lv_anim_ll st0) p = Some r ->
  linked p (run_api cbs calls st) = true ->
  Reentrant.called cbs calls p st = Some (run_api cbs calls st) /\
  round_mid p st0 (run_api cbs calls st).
Proof.
  intros cbs calls p r st0 st
    (Hok & Hr & Hn & Hd & (evs & Ht & Hrd) & Hnodes & Hsame) Hd0 Hl.
  split; [unfold Reentrant.called; cbv zeta; now rewrite Hl |].
  pose proof (api_step_run_api cbs calls st) as Hs.
  destruct (Hs Hok) as (Hok' & Hr' & Hn' & (e' & Ht' & Hrd' & _) & Hmono & Hnodes').
  split; [exact Hok' |]. split; [congruence |]. split; [lia |].
  split.
  { rewrite Hd0. rewrite Hd0 in Hd.
    now apply (api_step_deref st _ p r Hs Hok Hd Hl). }
  split.
  { exists (evs ++ e'). rewrite Ht', Ht, <- app_assoc. simpl.
    split; [reflexivity |]. now rewrite rounds_app, Hrd, Hrd'. }
  split.
  { intros n Hin. destruct (Hnodes' n Hin) as [Hold | (Hge & Hu)].
    - destruct (Hnodes n Hold) as [H | (Hge & Hu)]; [now left |].
      right. split; [exact Hge |]. unfold unprocessed in *. now rewrite Hr'.
    - right. split; [lia | exact Hu]. }
  intros Hc0 Hc'.
  destruct (anim_list_changed st) eqn:Hc.
  - rewrite Hmono in Hc' by reflexivity. discriminate.
  - rewrite (run_api_unchanged cbs calls st Hok Hc'). now apply Hsame.
Qed.

Lemma offset_record_schedule : forall cbs a tr,
  same_schedule a (offset_record cbs a tr) /\
  run_round (offset_record cbs a tr) = run_round a /\
  act_time (offset_record cbs a tr) = act_time a.
Proof. intros. unfold offset_record, same_schedule. simpl. tauto. Qed.

Lemma same_schedule_refl : forall a, same_schedule a a.
Proof. intros a. unfold same_schedule. tauto. Qed.

Section Spared.

Variable cbs : callbacks.
Variable rc : reentry.
Hypothesis Hsp : spares cbs rc.

Lemma reentrant_first_tick_spec : forall elaps p r a st0 st,
  round_mid p st0 st -> ll_deref (_lv_anim_ll st0) p = Some r ->
  same_schedule r a ->
  exists a' st',
    Reentrant.round_first_tick cbs rc elaps p a st = Some (a', st') /\
    round_mid p st0 st' /\ same_schedule r a' /\
    run_round a' = run_round a /\ act_time a' = act_time a.
Proof.
  intros elaps p r a st0 st Hmid Hd0 Hs.
  unfold Reentrant.round_first_tick. cbv zeta.
  destruct ((act_time a <=? 0) && (_ >=? 0));
    [| exists a, st; split; [reflexivity |]; split; [exact Hmid |];
       split; [exact Hs |]; split; reflexivity].
  assert (Hoff : exists a1 st1,
            (if negb (early_apply a) && negb (get_value_cb a =? NULL)
             then
               let '(a1, st) := apply_value_offset cbs a st in
               match Reentrant.called cbs
                       (get_value_calls rc (get_value_cb a) (var a)) p st with
               | Some st => Some (a1, st)
               | None => None
               end
             else Some (a, st)) = Some (a1, st1) /\
            round_mid p st0 st1 /\ same_schedule r a1 /\
            run_round a1 = run_round a /\ act_time a1 = act_time a).
  { destruct (negb (early_apply a) && negb (get_value_cb a =? NULL));
      [| exists a, st; split; [reflexivity |]; split; [exact Hmid |];
         split; [exact Hs |]; split; reflexivity].
    unfold apply_value_offset.
    set (st1 := emit (ev_get_value (get_value_cb a) (var a)) st).
    assert (Hmid1 : round_mid p st0 st1)
      by (apply round_mid_emit; [exact Hmid | reflexivity]).
    assert (Hd1 : ll_deref (_lv_anim_ll st1) p = Some r).
    { destruct Hmid1 as (_ & _ & _ & Hd1 & _). now rewrite Hd1. }
    destruct (Hsp st1 p r a (proj1 Hmid1) Hd1 Hs) as (Hl & _).
    destruct (round_mid_called cbs _ p r st0 st1 Hmid1 Hd0 Hl) as (Hc & Hmid2).
    rewrite Hc.
    destruct (offset_record_schedule cbs a (trace st)) as (Hs1 & Hr1 & Ha1).
    eexists. eexists. split; [reflexivity |].
    split; [exact Hmid2 |].
    split; [exact (same_schedule_trans _ _ _ Hs Hs1) |].
    split; assumption. }
  destruct Hoff as (a1 & st1 & -> & Hmid1 & Hs1 & Hr1 & Ha1).
  destruct (start_cb a1 =? NULL);
    [exists a1, st1; split; [reflexivity |]; split; [exact Hmid1 |];
     split; [exact Hs1 |]; split; assumption |].
  set (st2 := emit (ev_start (start_cb a1) a1) st1).
  assert (Hmid2 : round_mid p st0 st2)
    by (apply round_mid_emit; [exact Hmid1 | reflexivity]).
  assert (Hd2 : ll_deref (_lv_anim_ll st2) p = Some r).
  { destruct Hmid2 as (_ & _ & _ & Hd2 & _). now rewrite Hd2. }
  destruct (Hsp st2 p r a1 (proj1 Hmid2) Hd2 Hs1) as (_ & Hl & _).
  destruct (round_mid_called cbs _ p r st0 st2 Hmid2 Hd0 Hl) as (Hc & Hmid3).
  rewrite Hc. eexists. eexists. split; [reflexivity |].
  split; [exact Hmid3 |]. split; [exact Hs1 |]. split; assumption.
Qed.

Lemma reentrant_apply_spec : forall p r a st0 st,
  round_mid p st0 st -> ll_deref (_lv_anim_ll st0) p = Some r ->
  same_schedule r a ->
  exists a' st',
    Reentrant.round_apply cbs rc p a st = Some (a', st') /\
    round_mid p st0 st' /\ same_schedule r a' /\
    run_round a' = run_round a /\ act_time a' = act_time a.
Proof.
  intros p r a st0 st Hmid Hd0 Hs.
  unfold Reentrant.round_apply. cbv zeta.
  assert (Hpath : exists st1,
            match path_cb a with
            | path_user f => Reentrant.called cbs (path_calls rc f a) p st
            | _ => Some st
            end = Some st1 /\ round_mid p st0 st1).
  { destruct (path_cb a) as [| | | | | | | | f] eqn:Ep;
      try (exists st; split; [reflexivity | exact Hmid]).
    assert (Hd : ll_deref (_lv_anim_ll st) p = Some r).
    { destruct Hmid as (_ & _ & _ & Hd & _). now rewrite Hd. }
    destruct (Hsp st p r a (proj1 Hmid) Hd Hs) as (_ & _ & Hl & _).
    destruct (round_mid_called cbs _ p r st0 st Hmid Hd0 (Hl f Ep))
      as (Hc & Hmid1).
    eexists. split; [exact Hc | exact Hmid1]. }
  destruct Hpath as (st1 & -> & Hmid1).
  destruct (negb (path_call cbs a =? current_value a));
    [| exists a, st1; split; [reflexivity |]; split; [exact Hmid1 |];
       split; [exact Hs |]; split; reflexivity].
  set (a2 := set_current_value (path_call cbs a) a).
  assert (Hs2 : same_schedule r a2).
  { apply (same_schedule_trans _ _ _ Hs). unfold a2, same_schedule. simpl.
    tauto. }
  destruct (exec_cb a2 =? NULL);
    [exists a2, st1; split; [reflexivity |]; split; [exact Hmid1 |];
     split; [exact Hs2 |]; split; reflexivity |].
  set (st2 := emit (ev_exec (exec_cb a2) (var a2) (path_call cbs a)) st1).
  assert (Hmid2 : round_mid p st0 st2)
    by (apply round_mid_emit; [exact Hmid1 | reflexivity]).
  assert (Hd2 : ll_deref (_lv_anim_ll st2) p = Some r).
  { destruct Hmid2 as (_ & _ & _ & Hd2 & _). now rewrite Hd2. }
  destruct (Hsp st2 p r a2 (proj1 Hmid2) Hd2 Hs2) as (_ & _ & _ & Hl).
  destruct (round_mid_called cbs _ p r st0 st2 Hmid2 Hd0
              (Hl (path_call cbs a))) as (Hc & Hmid3).
  rewrite Hc. eexists. eexists. split; [reflexivity |].
  split; [exact Hmid3 |]. split; [exact Hs2 |]. split; reflexivity.
Qed.

Lemma reentrant_advance_spec : forall elaps p r st0,
  heap_ok st0 -> ll_deref (_lv_anim_ll st0) p = Some r ->
  exists a' st' ready,
    Reentrant.round_advance cbs rc elaps p r st0 = Some (a', st', ready) /\
    round_mid p st0 st' /\ same_schedule r a' /\
    run_round a' = anim_run_round st0.
Proof.
  intros elaps p r st0 Hok Hd0.
  unfold Reentrant.round_advance, Reentrant.round_tick. cbv zeta.
  set (a0 := set_run_round (anim_run_round st0) r).
  assert (Hs0 : same_schedule r a0)
    by (unfold a0, same_schedule; simpl; tauto).
  destruct (reentrant_first_tick_spec elaps p r a0 st0
              (emit (ev_round p) st0) (round_mid_begin p r st0 Hok Hd0) Hd0 Hs0)
    as (a1 & st1 & -> & Hmid1 & Hs1 & Hr1 & _).
  set (a2 := set_act_time (int32_t (uint32_t (act_time a1 + elaps))) a1).
  assert (Hs2 : same_schedule r a2).
  { apply (same_schedule_trans _ _ _ Hs1). unfold a2, same_schedule. simpl.
    tauto. }
  assert (Hr2 : run_round a2 = anim_run_round st0) by exact Hr1.
  destruct (act_time a2 >=? 0).
  - destruct (round_clamp_spec a2) as (Hsc & Hrc & _).
    destruct (reentrant_apply_spec p r (round_clamp a2) st0 st1 Hmid1 Hd0
                (same_schedule_trans _ _ _ Hs2 Hsc))
      as (a3 & st3 & -> & Hmid3 & Hs3 & Hr3 & _).
    eexists. eexists. eexists. split; [reflexivity |].
    split; [exact Hmid3 |]. split; [exact Hs3 |]. congruence.
  - eexists. eexists. eexists. split; [reflexivity |].
    split; [exact Hmid1 |]. split; [exact Hs2 | exact Hr2].
Qed.

(** One round of one record when the callbacks spare the node: as
    [anim_timer_round_spec]. *)
Lemma reentrant_round_spec : forall elaps p r st,
  heap_ok st -> ll_deref (_lv_anim_ll st) p = Some r ->
  exists st',
    Reentrant.anim_timer_round cbs rc elaps p r st = Some st' /\
    heap_ok st' /\ anim_run_round st' = anim_run_round st /\
    (heap_next st <= heap_next st')%nat /\
    (exists evs, trace st' = trace st ++ ev_round p :: evs /\ rounds evs = []) /\
    round_nodes p st st' /\
    (anim_list_changed st = false -> anim_list_changed st' = false ->
     exists a'', _lv_anim_ll st' = ll_store (_lv_anim_ll st) p a'' /\
                 run_round a'' = anim_run_round st).
Proof.
  intros elaps p r st Hok Hd.
  unfold Reentrant.anim_timer_round.
  destruct (reentrant_advance_spec elaps p r st Hok Hd)
    as (a' & stm & ready & -> & Hmid & _ & Hrr).
  destruct Hmid as (Hokm & Hrm & Hnm & Hdm & (evs & Htm & Hrdm) & Hnodes & Hsame).
  pose proof Hokm as (Hndm & Hltm).
  set (st_a := set_ll (ll_store (_lv_anim_ll stm) p a') stm).
  assert (Hok_a : heap_ok st_a) by (now apply heap_ok_store).
  assert (Hstore : forall n, In n (_lv_anim_ll st_a) ->
            (addr n = p /\ unprocessed st_a n = false) \/
            (In n (_lv_anim_ll st) /\ addr n <> p) \/
            ((heap_next st <= addr n)%nat /\ unprocessed st_a n = false)).
  { intros n Hin. simpl in Hin.
    destruct (ll_store_in _ _ _ _ Hndm Hin) as [-> | (Hn & Hne)].
    - left. split; [reflexivity |]. unfold unprocessed. simpl.
      rewrite Hrr, Hrm. apply xorb_nilpotent.
    - right. destruct (Hnodes n Hn) as [Hold | (Hge & Hu)];
        [left; now split | right; now split]. }
  rewrite Hd in Hdm.
  assert (Hd_a : ll_deref (_lv_anim_ll st_a) p = Some a').
  { simpl. apply ll_store_deref. eapply ll_deref_addr; eauto. }
  assert (Hrr_a : run_round a' = anim_run_round st_a)
    by (simpl; congruence).
  destruct ready.
  - destruct (anim_ready_handler_spec cbs p a' st_a Hok_a Hd_a Hrr_a)
      as (st' & Hh & Hok' & Hr' & Hn' & (evs' & He' & Hrd') & Hnodes' & Ht & Hnt).
    exists st'. split; [exact Hh |]. split; [exact Hok' |].
    split; [simpl in Hr'; congruence |]. split; [simpl in Hn'; lia |].
    split.
    { exists (evs ++ evs'). rewrite He'. simpl. rewrite Htm.
      rewrite <- app_assoc. simpl. split; [reflexivity |].
      now rewrite rounds_app, Hrdm, Hrd'. }
    split.
    { intros n Hin. destruct (Hnodes' n Hin) as [H | [(Hold & Hne) | (Hge & Hu)]].
      - now left.
      - destruct (Hstore n Hold) as [(E & _) | [H | (Hge & Hu)]];
          [contradiction | right; now left |].
        right. right. split; [exact Hge |].
        unfold unprocessed in *. now rewrite Hr'.
      - right. right. split; [simpl in Hge; lia | exact Hu]. }
    intros Hc0 Hc'.
    destruct (ready_terminal (ready_decrement a')) eqn:Hterm.
    + rewrite Ht in Hc' by reflexivity. discriminate.
    + exists (ready_restart (ready_decrement a')).
      rewrite Hnt in * by reflexivity. simpl in Hc'. simpl.
      rewrite ll_store_twice, (Hsame Hc0 Hc').
      split; [reflexivity |].
      destruct (ready_handler_keeps_round a') as (-> & _). exact Hrr.
  - exists st_a. split; [reflexivity |]. split; [exact Hok_a |].
    split; [exact Hrm |]. split; [exact Hnm |].
    split; [exists evs; simpl; auto |].
    split; [exact Hstore |].
    intros Hc0 Hc'. exists a'. simpl. simpl in Hc'.
    rewrite (Hsame Hc0 Hc'). split; [reflexivity | exact Hrr].
Qed.

(* ------------------------------------------------------------------ *)
(** *** The loop *)

(** The cursor is on a node that has run: the loop moves to the next one. *)
Lemma reentrant_step_processed : forall elaps tr0 h0 rr st pre n suf,
  loop_inv tr0 h0 rr st pre (n :: suf) ->
  unprocessed st n = false ->
  let st0 := set_anim_list_changed false st in
  (forall f, Reentrant.anim_timer_loop cbs rc elaps (S f) (Some (addr n)) st
             = Reentrant.anim_timer_loop cbs rc elaps f (_lv_ll_get_head suf) st0) /\
  loop_inv tr0 h0 rr st0 (pre ++ [n]) suf /\
  pending st0 = pending st.
Proof.
  intros elaps tr0 h0 rr st pre n suf Hinv Hu.
  destruct Hinv as (Hok & Hrr & Hh & Hl & Hpre & Hold & Hev).
  pose proof Hok as (Hnd & _). rewrite Hl in Hnd.
  pose proof (cursor_fresh _ _ _ Hnd) as Hfresh.
  cbv zeta. split; [| split].
  - intros f. simpl. rewrite Hl, (deref_at_cursor _ _ _ Hfresh).
    unfold unprocessed in Hu. rewrite Hu. simpl.
    rewrite Hl, (deref_at_cursor _ _ _ Hfresh).
    now rewrite (get_next_app _ _ _ Hfresh).
  - split; [exact Hok |]. split; [exact Hrr |]. split; [exact Hh |].
    split; [simpl; rewrite Hl, <- app_assoc; reflexivity |].
    split.
    { intros m Hin. apply in_app_or in Hin.
      destruct Hin as [Hin | [<- | []]]; [now apply Hpre | exact Hu]. }
    split; [exact Hold | exact Hev].
  - reflexivity.
Qed.

(** The cursor is on a node that has not run: its round runs, and fewer
    nodes are pending afterwards. *)
Lemma reentrant_step_unprocessed : forall elaps tr0 h0 rr st pre n suf,
  loop_inv tr0 h0 rr st pre (n :: suf) ->
  unprocessed st n = true ->
  exists st1 pre1 suf1,
    (forall f, Reentrant.anim_timer_loop cbs rc elaps (S f) (Some (addr n)) st
               = Reentrant.anim_timer_loop cbs rc elaps f (_lv_ll_get_head suf1) st1) /\
    loop_inv tr0 h0 rr st1 pre1 suf1 /\
    (length (pending st1) < length (pending st))%nat.
Proof.
  intros elaps tr0 h0 rr st pre n suf Hinv Hu.
  destruct Hinv as (Hok & Hrr & Hh & Hl & Hpre & Hold & Hev).
  destruct Hev as (evs & Htr & Hnd_ev & Hvis & Hran).
  pose proof Hok as (Hnd & Hlt).
  assert (Hnd' : NoDup (map addr (pre ++ n :: suf))) by (now rewrite <- Hl).
  pose proof (cursor_fresh _ _ _ Hnd') as Hfresh.
  set (st0 := set_anim_list_changed false st).
  assert (Hok0 : heap_ok st0) by exact Hok.
  assert (Hd0 : ll_deref (_lv_anim_ll st) (addr n) = Some (anim n)).
  { rewrite Hl. now apply deref_at_cursor. }
  destruct (reentrant_round_spec elaps (addr n) (anim n) st0 Hok0 Hd0)
    as (st1 & Hround & Hok1 & Hr1 & Hn1 & (evs1 & He1 & Hrd1) & Hnodes & Hsame).
  simpl in Hr1, Hn1, He1.
  assert (Hin_n : In n (_lv_anim_ll st)).
  { rewrite Hl. apply in_or_app. right. now left. }
  assert (Hp_pending : In (addr n) (pending st)).
  { apply pending_in. exists n. tauto. }
  (* a pending node of st1 was a pending node of st, and is not n *)
  assert (Hpend : forall q, In q (pending st1) ->
                            In q (pending st) /\ q <> addr n).
  { intros q Hq. apply pending_in in Hq. destruct Hq as (m & Hm & Hum & <-).
    destruct (Hnodes m Hm) as [(_ & Hf) | [(Hm0 & Hne) | (_ & Hf)]];
      try congruence.
    split; [| exact Hne]. apply pending_in. exists m.
    split; [exact Hm0 |]. split; [| reflexivity].
    unfold unprocessed in *. now rewrite <- Hr1. }
  assert (Hless : (length (pending st1) < length (pending st))%nat).
  { assert (Hnd1 : NoDup (addr n :: pending st1)).
    { constructor; [| now apply pending_NoDup].
      intros Hc. apply Hpend in Hc. destruct Hc as (_ & Hc). now apply Hc. }
    assert (Hincl : incl (addr n :: pending st1) (pending st)).
    { intros q [<- | Hq]; [exact Hp_pending | now apply Hpend]. }
    pose proof (NoDup_incl_length Hnd1 Hincl) as Hlen. simpl in Hlen. lia. }
  (* the part of the invariant that does not depend on the cursor *)
  assert (Hcommon :
    (forall m, In m (_lv_anim_ll st1) -> unprocessed st1 m = true ->
               (addr m < h0)%nat) /\
    exists evs',
      trace st1 = tr0 ++ evs' /\ NoDup (rounds evs') /\
      (forall q, In q (rounds evs') -> (q < h0)%nat /\ ~ In q (pending st1)) /\
      (forall m, In m (_lv_anim_ll st1) -> (addr m < h0)%nat ->
                 unprocessed st1 m = false -> In (addr m) (rounds evs'))).
  { split.
    { intros m Hm Hum.
      assert (Hq : In (addr m) (pending st1)).
      { apply pending_in. exists m. tauto. }
      apply Hpend in Hq. destruct Hq as (Hq & _).
      apply pending_in in Hq. destruct Hq as (m' & Hm' & Hum' & E).
      rewrite <- E. now apply Hold. }
    exists (evs ++ ev_round (addr n) :: evs1).
    assert (Erounds : rounds (evs ++ ev_round (addr n) :: evs1)
                      = rounds evs ++ [addr n]).
    { rewrite rounds_app. simpl. now rewrite Hrd1. }
    rewrite Erounds.
    split; [rewrite He1, Htr, <- app_assoc; reflexivity |].
    split.
    { apply NoDup_snoc; [exact Hnd_ev |]. intros Hc.
      apply Hvis in Hc. destruct Hc as (_ & Hc). now apply Hc. }
    split.
    { intros q Hq. apply in_app_or in Hq. destruct Hq as [Hq | [<- | []]].
      - destruct (Hvis q Hq) as (Hq1 & Hq2). split; [exact Hq1 |].
        intros Hc. apply Hpend in Hc. tauto.
      - split; [now apply Hold |]. intros Hc. apply Hpend in Hc. tauto. }
    intros m Hm Hm0 Hum. apply in_or_app.
    destruct (Hnodes m Hm) as [(E & _) | [(Hm' & Hne) | (Hge & _)]].
    - right. left. now symmetry.
    - left. apply Hran; [exact Hm' | exact Hm0 |].
      unfold unprocessed in *. now rewrite <- Hr1.
    - simpl in Hge. lia. }
  destruct Hcommon as (Hold1 & Hev1).
  destruct (anim_list_changed st1) eqn:Hc1.
  - (* the list changed: back to the head *)
    exists st1, [], (_lv_anim_ll st1).
    split.
    { intros f. simpl. fold st0. rewrite Hd0.
      unfold unprocessed in Hu.
      change (anim_run_round st0) with (anim_run_round st). rewrite Hu.
      rewrite Hround, Hc1. reflexivity. }
    split; [| exact Hless].
    split; [exact Hok1 |]. split; [congruence |]. split; [lia |].
    split; [reflexivity |]. split; [intros m [] |].
    split; [exact Hold1 | exact Hev1].
  - (* only the record of the node changed: on to the next node *)
    destruct (Hsame eq_refl eq_refl) as (a'' & Hl1 & Hrr1).
    simpl in Hl1, Hrr1. rewrite Hl in Hl1.
    rewrite (ll_store_split _ _ _ _ Hfresh) in Hl1.
    exists st1, (pre ++ [mk_node (addr n) a'']), suf.
    assert (Hfresh1 : ~ In (addr (mk_node (addr n) a'')) (map addr pre))
      by exact Hfresh.
    split.
    { intros f. simpl. fold st0. rewrite Hd0.
      unfold unprocessed in Hu.
      change (anim_run_round st0) with (anim_run_round st). rewrite Hu.
      rewrite Hround, Hc1, Hl1.
      assert (Hd1 : ll_deref (pre ++ mk_node (addr n) a'' :: suf) (addr n)
                    = Some a'')
        by exact (deref_at_cursor pre (mk_node (addr n) a'') suf Hfresh1).
      assert (Hg1 : _lv_ll_get_next (pre ++ mk_node (addr n) a'' :: suf)
                      (addr n) = _lv_ll_get_head suf)
        by exact (get_next_app pre (mk_node (addr n) a'') suf Hfresh1).
      now rewrite Hd1, Hg1. }
    split; [| exact Hless].
    split; [exact Hok1 |]. split; [congruence |]. split; [lia |].
    split; [rewrite Hl1, <- app_assoc; reflexivity |].
    split; [| split; [exact Hold1 | exact Hev1]].
    intros m Hm. apply in_app_or in Hm. destruct Hm as [Hm | [<- | []]].
    + assert (Hum : unprocessed st m = false) by (now apply Hpre).
      unfold unprocessed in *. now rewrite Hr1.
    + unfold unprocessed. simpl. rewrite Hrr1, Hr1. apply xorb_nilpotent.
Qed.

(** The loop ends, whatever the callbacks that spare their node do to the
    registry, and what it leaves is [loop_post]. *)
Lemma reentrant_loop_terminates : forall elaps tr0 h0 rr k suf pre st,
  loop_inv tr0 h0 rr st pre suf ->
  (length (pending st) <= k)%nat ->
  exists fuel st',
    (forall f, (fuel <= f)%nat ->
       Reentrant.anim_timer_loop cbs rc elaps f (_lv_ll_get_head suf) st = Done st') /\
    loop_post tr0 h0 rr st'.
Proof.
  intros elaps tr0 h0 rr k.
  induction k as [k IHk] using lt_wf_ind.
  induction suf as [| n suf IHsuf]; intros pre st Hinv Hk.
  - exists 0%nat, st. split.
    + intros f _. destruct f; reflexivity.
    + destruct Hinv as (Hok & Hrr & Hh & Hl & Hpre & Hold & Hev).
      rewrite app_nil_r in Hl.
      destruct Hev as (evs & Htr & Hnd & Hvis & Hran).
      split; [exact Hok |]. split; [exact Hrr |]. split; [exact Hh |].
      split; [intros m Hm; apply Hpre; now rewrite <- Hl |].
      exists evs. split; [exact Htr |]. split; [exact Hnd |].
      split; [intros q Hq; now apply Hvis |].
      intros m Hm Hm0. apply Hran; [exact Hm | exact Hm0 |].
      apply Hpre. now rewrite <- Hl.
  - destruct (unprocessed st n) eqn:Hu.
    + destruct (reentrant_step_unprocessed elaps tr0 h0 rr st pre n suf Hinv Hu)
        as (st1 & pre1 & suf1 & Hstep & Hinv1 & Hless).
      destruct (IHk (length (pending st1))) with (suf := suf1) (pre := pre1)
        (st := st1) as (fuel & st' & Hrun & Hpost);
        [lia | exact Hinv1 | lia |].
      exists (S fuel), st'. split; [| exact Hpost].
      intros f Hf. destruct f as [| f]; [lia |].
      simpl _lv_ll_get_head. rewrite Hstep. apply Hrun. lia.
    + destruct (reentrant_step_processed elaps tr0 h0 rr st pre n suf Hinv Hu)
        as (Hstep & Hinv0 & Hpend).
      destruct (IHsuf (pre ++ [n]) (set_anim_list_changed false st) Hinv0)
        as (fuel & st' & Hrun & Hpost); [now rewrite Hpend |].
      exists (S fuel), st'. split; [| exact Hpost].
      intros f Hf. destruct f as [| f]; [lia |].
      simpl _lv_ll_get_head. rewrite Hstep. apply Hrun. lia.
Qed.

End Spared.

(* ------------------------------------------------------------------ *)
(** *** Callbacks that make no calls: the loop of [Scheduler] *)

Lemma called_quiet : forall cbs p st,
  linked p st = true -> Reentrant.called cbs [] p st = Some st.
Proof. intros cbs p st H. unfold Reentrant.called. simpl. now rewrite H. Qed.

Lemma first_tick_quiet : forall cbs elaps p a st,
  linked p st = true ->
  Reentrant.round_first_tick cbs quiet_reentry elaps p a st
    = Some (round_first_tick cbs elaps a st) /\
  linked p (snd (round_first_tick cbs elaps a st)) = true.
Proof.
  intros cbs elaps p a st Hl.
  unfold Reentrant.round_first_tick, round_first_tick. cbv zeta.
  destruct ((act_time a <=? 0) && (_ >=? 0)); [| split; [reflexivity | exact Hl]].
  destruct (negb (early_apply a) && negb (get_value_cb a =? NULL)).
  - unfold apply_value_offset. cbn [get_value_calls quiet_reentry].
    rewrite called_quiet by exact Hl.
    destruct (start_cb (offset_record cbs a (trace st)) =? NULL);
      [split; [reflexivity | exact Hl] |].
    cbn [start_calls quiet_reentry]. rewrite called_quiet by exact Hl.
    split; [reflexivity | exact Hl].
  - destruct (start_cb a =? NULL); [split; [reflexivity | exact Hl] |].
    cbn [start_calls quiet_reentry]. rewrite called_quiet by exact Hl.
    split; [reflexivity | exact Hl].
Qed.

Lemma apply_quiet : forall cbs p a st,
  linked p st = true ->
  Reentrant.round_apply cbs quiet_reentry p a st
    = Some (round_apply cbs a st).
Proof.
  intros cbs p a st Hl.
  unfold Reentrant.round_apply, round_apply. cbv zeta.
  assert (Hp : match path_cb a with
               | path_user f =>
                   Reentrant.called cbs (path_calls quiet_reentry f a) p st
               | _ => Some st
               end = Some st).
  { destruct (path_cb a); try reflexivity.
    cbn [path_calls quiet_reentry]. now apply called_quiet. }
  rewrite Hp.
  destruct (negb (path_call cbs a =? current_value a)); [| reflexivity].
  cbn [exec_cb var set_current_value].
  destruct (exec_cb a =? NULL); [reflexivity |].
  cbn [exec_calls quiet_reentry]. now rewrite called_quiet by exact Hl.
Qed.

Lemma round_quiet : forall cbs elaps p r st,
  linked p st = true ->
  Reentrant.anim_timer_round cbs quiet_reentry elaps p r st
    = anim_timer_round cbs elaps p r st.
Proof.
  intros cbs elaps p r st Hl.
  unfold Reentrant.anim_timer_round, anim_timer_round,
    Reentrant.round_advance, round_advance, Reentrant.round_tick, round_tick.
  cbv zeta.
  destruct (first_tick_quiet cbs elaps p
              (set_run_round (anim_run_round st) r) (emit (ev_round p) st) Hl)
    as (-> & Hl1).
  destruct (round_first_tick cbs elaps (set_run_round (anim_run_round st) r)
              (emit (ev_round p) st)) as [a1 st1].
  simpl in Hl1.
  destruct (act_time (set_act_time _ a1) >=? 0); [| reflexivity].
  rewrite apply_quiet by exact Hl1.
  destruct (round_apply cbs _ st1) as [a2 st2]. reflexivity.
Qed.

(** With callbacks that make no calls the loop is the loop of
    [Scheduler]. *)
Lemma reentrant_quiet : forall cbs fuel st,
  Reentrant.anim_timer cbs quiet_reentry fuel st = anim_timer cbs fuel st.
Proof.
  intros cbs fuel st. unfold Reentrant.anim_timer, anim_timer. cbv zeta.
  assert (H : forall elaps f a s,
            Reentrant.anim_timer_loop cbs quiet_reentry elaps f a s
            = anim_timer_loop cbs elaps f a s).
  { intros elaps f. induction f as [| f IH]; intros a s; [reflexivity |].
    destruct a as [p |]; [| reflexivity]. simpl.
    destruct (ll_deref (_lv_anim_ll s) p) as [r |] eqn:Hd; [| reflexivity].
    rewrite round_quiet by (unfold linked; simpl; now rewrite Hd).
    destruct (if xorb (run_round r) (anim_run_round s) then _ else _)
      as [s1 |]; [| reflexivity].
    destruct (anim_list_changed s1); [apply IH |].
    destruct (ll_deref (_lv_anim_ll s1) p); [apply IH | reflexivity]. }
  now rewrite H.
Qed.

(* ------------------------------------------------------------------ *)
(** *** Callbacks that call back for other targets *)

Lemma ll_deref_filter : forall (f : node -> bool) l p r,
  ll_deref l p = Some r ->
  (forall n, addr n = p -> anim n = r -> f n = true) ->
  ll_deref (filter f l) p = Some r.
Proof.
  induction l as [| n l IH]; simpl; intros p r Hd Hf; [discriminate |].
  destruct (Nat.eqb (addr n) p) eqn:E.
  - apply Nat.eqb_eq in E. inversion Hd; subst.
    rewrite (Hf n eq_refl eq_refl). simpl. now rewrite Nat.eqb_refl.
  - destruct (f n); simpl; [rewrite E |]; now apply IH.
Qed.

Lemma lv_anim_del_other_target : forall v cb st p r,
  NoDup (map addr (_lv_anim_ll st)) ->
  ll_deref (_lv_anim_ll st) p = Some r -> var r <> v ->
  ll_deref (_lv_anim_ll (snd (lv_anim_del v cb st))) p = Some r.
Proof.
  intros v cb st p r Hnd Hd Hv. rewrite (lv_anim_del_ll v cb st Hnd).
  apply ll_deref_filter; [exact Hd |].
  intros n _ ->. unfold del_match.
  apply Z.eqb_neq in Hv. now rewrite Hv.
Qed.

Lemma start_keeps_other_target : forall a st p r,
  ll_deref (_lv_anim_ll st) p = Some r -> var r <> var a ->
  ll_deref (start_keeps a st) p = Some r.
Proof.
  intros a st p r Hd Hv. unfold start_keeps.
  destruct (exec_cb a =? NULL); [exact Hd |].
  apply ll_deref_filter; [exact Hd |].
  intros n _ ->. unfold same_pair.
  apply Z.eqb_neq in Hv. now rewrite Hv.
Qed.

Lemma lv_anim_start_other_target : forall cbs a st p r,
  heap_ok st ->
  ll_deref (_lv_anim_ll st) p = Some r -> var r <> var a ->
  ll_deref (_lv_anim_ll (lv_anim_start cbs a st)) p = Some r.
Proof.
  intros cbs a st p r (Hnd & Hlt) Hd Hv.
  pose proof (start_keeps_other_target a st p r Hd Hv) as Hk.
  destruct (next_alloc_ok st) eqn:Ea.
  - destruct (lv_anim_start_ok cbs a st Hnd Ea) as (Hl & _).
    rewrite Hl. simpl.
    pose proof (Hlt _ (ll_deref_in _ _ _ Hd)) as Hp. simpl in Hp.
    destruct (Nat.eqb (heap_next st) p) eqn:E; [| exact Hk].
    apply Nat.eqb_eq in E. lia.
  - unfold next_alloc_ok in Ea.
    destruct (heap_plan st) as [| [|] plan] eqn:Ep; try discriminate.
    destruct (start_cleared_spec a st Hnd) as (Hl & _ & _ & Hp & _).
    rewrite (lv_anim_start_fail cbs a st plan) by (rewrite Hp; exact Ep).
    simpl. now rewrite Hl.
Qed.

Lemma avoids_keeps : forall cbs calls st p r,
  heap_ok st -> ll_deref (_lv_anim_ll st) p = Some r ->
  avoids (var r) calls = true ->
  linked p (run_api cbs calls st) = true.
Proof.
  intros cbs calls. induction calls as [| c calls IH]; intros st p r Hok Hd Ha.
  - unfold linked. simpl. now rewrite Hd.
  - simpl in Ha. apply andb_true_iff in Ha. destruct Ha as (Hc & Ha).
    destruct c as [a | v cb |]; simpl; [| | discriminate].
    + apply negb_true_iff, Z.eqb_neq in Hc.
      apply (IH _ p r); [now apply (api_step_start cbs a st) | | exact Ha].
      apply lv_anim_start_other_target; [exact Hok | exact Hd | congruence].
    + apply negb_true_iff, Z.eqb_neq in Hc.
      apply (IH _ p r); [now apply (api_step_del v cb st) | | exact Ha].
      apply lv_anim_del_other_target; [apply Hok | exact Hd | congruence].
Qed.

(** Callbacks whose calls are for other targets than the one they are
    called for spare the node. *)
Lemma avoids_spares : forall cbs rc,
  (forall cb v, avoids v (get_value_calls rc cb v) = true) ->
  (forall cb a, avoids (var a) (start_calls rc cb a) = true) ->
  (forall f a, avoids (var a) (path_calls rc f a) = true) ->
  (forall cb v x, avoids v (exec_calls rc cb v x) = true) ->
  spares cbs rc.
Proof.
  intros cbs rc Hg Hs Hp He st p r a Hok Hd Hsch.
  assert (Hv : var a = var r) by apply Hsch.
  repeat split; intros; apply (avoids_keeps cbs _ st p r Hok Hd);
    rewrite <- Hv; auto.
Qed.

Lemma busy_reentry_spares : forall cbs, spares cbs busy_reentry.
Proof.
  intros cbs. apply avoids_spares; intros; try reflexivity.
  - simpl. rewrite andb_true_r. apply negb_true_iff, Z.eqb_neq. lia.
  - simpl. destruct (v =? 1) eqn:E1.
    + apply Z.eqb_eq in E1. subst v. reflexivity.
    + destruct (v =? 2) eqn:E2; [| reflexivity].
      apply Z.eqb_eq in E2. subst v. reflexivity.
Qed.

(* ------------------------------------------------------------------ *)
(** *** The frame *)



Lemma st_one_running_registry_ok : registry_ok st_one_running.
Proof. apply registry_okb_sound. vm_compute. reflexivity. Qed.

Lemma self_cancel_never_returns : forall f,
  Reentrant.anim_timer quiet_callbacks self_cancel_reentry (S f)
    st_one_running = Dangling.
Proof. intros f. vm_compute. reflexivity. Qed.

